(** * 13-cards: the deal generator and the session coordinator

    A shallow embedding of [src/utils/cards.ts] (deck, shuffle, deal), of
    the socket server of the repository (rooms, confirmation, summary,
    point ledger) and of the handlers of the client's board and summary
    panel, with the properties of the specification proved or refuted over
    it, and further properties of the code.

    Conventions of the embedding:
    - a JavaScript array is a [list]; [push] appends at the end, [slice]
      is [take]/[drop], an indexed write is stdpp's list insert;
    - a JavaScript object read through [Object.entries]/[Object.values] is
      an association list in insertion order; an object used only through
      key lookups is a [gmap];
    - a JavaScript number is an IEEE 754 binary64 value, with the
      operations of the standard library's [SpecFloat] at precision 53:
      the point amounts and balances are such numbers, the server debits
      and credits them with the rounding of [-] and [+] and checks neither
      that an amount is an integer nor its size; an amount arrives as
      JSON, which can carry every number but NaN;
    - a socket id is a [string], and is never empty; room ids are looked
      up among the own keys of [rooms];
    - the handlers run in a small state-and-output monad: the state is the
      set of module-level registries of the server, the output is the list
      of socket emissions in the order in which they are issued;
    - a handler of a React component is a function from the state it reads
      to the state it leaves once the queued updates are applied, together
      with what it sends; the result of [parseInt] is an input. *)

From Stdlib Require Import ZArith Lia Floats.SpecFloat.
From stdpp Require Import base option list strings gmap pretty.

Open Scope string_scope.
Open Scope list_scope.

(** ** [src/utils/cards.ts] *)

Module Cards.

Inductive Suit := hearts | diamonds | clubs | spades | joker.

Record Card := mkCard { suit : Suit; value : string }.

#[global] Instance Suit_eq_dec : EqDecision Suit.
Proof. solve_decision. Defined.

#[global] Instance Card_eq_dec : EqDecision Card.
Proof. solve_decision. Defined.

Definition suits : list Suit := [hearts; diamonds; clubs; spades].

Definition values : list string :=
  ["2"; "3"; "4"; "5"; "6"; "7"; "8"; "9"; "10"; "J"; "Q"; "K"; "A"].

(** [deck.push(x)] *)
Definition push {A} (deck : list A) (x : A) : list A := deck ++ [x].

(** [for (let i = 0; i < n; i++) body], the body not reading [i]. *)
Fixpoint times {A} (n : nat) (body : A -> A) (acc : A) : A :=
  match n with
  | O => acc
  | S m => times m body (body acc)
  end.

Definition createDeck : list Card :=
  let deck := [] in
  (* Add standard cards *)
  let deck :=
    foldl (fun deck suit =>
             foldl (fun deck value => push deck (mkCard suit value)) deck values)
          deck suits in
  (* Add 4 jokers *)
  times 4 (fun deck => push deck (mkCard joker "Joker")) deck.

(** Every object literal pushed by [createDeck] is a fresh object: a card
    instance is identified by the position at which it was pushed.  The
    value of a card does not identify it, the four jokers are equal as
    values. *)
Definition allocated {A} (deck : list A) : list (nat * A) :=
  zip (seq 0 (length deck)) deck.

Definition forget {A} (l : list (nat * A)) : list A := snd <$> l.

Section Arrays.
Context {A : Type}.

(** [[a[i], a[j]] = [a[j], a[i]]]: both reads come first, then the write
    at [i], then the write at [j].  Both indices are inside the array
    whenever the code runs it (see [shuffleDeck]). *)
Definition swap (i j : nat) (a : list A) : list A :=
  match a !! i, a !! j with
  | Some ai, Some aj => <[j := ai]> (<[i := aj]> a)
  | _, _ => a
  end.

(** The loop of [shuffleDeck], at iterations [i = n, n-1, ..., 1];
    [rand i] is the value of [Math.floor(Math.random() * (i + 1))] drawn
    at iteration [i], an integer between [0] and [i]. *)
Fixpoint shuffleLoop (rand : nat -> nat) (n : nat) (shuffled : list A) : list A :=
  match n with
  | O => shuffled
  | S m => shuffleLoop rand m (swap (S m) (rand (S m)) shuffled)
  end.

Definition shuffleDeck (rand : nat -> nat) (deck : list A) : list A :=
  let shuffled := deck in
  shuffleLoop rand (length shuffled - 1) shuffled.

(** [a.slice(start, end)] for non-negative integer bounds. *)
Definition slice (start end_ : nat) (a : list A) : list A :=
  take (end_ - start) (drop start a).

Record GameCards := mkGameCards {
  players : gmap string (list A);
  communityCards : list A
}.

(** [players.forEach((playerId, index) => playerCards[playerId] = ...)] *)
Fixpoint dealLoop (deck : list A) (index : nat) (players : list string)
    (playerCards : gmap string (list A)) : gmap string (list A) :=
  match players with
  | [] => playerCards
  | playerId :: rest =>
      dealLoop deck (S index) rest
        (<[playerId := slice (index * 13) ((index + 1) * 13) deck]> playerCards)
  end.

(** The body of [dealCards] after the deck has been shuffled. *)
Definition dealFrom (deck : list A) (players : list string) : GameCards :=
  let playerCards := dealLoop deck 0 players ∅ in
  let communityCards :=
    slice (length players * 13) (length players * 13 + 4) deck in
  {| players := playerCards; communityCards := communityCards |}.
End Arrays.

Arguments GameCards : clear implicits.

Definition dealCards (rand : nat -> nat) (players : list string) : GameCards Card :=
  let deck := shuffleDeck rand createDeck in
  dealFrom deck players.

(** Forgetting the identity of the instances of a deal. *)
Definition forgetDeal (d : GameCards (nat * Card)) : GameCards Card :=
  {| players := forget <$> players d; communityCards := forget (communityCards d) |}.

(** The deal at the level of card instances. *)
Definition dealInstances (rand : nat -> nat) (players : list string)
    : GameCards (nat * Card) :=
  dealFrom (shuffleDeck rand (allocated createDeck)) players.

End Cards.

(** ** JavaScript numbers *)

Module Number.

(** A number is a binary64 value: a signed zero, a signed infinity, NaN,
    or a sign, a mantissa and an exponent. *)
Definition number : Type := spec_float.

Definition prec : Z := 53.
Definition emax : Z := 1024.

(** The mantissa and the exponent are those of a binary64 value. *)
Definition isNumber (x : number) : bool := valid_binary prec emax x.

(** The literal [0] *)
Definition zero : number := S754_zero false.

(** [x - y] *)
Definition sub (x y : number) : number := SFsub prec emax x y.

(** [x + y] *)
Definition add (x y : number) : number := SFadd prec emax x y.

(** [x <= y] *)
Definition le (x y : number) : bool := SFleb x y.

(** [x < y] *)
Definition lt (x y : number) : bool := SFltb x y.

(** [isNaN(x)] *)
Definition isNaN (x : number) : bool :=
  match x with
  | S754_nan => true
  | _ => false
  end.

(** [!x]: the zeros and NaN are falsy. *)
Definition falsy (x : number) : bool :=
  match x with
  | S754_zero _ | S754_nan => true
  | _ => false
  end.


(** The number written as the integer literal [z]: the nearest binary64
    value. *)
Definition ofZ (z : Z) : number := binary_normalize prec emax z 0 false.

(** [Math.trunc(x)] of a finite number, as an integer. *)
Definition toZ (x : number) : Z :=
  match x with
  | S754_finite s m e => cond_Zopp s (Z.shiftl (Zpos m) e)
  | _ => 0%Z
  end.

(** [Number.MAX_SAFE_INTEGER] *)
Definition MAX_SAFE_INTEGER : Z := 2 ^ 53 - 1.

(** [Number.isSafeInteger], on integers. *)
Definition isSafeInteger (z : Z) : Prop :=
  (- MAX_SAFE_INTEGER <= z <= MAX_SAFE_INTEGER)%Z.

End Number.

(** ** The socket server: registries, emissions, handlers *)

Module Server.
Import Cards.

Inductive Status := SEmpty | SWaiting | SReady | SPlaying | SSummary.

#[global] Instance Status_eq_dec : EqDecision Status.
Proof. solve_decision. Defined.

Record GameRoom := mkGameRoom {
  player : option string;
  isReady : bool;
  capacity : nat;
  status : Status
}.

Record Positions := mkPositions {
  row0 : list Card;
  row1 : list Card;
  row2 : list Card
}.

Record PlayedCard := mkPlayedCard {
  playerId : string;
  roomId : string;
  cards : Positions;
  communityCardUsed : option Card;
  confirmed : bool
}.

Record PointTransaction := mkPointTransaction {
  from : string;
  to : string;
  amount : Number.number;
  timestamp : Z
}.

Definition ROOM_CAPACITY : nat := 1.

(** The module-level registries of the server. *)
Record State := mkState {
  rooms : list (string * GameRoom);
  playedCards : list (string * PlayedCard);
  readyForNextGame : gmap string bool;
  playerPoints : gmap string Number.number;
  transactions : list PointTransaction
}.

Definition initial : State :=
  {| rooms :=
       [("room-1", mkGameRoom None false ROOM_CAPACITY SEmpty);
        ("room-2", mkGameRoom None false ROOM_CAPACITY SEmpty);
        ("room-3", mkGameRoom None false ROOM_CAPACITY SEmpty);
        ("room-4", mkGameRoom None false ROOM_CAPACITY SEmpty)];
     playedCards := [];
     readyForNextGame := ∅;
     playerPoints :=
       <["room-4" := Number.zero]> (<["room-3" := Number.zero]>
         (<["room-2" := Number.zero]> (<["room-1" := Number.zero]> ∅)));
     transactions := [] |}.

Definition set_rooms (f : list (string * GameRoom) -> list (string * GameRoom))
    (s : State) : State :=
  mkState (f (rooms s)) (playedCards s) (readyForNextGame s) (playerPoints s)
          (transactions s).

Definition set_playedCards
    (f : list (string * PlayedCard) -> list (string * PlayedCard))
    (s : State) : State :=
  mkState (rooms s) (f (playedCards s)) (readyForNextGame s) (playerPoints s)
          (transactions s).

Definition set_readyForNextGame (f : gmap string bool -> gmap string bool)
    (s : State) : State :=
  mkState (rooms s) (playedCards s) (f (readyForNextGame s)) (playerPoints s)
          (transactions s).

Definition set_playerPoints
    (f : gmap string Number.number -> gmap string Number.number)
    (s : State) : State :=
  mkState (rooms s) (playedCards s) (readyForNextGame s) (f (playerPoints s))
          (transactions s).

Definition set_transactions
    (f : list PointTransaction -> list PointTransaction) (s : State) : State :=
  mkState (rooms s) (playedCards s) (readyForNextGame s) (playerPoints s)
          (f (transactions s)).

(** *** Objects with insertion order *)

Section Objects.
Context {V : Type}.

(** [o[k]] *)
Fixpoint lookupKey (k : string) (o : list (string * V)) : option V :=
  match o with
  | [] => None
  | (k', v) :: rest => if decide (k' = k) then Some v else lookupKey k rest
  end.

(** A write through a reference to the object stored at [o[k]]; nothing
    happens when the key is absent. *)
Fixpoint updateKey (k : string) (f : V -> V) (o : list (string * V))
    : list (string * V) :=
  match o with
  | [] => []
  | (k', v) :: rest =>
      if decide (k' = k) then (k', f v) :: rest
      else (k', v) :: updateKey k f rest
  end.

(** [o[k] = v]: an existing key keeps its place, a new key goes last. *)
Fixpoint setKey (k : string) (v : V) (o : list (string * V))
    : list (string * V) :=
  match o with
  | [] => [(k, v)]
  | (k', v') :: rest =>
      if decide (k' = k) then (k', v) :: rest
      else (k', v') :: setKey k v rest
  end.

(** [delete o[k]] *)
Definition deleteKey (k : string) (o : list (string * V)) : list (string * V) :=
  filter (fun e => e.1 <> k) o.
End Objects.

(** *** Emissions *)

Record SummaryEntry := mkSummaryEntry {
  summary_roomId : string;
  summary_playerId : string;
  summary_cards : Positions;
  summary_communityCardUsed : option Card
}.

(** The outbound events with their payloads; a payload is the value of the
    registry at the time of the emission. *)
Inductive Message :=
  | roomsUpdate (rs : list (string * GameRoom))
  | pointsUpdate (points : gmap string Number.number)
  | transactionsUpdate (txs : list PointTransaction)
  | joinedRoom (roomId : string)
  | gameStart (cards : option (list Card)) (communityCards : list Card)
              (players : list string) (roomId : string)
  | cardsSummary (summary : list SummaryEntry)
  | error (msg : string).

(** [io.emit] reaches every connected party, [socket.emit] one socket. *)
Inductive Target := ToAll | ToSocket (id : string).

Record Emission := Emit { target : Target; message : Message }.

(** What a handler takes from outside the registries: the random draws of
    the shuffle, which sockets [io.sockets.sockets.get] finds, and the
    clock. *)
Record Env := mkEnv {
  rand : nat -> nat;
  connected : string -> bool;
  now : Z
}.

(** *** The monad of the handlers *)

Definition M (A : Type) : Type := State -> A * State * list Emission.

#[global] Instance M_ret : MRet M := fun A x s => (x, s, []).

#[global] Instance M_bind : MBind M := fun A B f m s =>
  let '(x, s1, out1) := m s in
  let '(y, s2, out2) := f x s1 in
  (y, s2, out1 ++ out2).

Definition get : M State := fun s => (s, s, []).

Definition modify (f : State -> State) : M unit := fun s => (tt, f s, []).

Definition emit (t : Target) (m : Message) : M unit :=
  fun s => (tt, s, [Emit t m]).

Definition skip : M unit := mret tt.

(** [xs.forEach(body)] *)
Fixpoint forEach {A} (xs : list A) (body : A -> M unit) : M unit :=
  match xs with
  | [] => skip
  | x :: rest => body x ;; forEach rest body
  end.

(** The state and the emissions a handler leaves behind. *)
Definition exec (m : M unit) (s : State) : State * list Emission :=
  ((m s).1.2, (m s).2).

(** *** Helpers of the server *)

Definition ensurePlayerPoints (roomId : string) : M unit :=
  s ← get;
  match playerPoints s !! roomId with
  | None => modify (set_playerPoints <[roomId := Number.zero]>)
  | Some _ => skip
  end.

Definition getRoomByPlayerId (playerId : string) (s : State) : option string :=
  fst <$> head (filter (fun e => player e.2 = Some playerId) (rooms s)).

Definition startRoom (r : GameRoom) : GameRoom :=
  mkGameRoom (player r) false (capacity r) SPlaying.

Definition readyRooms (s : State) : list (string * GameRoom) :=
  filter (fun e => status e.2 = SReady) (rooms s).

Definition roomsWithPlayers (s : State) : list (string * GameRoom) :=
  filter (fun e => player e.2 <> None) (rooms s).

(** [Object.keys(playedCards).forEach(key => delete playedCards[key])] *)
Definition clearPlayedCards : M unit :=
  s ← get;
  forEach (playedCards s).*1
    (fun key => modify (set_playedCards (deleteKey key))).

(** The callback of [roomsWithPlayers.forEach] in [checkAndStartGame]. *)
Definition startPlayer (env : Env) (players : list string)
    (gameCards : GameCards Card) (entry : string * GameRoom) : M unit :=
  let '(roomId, room) := entry in
  (* Set all rooms with players to playing status *)
  modify (set_rooms (updateKey roomId startRoom)) ;;
  match player room return M unit with
  | Some p =>
      if connected env p then
        (* Ensure player has points *)
        ensurePlayerPoints roomId ;;
        emit (ToSocket p)
          (gameStart (Cards.players gameCards !! p)
                     (Cards.communityCards gameCards) players roomId)
      else skip
  | None => skip
  end.

Definition checkAndStartGame (env : Env) : M unit :=
  s ← get;
  (* Count ready rooms *)
  let readyRooms := readyRooms s in
  (* Get all rooms with players (whether ready or not) *)
  let roomsWithPlayers := roomsWithPlayers s in
  (* If at least one room is ready and there are at least two rooms with
     players, start the game *)
  if decide (1 <= length readyRooms /\ 2 <= length roomsWithPlayers) then
    (* Get all players *)
    let players := omap (fun e => player e.2) roomsWithPlayers in
    let gameCards := dealCards (rand env) players in
    (* Clear any existing played cards *)
    clearPlayedCards ;;
    (* Update room status and send cards to all players *)
    forEach roomsWithPlayers (startPlayer env players gameCards) ;;
    (* Broadcast updated room status and points *)
    s ← get;
    emit ToAll (roomsUpdate (rooms s)) ;;
    emit ToAll (pointsUpdate (playerPoints s))
  else skip.

(** The pairs [{ roomId, playerId }] of the occupied rooms in a status. *)
Definition occupiedIn (st : Status) (s : State) : list (string * string) :=
  omap (fun e => pair e.1 <$> player e.2)
       (filter (fun e => status e.2 = st /\ player e.2 <> None) (rooms s)).

Definition isConfirmed (s : State) (playerId : string) : bool :=
  match lookupKey playerId (playedCards s) with
  | Some played => confirmed played
  | None => false
  end.

Definition summaryOf (played : PlayedCard) : SummaryEntry :=
  mkSummaryEntry (roomId played) (playerId played)
    (mkPositions (row0 (cards played)) (row1 (cards played))
                 (row2 (cards played)))
    (communityCardUsed played).

Definition summarizeRoom (r : GameRoom) : GameRoom :=
  mkGameRoom (player r) (isReady r) (capacity r) SSummary.

Definition checkAllPlayersConfirmed : M unit :=
  s ← get;
  (* Get all playing rooms with players *)
  let playingRooms := occupiedIn SPlaying s in
  (* Check if all players have played and confirmed; [allPlayed] is only
     logged *)
  let allConfirmed := forallb (fun e => isConfirmed s e.2) playingRooms in
  (* If all players have confirmed, send the summary *)
  if allConfirmed && bool_decide (2 <= length playingRooms) then
    (* Create summary object with all played cards *)
    let summary := summaryOf <$> (playedCards s).*2 in
    (* Update room status to summary; [if (rooms[roomId])] is the no-op of
       [updateKey] on an absent key *)
    forEach playingRooms (fun e =>
      modify (set_rooms (updateKey e.1 summarizeRoom))) ;;
    (* Reset ready for next game *)
    forEach playingRooms (fun e =>
      modify (set_readyForNextGame <[e.2 := false]>)) ;;
    (* Send summary to all players *)
    emit ToAll (cardsSummary summary) ;;
    s ← get;
    emit ToAll (roomsUpdate (rooms s))
  else skip.

Definition rearmRoom (r : GameRoom) : GameRoom :=
  mkGameRoom (player r) true (capacity r) SReady.

(** [readyForNextGame[playerId]] read as a condition. *)
Definition isReadyForNext (s : State) (playerId : string) : bool :=
  default false (readyForNextGame s !! playerId).

Definition checkAllPlayersReadyForNextGame (env : Env) : M unit :=
  s ← get;
  (* Get all rooms in summary state with players *)
  let summaryRooms := occupiedIn SSummary s in
  (* Check if all players are ready for next game *)
  let allReady :=
    bool_decide (2 <= length summaryRooms) &&
    forallb (fun e => isReadyForNext s e.2) summaryRooms in
  (* If all players are ready, start a new game *)
  if allReady then
    (* Reset all rooms to ready state; [if (rooms[roomId])] as above *)
    forEach summaryRooms (fun e =>
      modify (set_rooms (updateKey e.1 rearmRoom))) ;;
    (* Clear played cards *)
    clearPlayedCards ;;
    (* Clear ready for next game state: every key is set to false, in
       whatever order the keys come *)
    forEach (map_to_list (readyForNextGame s)).*1
      (fun key => modify (set_readyForNextGame <[key := false]>)) ;;
    (* Broadcast room updates *)
    s ← get;
    emit ToAll (roomsUpdate (rooms s)) ;;
    (* Start new game *)
    checkAndStartGame env
  else skip.

(** *** The handlers of a connection; [sid] is [socket.id] *)

Definition on_connection (sid : string) : M unit :=
  s ← get;
  emit (ToSocket sid) (roomsUpdate (rooms s)) ;;
  emit (ToSocket sid) (pointsUpdate (playerPoints s)) ;;
  emit (ToSocket sid) (transactionsUpdate (transactions s)).

Definition vacateRoom (r : GameRoom) : GameRoom :=
  mkGameRoom None false (capacity r) SEmpty.

Definition enterRoom (sid : string) (r : GameRoom) : GameRoom :=
  mkGameRoom (Some sid) false (capacity r) SWaiting.

(** [!room || room.status === 'playing' || room.player !== null] *)
Definition joinRefused (room : option GameRoom) : bool :=
  match room with
  | None => true
  | Some room =>
      bool_decide (status room = SPlaying) || bool_decide (player room <> None)
  end.

Definition on_joinRoom (sid : string) (roomId : string) : M unit :=
  s ← get;
  let room := lookupKey roomId (rooms s) in
  if joinRefused room then
    emit (ToSocket sid) (error "Room is not available")
  else
    (* Leave current room if in one *)
    forEach (rooms s) (fun e =>
      if decide (player e.2 = Some sid) then
        modify (set_rooms (updateKey e.1 vacateRoom))
      else skip) ;;
    (* Join new room *)
    modify (set_rooms (updateKey roomId (enterRoom sid))) ;;
    s ← get;
    emit ToAll (roomsUpdate (rooms s)) ;;
    emit ToAll (pointsUpdate (playerPoints s)) ;;
    emit (ToSocket sid) (joinedRoom roomId).

Definition toggleRoom (r : GameRoom) : GameRoom :=
  let isReady' := negb (isReady r) in
  mkGameRoom (player r) isReady' (capacity r)
             (if isReady' then SReady else SWaiting).

Definition on_toggleReady (env : Env) (sid : string) (roomId : string) : M unit :=
  s ← get;
  match lookupKey roomId (rooms s) with
  | None => skip
  | Some room =>
      if decide (player room <> Some sid) then skip
      else
        modify (set_rooms (updateKey roomId toggleRoom)) ;;
        s ← get;
        emit ToAll (roomsUpdate (rooms s)) ;;
        (* Check if we can start the game *)
        checkAndStartGame env
  end.

(** [!room || room.player !== socket.id || room.status !== st] *)
Definition notOwnerIn (st : Status) (sid : string) (room : option GameRoom) : bool :=
  match room with
  | None => true
  | Some room =>
      bool_decide (player room <> Some sid) || bool_decide (status room <> st)
  end.

Definition on_confirmCards (sid : string) (roomId : string) (cards : Positions)
    (communityCardUsed : option Card) : M unit :=
  s ← get;
  let room := lookupKey roomId (rooms s) in
  if notOwnerIn SPlaying sid room then skip
  else
    (* Store the played cards *)
    modify (set_playedCards
              (setKey sid (mkPlayedCard sid roomId cards communityCardUsed true))) ;;
    (* Check if all players have confirmed *)
    checkAllPlayersConfirmed.

Definition on_readyForNextGame (env : Env) (sid : string) (roomId : string) : M unit :=
  s ← get;
  let room := lookupKey roomId (rooms s) in
  if notOwnerIn SSummary sid room then skip
  else
    (* Mark player as ready for next game *)
    modify (set_readyForNextGame <[sid := true]>) ;;
    (* Check if all players are ready for next game *)
    checkAllPlayersReadyForNextGame env.

(** [!p] for [p : string | null | undefined] *)
Definition falsy (p : option string) : bool :=
  match p with
  | None => true
  | Some id => bool_decide (id = "")
  end.

Definition on_transferPoints (env : Env) (sid : string)
    (fromRoomId toRoomId : string) (amount : Number.number) : M unit :=
  (* Validate amount is positive *)
  if Number.le amount Number.zero then
    emit (ToSocket sid) (error "Cannot transfer zero or negative points")
  else
    s ← get;
    (* Get player IDs from room IDs *)
    let fromPlayer := lookupKey fromRoomId (rooms s) ≫= player in
    let toPlayer := lookupKey toRoomId (rooms s) ≫= player in
    (* Validate players exist and are in summary state *)
    if falsy fromPlayer || falsy toPlayer then
      emit (ToSocket sid) (error "Cannot transfer points - players not found")
    else if bool_decide (status <$> lookupKey fromRoomId (rooms s) <> Some SSummary)
            || bool_decide (status <$> lookupKey toRoomId (rooms s) <> Some SSummary)
    then
      emit (ToSocket sid)
           (error "Cannot transfer points - game not in summary state")
    (* Ensure sender is the one requesting the transfer *)
    else if decide (fromPlayer <> Some sid) then
      emit (ToSocket sid) (error "You can only transfer your own points")
    else
      (* Ensure sender has points entry (can now be negative) *)
      ensurePlayerPoints fromRoomId ;;
      ensurePlayerPoints toRoomId ;;
      (* Transfer points (allowed to go negative) *)
      modify (set_playerPoints
                (alter (fun v => Number.sub v amount) fromRoomId)) ;;
      modify (set_playerPoints
                (alter (fun v => Number.add v amount) toRoomId)) ;;
      (* Record the transaction *)
      let transaction :=
        mkPointTransaction fromRoomId toRoomId amount (now env) in
      modify (set_transactions (fun txs => txs ++ [transaction])) ;;
      (* Broadcast updated points and transactions *)
      s ← get;
      emit ToAll (pointsUpdate (playerPoints s)) ;;
      emit ToAll (transactionsUpdate (transactions s)).

Definition on_disconnect (sid : string) : M unit :=
  (* Remove played cards for disconnected player *)
  modify (set_playedCards (deleteKey sid)) ;;
  modify (set_readyForNextGame (delete sid)) ;;
  s ← get;
  forEach (rooms s) (fun e =>
    if decide (player e.2 = Some sid) then
      modify (set_rooms (updateKey e.1 vacateRoom)) ;;
      s ← get;
      emit ToAll (roomsUpdate (rooms s))
    else skip).

(** *** Inbound events and the transition system *)

Inductive Event :=
  | Connection
  | JoinRoom (roomId : string)
  | ToggleReady (roomId : string)
  | ConfirmCards (roomId : string) (cards : Positions)
                 (communityCardUsed : option Card)
  | ReadyForNextGame (roomId : string)
  | TransferPoints (fromRoomId toRoomId : string) (amount : Number.number)
  | Disconnect.

Definition handle (env : Env) (sid : string) (ev : Event) : M unit :=
  match ev with
  | Connection => on_connection sid
  | JoinRoom roomId => on_joinRoom sid roomId
  | ToggleReady roomId => on_toggleReady env sid roomId
  | ConfirmCards roomId cards communityCardUsed =>
      on_confirmCards sid roomId cards communityCardUsed
  | ReadyForNextGame roomId => on_readyForNextGame env sid roomId
  | TransferPoints fromRoomId toRoomId amount =>
      on_transferPoints env sid fromRoomId toRoomId amount
  | Disconnect => on_disconnect sid
  end.

(** The payload of an event is read by the JSON parser of socket.io: an
    amount is any number but NaN, for which JSON has no literal. *)
Definition deliverable (ev : Event) : bool :=
  match ev with
  | TransferPoints _ _ amount =>
      Number.isNumber amount && negb (Number.isNaN amount)
  | _ => true
  end.

(** One event handled to completion. *)
Definition step (env : Env) (sid : string) (ev : Event) (s : State)
    : State * list Emission :=
  exec (handle env sid ev) s.

(** The states of the server: the initial registries, then one event after
    the other, each from a socket (socket ids are never empty) with a
    payload that JSON can carry. *)
Inductive reachable : State -> Prop :=
  | reachable_initial : reachable initial
  | reachable_step s env sid ev :
      reachable s -> sid <> "" -> deliverable ev = true ->
      reachable (step env sid ev s).1.

(** A run of events from a state, for concrete scenarios. *)
Fixpoint run (evs : list (Env * string * Event)) (s : State) : State :=
  match evs with
  | [] => s
  | (env, sid, ev) :: rest => run rest (step env sid ev s).1
  end.

End Server.

(** ** The client: the board of a player and the summary panel *)

Module Client.
Import Cards.
Import Server.

(** [interface PositionedCard extends Card] *)
Record PositionedCard := mkPositionedCard {
  suit : Suit;
  value : string;
  id : string;
  isPlaced : bool;
  position : option (nat * nat)
}.

(** [{ suit: card.suit, value: card.value }] *)
Definition faceOf (card : PositionedCard) : Card := mkCard (suit card) (value card).

(** The state of a [GameBoard] that the handlers below read and write.
    The render sorts [boardCards] in place by suit and value; the handlers
    look cards up by [id] and keep the order they find. *)
Record Board := mkBoard {
  positions : list (string * option PositionedCard);
  boardCards : list PositionedCard;
  confirmed : bool;
  selectedCommunityCard : option Card
}.

(** What a handler does besides setting state: an [alert], or an event sent
    to the server through the socket. *)
Inductive Effect :=
  | alert (msg : string)
  | send (ev : Event).

Definition emptyPositions : list (string * option PositionedCard) :=
  [(* First row - 3 slots *)
   ("0-0", None); ("0-1", None); ("0-2", None);
   (* Second row - 5 slots *)
   ("1-0", None); ("1-1", None); ("1-2", None); ("1-3", None); ("1-4", None);
   (* Third row - 5 slots *)
   ("2-0", None); ("2-1", None); ("2-2", None); ("2-3", None); ("2-4", None)].

(** The name of a suit, as the string it is in the source. *)
Definition suitName (s : Suit) : string :=
  match s with
  | hearts => "hearts"
  | diamonds => "diamonds"
  | clubs => "clubs"
  | spades => "spades"
  | joker => "joker"
  end.

(** The effect that runs when new cards are received: the positions are
    reset and the cards become the hand of the board. *)
Definition receiveCards (cards : list Card) : Board :=
  mkBoard emptyPositions
    (imap (fun index card =>
             mkPositionedCard (Cards.suit card) (Cards.value card)
               (suitName (Cards.suit card) ++ "-" ++ Cards.value card
                  ++ "-" ++ pretty index)
               false None) cards)
    false None.

(** [`${row}-${slot}`] *)
Definition slotKey (row slot : nat) : string :=
  pretty row ++ "-" ++ pretty slot.

(** [positions[key]], read as a condition or after one: a missing key
    ([undefined]) and [null] are both falsy. *)
Definition cardAt (positions : list (string * option PositionedCard))
    (key : string) : option PositionedCard :=
  default None (lookupKey key positions).

(** [Object.values(positions).filter(Boolean).length === 13] *)
Definition isGameComplete (positions : list (string * option PositionedCard))
    : bool :=
  bool_decide (length (filter (fun v => is_Some v) positions.*2) = 13).

(** One loop of [findNextEmptySlot], with [n] iterations left:
    [for (; slot < ...; slot++)
       if (!positions[`${row}-${slot}`]) return { row, slot }] *)
Fixpoint scanRow (positions : list (string * option PositionedCard))
    (row slot n : nat) : option (nat * nat) :=
  match n with
  | O => None
  | S m =>
      match cardAt positions (slotKey row slot) with
      | None => Some (row, slot)
      | Some _ => scanRow positions row (S slot) m
      end
  end.

(** Find the next empty slot in order (first row first, then second,
    etc.) *)
Definition findNextEmptySlot (positions : list (string * option PositionedCard))
    : option (nat * nat) :=
  (* First row *)
  match scanRow positions 0 0 3 with
  | Some next => Some next
  | None =>
      (* Second row *)
      match scanRow positions 1 0 5 with
      | Some next => Some next
      | None =>
          (* Third row *)
          scanRow positions 2 0 5
      end
  end.

(** [{ ...c, isPlaced: true, position: nextSlot }] *)
Definition place (nextSlot : nat * nat) (c : PositionedCard) : PositionedCard :=
  mkPositionedCard (suit c) (value c) (id c) true (Some nextSlot).

(** [{ ...c, isPlaced: false, position: undefined }] *)
Definition unplace (c : PositionedCard) : PositionedCard :=
  mkPositionedCard (suit c) (value c) (id c) false None.

(** Handle clicking on a card *)
Definition handleCardClick (card : PositionedCard) (b : Board) : Board :=
  if confirmed b then b
  else
    (* Find the next available slot *)
    match findNextEmptySlot (positions b) with
    | None => b
    | Some nextSlot =>
        (* Update the card's position *)
        let updatedCards :=
          (fun c => if decide (id c = id card) then place nextSlot c else c)
            <$> boardCards b in
        (* Update the positions map *)
        let slotKey := slotKey nextSlot.1 nextSlot.2 in
        mkBoard
          (setKey slotKey
             (head (filter (fun c => id c = id card) updatedCards))
             (positions b))
          updatedCards (confirmed b) (selectedCommunityCard b)
    end.

(** Handle clicking on a slot to remove a card *)
Definition handleSlotClick (row slot : nat) (b : Board) : Board :=
  if confirmed b then b
  else
    let slotKey := slotKey row slot in
    match cardAt (positions b) slotKey with
    | None => b
    | Some cardInSlot =>
        mkBoard
          (* Remove the card from the slot *)
          (setKey slotKey None (positions b))
          (* Update the card's status *)
          ((fun c => if decide (id c = id cardInSlot) then unplace c else c)
             <$> boardCards b)
          (confirmed b) (selectedCommunityCard b)
    end.

(** Reset the game board *)
Definition handleReset (b : Board) : Board :=
  mkBoard emptyPositions (unplace <$> boardCards b) false
          (selectedCommunityCard b).

(** [confirmCards] of the socket context: the event leaves only when there
    is a socket and the room is the current one. *)
Definition confirmCards (socket : bool) (currentRoom : option string)
    (roomId : string) (cards : Positions) (communityCardUsed : option Card)
    : list Effect :=
  if socket && bool_decide (currentRoom = Some roomId) then
    [send (ConfirmCards roomId cards communityCardUsed)]
  else [].

(** [[positions[k1], ...].filter(Boolean).map(card => ({ suit, value }))] *)
Definition rowCards (positions : list (string * option PositionedCard))
    (keys : list string) : list Card :=
  faceOf <$> omap (cardAt positions) keys.

(** Handle ready button click *)
Definition handleReady (socket : bool) (currentRoom : option string)
    (b : Board) : Board * list Effect :=
  if negb (isGameComplete (positions b)) then
    (b, [alert "Please place all 13 cards before submitting!"])
  else
    let b' :=
      mkBoard (positions b) (boardCards b) true (selectedCommunityCard b) in
    (* Send the card positions to the server *)
    match currentRoom with
    | Some room =>
        if bool_decide (room = "") then (b', [])
        else
          (* Extract cards by row *)
          let row0Cards := rowCards (positions b) ["0-0"; "0-1"; "0-2"] in
          let row1Cards :=
            rowCards (positions b) ["1-0"; "1-1"; "1-2"; "1-3"; "1-4"] in
          let row2Cards :=
            rowCards (positions b) ["2-0"; "2-1"; "2-2"; "2-3"; "2-4"] in
          (b', confirmCards socket currentRoom room
                 (mkPositions row0Cards row1Cards row2Cards)
                 (selectedCommunityCard b))
    | None => (b', [])
    end.





(** Get transactions relevant to a room *)
Definition getRoomTransactions (roomId : string)
    (transactions : list PointTransaction) : list PointTransaction :=
  filter (fun t => from t = roomId \/ to t = roomId) transactions.

End Client.

(** * Vocabulary of the properties *)

Import Cards.
Import Server.

(** The seat registered under an id, as [rooms[roomId]] reads it. *)
Definition seat (s : State) (roomId : string) : option GameRoom :=
  lookupKey roomId (rooms s).

Definition ownsSeat (s : State) (sid roomId : string) : Prop :=
  exists r, seat s roomId = Some r /\ player r = Some sid.

Definition seatIn (st : Status) (s : State) (roomId : string) : Prop :=
  exists r, seat s roomId = Some r /\ status r = st.

(** A seat can be joined when it exists, is free and is not playing. *)
Definition seatAvailable (s : State) (roomId : string) : Prop :=
  exists r, seat s roomId = Some r /\ status r <> SPlaying /\ player r = None.

(** The precondition of an inbound event, other than a transfer, fails. *)
Definition preconditionFails (s : State) (sid : string) (ev : Event) : Prop :=
  match ev with
  | JoinRoom roomId => ~ seatAvailable s roomId
  | ToggleReady roomId => ~ ownsSeat s sid roomId
  | ConfirmCards roomId _ _ =>
      ~ (ownsSeat s sid roomId /\ seatIn SPlaying s roomId)
  | ReadyForNextGame roomId =>
      ~ (ownsSeat s sid roomId /\ seatIn SSummary s roomId)
  | _ => False
  end.

(** What the server sends back when it refuses such an event. *)
Definition refusal (sid : string) (ev : Event) : list Emission :=
  match ev with
  | JoinRoom _ => [Emit (ToSocket sid) (error "Room is not available")]
  | _ => []
  end.

Inductive TransferError :=
  InvalidAmount | SeatEmpty | NotInSummaryPhase | NotAuthorized.

(** The message with which the server reports each kind of refusal. *)
Definition transferErrorMessage (e : TransferError) : string :=
  match e with
  | InvalidAmount => "Cannot transfer zero or negative points"
  | SeatEmpty => "Cannot transfer points - players not found"
  | NotInSummaryPhase => "Cannot transfer points - game not in summary state"
  | NotAuthorized => "You can only transfer your own points"
  end.

(** The occupant of a seat, as [rooms[roomId]?.player] reads it. *)
Definition occupant (s : State) (roomId : string) : option string :=
  seat s roomId ≫= player.

(** A seat without an occupant, as [!rooms[roomId]?.player] tests it: no
    such seat, occupant [null], or the empty string (which no socket id
    is). *)
Definition unoccupied (s : State) (roomId : string) : Prop :=
  falsy (occupant s roomId) = true.

(** The preconditions of a transfer that a request violates. *)
Inductive violates (s : State) (sid fromRoomId toRoomId : string)
    (amount : Number.number) : TransferError -> Prop :=
  | violates_amount :
      Number.le amount Number.zero = true ->
      violates s sid fromRoomId toRoomId amount InvalidAmount
  | violates_occupied :
      unoccupied s fromRoomId \/ unoccupied s toRoomId ->
      violates s sid fromRoomId toRoomId amount SeatEmpty
  | violates_phase :
      ~ seatIn SSummary s fromRoomId \/ ~ seatIn SSummary s toRoomId ->
      violates s sid fromRoomId toRoomId amount NotInSummaryPhase
  | violates_owner :
      occupant s fromRoomId <> Some sid ->
      violates s sid fromRoomId toRoomId amount NotAuthorized.

(** The guard of [checkAndStartGame]. *)
Definition startCondition (s : State) : Prop :=
  1 <= length (readyRooms s) /\ 2 <= length (roomsWithPlayers s).

(** The Start transition fires: [checkAndStartGame] enters its branch, the
    one that deals, moves seats to [playing] and broadcasts. *)
Definition startFires (env : Env) (s : State) : Prop :=
  (exec (checkAndStartGame env) s).2 <> [].

(** The guard of [checkAllPlayersConfirmed]. *)
Definition summarizeCondition (s : State) : Prop :=
  (forall e, e ∈ occupiedIn SPlaying s -> isConfirmed s e.2 = true) /\
  2 <= length (occupiedIn SPlaying s).

(** The same guard, as the code computes it. *)
Definition summarizeGuard (s : State) : bool :=
  forallb (fun e => isConfirmed s e.2) (occupiedIn SPlaying s)
    && bool_decide (2 <= length (occupiedIn SPlaying s)).

(** The Summarize transition fires: [checkAllPlayersConfirmed] enters its
    branch, the one that emits [cardsSummary] and moves seats to
    [summary]. *)
Definition summarizeFires (s : State) : Prop :=
  (exec checkAllPlayersConfirmed s).2 <> [].

Definition roomIds : list string := ["room-1"; "room-2"; "room-3"; "room-4"].

(** A seat is empty exactly when it has no occupant, and no occupant is the
    empty string. *)
Definition seatConsistent (r : GameRoom) : Prop :=
  (player r = None <-> status r = SEmpty) /\ player r <> Some "".

Record consistent (s : State) : Prop := mkConsistent {
  consistent_keys : (rooms s).*1 = roomIds;
  consistent_seats : forall k r, seat s k = Some r -> seatConsistent r;
  consistent_points : forall k, k ∈ roomIds -> is_Some (playerPoints s !! k)
}.

(** The guard of [checkAllPlayersReadyForNextGame]. *)
Definition nextRoundCondition (s : State) : Prop :=
  2 <= length (occupiedIn SSummary s) /\
  (forall e, e ∈ occupiedIn SSummary s -> isReadyForNext s e.2 = true).

(** The same guard, as the code computes it. *)
Definition nextRoundGuard (s : State) : bool :=
  bool_decide (2 <= length (occupiedIn SSummary s))
    && forallb (fun e => isReadyForNext s e.2) (occupiedIn SSummary s).

(** The registries after the Next-round transition has re-armed the seats
    and cleared the hands and the flags, before the Start condition is
    evaluated again. *)
Definition rearmed (s : State) : State :=
  set_readyForNextGame
    (fun m => foldl (fun m k => <[k := false]> m) m (map_to_list m).*1)
    (set_playedCards (fun _ => [])
       (set_rooms
          (fun rs => foldl (fun o k => updateKey k rearmRoom o) rs
                       (occupiedIn SSummary s).*1) s)).

(** The registries after an accepted transfer. *)
Definition transferred (env : Env) (fromRoomId toRoomId : string)
    (amount : Number.number) (s : State) : State :=
  set_transactions
    (fun txs => txs ++ [mkPointTransaction fromRoomId toRoomId amount (now env)])
    (set_playerPoints
       (fun m => alter (fun v => Number.add v amount) toRoomId
                   (alter (fun v => Number.sub v amount) fromRoomId m)) s).

(** ** What a step shows *)

(** The names of the outbound events. *)
Inductive Kind :=
  | KRoomsUpdate | KPointsUpdate | KTransactionsUpdate | KJoinedRoom
  | KGameStart | KCardsSummary | KError.

Definition kindOf (m : Message) : Kind :=
  match m with
  | roomsUpdate _ => KRoomsUpdate
  | pointsUpdate _ => KPointsUpdate
  | transactionsUpdate _ => KTransactionsUpdate
  | joinedRoom _ => KJoinedRoom
  | gameStart _ _ _ _ => KGameStart
  | cardsSummary _ => KCardsSummary
  | error _ => KError
  end.

(** An event of that name is among the emissions. *)
Definition emits (k : Kind) (out : list Emission) : Prop :=
  exists e, e ∈ out /\ kindOf (message e) = k.

(** The outbound events that the handler of an inbound event can emit. *)
Definition outboundOf (ev : Event) : list Kind :=
  match ev with
  | Connection => [KRoomsUpdate; KPointsUpdate; KTransactionsUpdate]
  | JoinRoom _ => [KError; KRoomsUpdate; KPointsUpdate; KJoinedRoom]
  | ToggleReady _ => [KRoomsUpdate; KGameStart; KPointsUpdate]
  | ConfirmCards _ _ _ => [KCardsSummary; KRoomsUpdate]
  | ReadyForNextGame _ => [KRoomsUpdate; KGameStart; KPointsUpdate]
  | TransferPoints _ _ _ => [KError; KPointsUpdate; KTransactionsUpdate]
  | Disconnect => [KRoomsUpdate]
  end.

(** Some seat is in a status after the step in which it was not before. *)
Definition becomes (st : Status) (s s' : State) : Prop :=
  exists k, seatIn st s' k /\ ~ seatIn st s k.

(** No seat is in a status after the step in which it was not before. *)
Definition noneBecomes (st : Status) (s s' : State) : Prop :=
  forall k, seatIn st s' k -> seatIn st s k.

(** A step shows the Start transition: a seat has moved to [playing], or a
    [gameStart] is emitted. *)
Definition startObserved (s : State) (r : State * list Emission) : Prop :=
  becomes SPlaying s r.1 \/ emits KGameStart r.2.

(** A step shows the Summarize transition: a seat has moved to [summary],
    or a [cardsSummary] is emitted. *)
Definition summarizeObserved (s : State) (r : State * list Emission) : Prop :=
  becomes SSummary s r.1 \/ emits KCardsSummary r.2.

(** An event name that is not in a list of names. *)
Ltac absurd_kind H :=
  repeat (apply elem_of_cons in H as [H|H]; [discriminate H|]);
  by apply elem_of_nil in H.

(** ** Scenarios *)

(** Two sockets, a shuffle that always draws index 0, every socket
    connected. *)
Definition demoEnv : Env := mkEnv (fun _ => 0) (fun _ => true) 1000%Z.

Definition lobbyEvents : list (Env * string * Event) :=
  [(demoEnv, "alice", JoinRoom "room-1"); (demoEnv, "bob", JoinRoom "room-2")].

(** alice and bob are seated, nobody is ready. *)
Definition lobby : State := run lobbyEvents initial.

(** alice alone has joined and is ready. *)
Definition loneReady : State :=
  run [(demoEnv, "alice", JoinRoom "room-1");
       (demoEnv, "alice", ToggleReady "room-1")] initial.

(** alice has toggled ready: the game has started for both. *)
Definition playingRound : State :=
  run [(demoEnv, "alice", ToggleReady "room-1")] lobby.

(** A hand of 3, 5 and 5 cards. *)
Definition fullHand : Positions :=
  mkPositions
    [mkCard hearts "2"; mkCard hearts "3"; mkCard hearts "4"]
    [mkCard clubs "2"; mkCard clubs "3"; mkCard clubs "4"; mkCard clubs "5";
     mkCard clubs "6"]
    [mkCard spades "2"; mkCard spades "3"; mkCard spades "4";
     mkCard spades "5"; mkCard spades "6"].

(** A hand of a single card. *)
Definition shortHand : Positions := mkPositions [mkCard hearts "2"] [] [].

(** alice has confirmed, bob has not yet. *)
Definition aliceConfirmed : State :=
  run [(demoEnv, "alice", ConfirmCards "room-1" fullHand None)] playingRound.

(** Both have confirmed: the round is in its summary phase. *)
Definition summaryRound : State :=
  run [(demoEnv, "alice", ConfirmCards "room-1" fullHand None);
       (demoEnv, "bob", ConfirmCards "room-2" fullHand None)] playingRound.

(** The registries in which [toggleReady] of alice evaluates the Start
    condition. *)
Definition armedLobby : State :=
  set_rooms (updateKey "room-1" toggleRoom) lobby.

(** The hands of alice and bob, both confirmed. *)
Definition bothConfirmed : list (string * PlayedCard) :=
  [("alice", mkPlayedCard "alice" "room-1" fullHand None true);
   ("bob", mkPlayedCard "bob" "room-2" fullHand None true)].

(** alice and bob are both ready for the next game. *)
Definition bothReadyForNext : gmap string bool :=
  <["bob" := true]> (<["alice" := true]> ∅).

(** ** Further vocabulary: the deal *)

(** The cards of a deal in the order in which they leave the deck: the hand
    of each listed player, then the community cards. *)
Definition dealtInOrder {A} (d : GameCards A) (ps : list string) : list A :=
  (ps ≫= fun p => default [] (players d !! p)) ++ communityCards d.

(** ** Further vocabulary: the registries *)

(** A seat as the handlers leave it: capacity 1, flagged ready exactly in
    status [ready], without occupant exactly in status [empty], never
    occupied by the empty id. *)
Definition seatWellFormed (r : GameRoom) : Prop :=
  capacity r = ROOM_CAPACITY /\
  (isReady r = true <-> status r = SReady) /\
  (player r = None <-> status r = SEmpty) /\
  player r <> Some "".

Definition seatsWellFormed (s : State) : Prop :=
  forall k r, seat s k = Some r -> seatWellFormed r.

(** No socket occupies two seats. *)
Definition oneSeatEach (s : State) : Prop :=
  forall k1 k2 p, occupant s k1 = Some p -> occupant s k2 = Some p -> k1 = k2.

(** The balance of seat [k] after the transfer [tx], from its balance [b]
    before: the debit of the paying seat comes first, then the credit of
    the receiving seat, each with the rounding of the number arithmetic. *)
Definition settle (k : string) (b : Number.number) (tx : PointTransaction)
    : Number.number :=
  let b := if decide (from tx = k) then Number.sub b (amount tx) else b in
  if decide (to tx = k) then Number.add b (amount tx) else b.

(** The balance of seat [k] after the transfers of a log, in the order of
    the log, from the balance 0. *)
Definition replay (k : string) (txs : list PointTransaction) : Number.number :=
  foldl (settle k) Number.zero txs.

(** The amount of a transaction is an integer. *)
Definition integerAmount (tx : PointTransaction) : Prop :=
  amount tx = Number.ofZ (Number.toZ (amount tx)).

(** What a transaction of an integer amount adds to the balance of seat
    [k], in exact arithmetic: its amount if [k] receives, less its amount
    if [k] pays. *)
Definition delta (k : string) (tx : PointTransaction) : Z :=
  ((if decide (to tx = k) then Number.toZ (amount tx) else 0)
   - (if decide (from tx = k) then Number.toZ (amount tx) else 0))%Z.

(** The net amount that a log of transactions moves to seat [k], in exact
    arithmetic. *)
Definition net (k : string) (txs : list PointTransaction) : Z :=
  foldr (fun tx acc => (delta k tx + acc)%Z) 0%Z txs.

(** The total of the amounts of a log. *)
Definition volume (txs : list PointTransaction) : Z :=
  foldr (fun tx acc => (Z.abs (Number.toZ (amount tx)) + acc)%Z) 0%Z txs.

(** A transaction of a positive amount between two of the four seats. *)
Definition validTransaction (tx : PointTransaction) : Prop :=
  Number.lt Number.zero (amount tx) = true /\
  from tx ∈ roomIds /\ to tx ∈ roomIds.

(** The balances are those of the four seats and are what the log gives
    when it is replayed. *)
Record ledgerBalanced (s : State) : Prop := mkLedgerBalanced {
  ledger_net : forall k, k ∈ roomIds ->
    playerPoints s !! k = Some (replay k (transactions s));
  ledger_dom : forall k, k ∉ roomIds -> playerPoints s !! k = None;
  ledger_valid : Forall validTransaction (transactions s)
}.

(** An entry of [playedCards]: filed under the id of its sender, confirmed,
    for one of the four seats. *)
Definition handValid (e : string * PlayedCard) : Prop :=
  playerId e.2 = e.1 /\ confirmed e.2 = true /\ roomId e.2 ∈ roomIds /\
  e.1 <> "".

Definition handsValid (s : State) : Prop :=
  NoDup (playedCards s).*1 /\ Forall handValid (playedCards s).

(** alice has paid 50 points to bob during the summary. *)
Definition settledRound : State :=
  run [(demoEnv, "alice", TransferPoints "room-1" "room-2" (Number.ofZ 50))]
      summaryRound.

(** alice has paid 2^53 = 9007199254740992 points to bob during the
    summary: her balance is -2^53, the balance of bob is 2^53. *)
Definition overdrawnRound : State :=
  run [(demoEnv, "alice",
        TransferPoints "room-1" "room-2" (Number.ofZ (2 ^ 53)))]
      summaryRound.

(** ** Further vocabulary: numbers *)

(** [m] shifted left by [n] bits. *)
Definition shln (m : positive) (n : nat) : positive := Nat.iter n xO m.

(** The mantissa and the exponent of the binary64 value of a positive
    integer below 2^53: the integer shifted left to 53 bits. *)
Definition mantissa (r : positive) : positive :=
  shln r (53 - Pos.to_nat (digits2_pos r)).

Definition exponent (r : positive) : Z := (Zpos (digits2_pos r) - 53)%Z.

(** The magnitude of a non-zero integer. *)
Definition magnitude (z : Z) : positive := Z.to_pos (Z.abs z).

(** The [gameStart] that the callback of [checkAndStartGame] sends for one
    seat: to its occupant, if that socket is still connected. *)
Definition startEmission (env : Env) (ps : list string) (gc : GameCards Card)
    (e : string * GameRoom) : list Emission :=
  match player e.2 with
  | Some p =>
      if connected env p then
        [Emit (ToSocket p)
           (gameStart (players gc !! p) (communityCards gc) ps e.1)]
      else []
  | None => []
  end.

(** The rule by which the server addresses the events it emits while it
    handles the event [ev] of socket [sid]. *)
Definition addressed (sid : string) (ev : Event) (e : Emission) : Prop :=
  kindOf (message e) ∈ outboundOf ev /\
  match message e with
  | gameStart _ _ _ _ => exists p, target e = ToSocket p
  | joinedRoom k => target e = ToSocket sid /\ ev = JoinRoom k
  | error _ => target e = ToSocket sid
  | cardsSummary _ => target e = ToAll
  | roomsUpdate _ | pointsUpdate _ | transactionsUpdate _ =>
      match ev with
      | Connection => target e = ToSocket sid
      | _ => target e = ToAll
      end
  end.

(** The moves of a seat in one step, from the status before to the status
    after, with the event of socket [sid] that causes them. *)
Inductive seatMove (s : State) (sid : string) (ev : Event) (k : string)
    : Status -> Status -> Prop :=
  | move_stay st : seatMove s sid ev k st st
  | move_leave st :
      occupant s k = Some sid ->
      (ev = Disconnect \/ exists roomId, ev = JoinRoom roomId /\ roomId <> k) ->
      seatMove s sid ev k st SEmpty
  | move_join : ev = JoinRoom k -> seatMove s sid ev k SEmpty SWaiting
  | move_ready st :
      ev = ToggleReady k -> occupant s k = Some sid -> st <> SReady ->
      length (roomsWithPlayers s) < 2 ->
      seatMove s sid ev k st SReady
  | move_unready :
      ev = ToggleReady k -> occupant s k = Some sid ->
      seatMove s sid ev k SReady SWaiting
  | move_start st :
      is_Some (occupant s k) -> 2 <= length (roomsWithPlayers s) ->
      (exists roomId, ev = ToggleReady roomId \/ ev = ReadyForNextGame roomId) ->
      seatMove s sid ev k st SPlaying
  | move_summarize :
      (exists roomId cs cc, ev = ConfirmCards roomId cs cc) ->
      seatMove s sid ev k SPlaying SSummary.

(** The payloads of the three events that carry a registry. *)
Definition roomsOf (m : Message) : option (list (string * GameRoom)) :=
  match m with roomsUpdate rs => Some rs | _ => None end.

Definition pointsOf (m : Message) : option (gmap string Number.number) :=
  match m with pointsUpdate points => Some points | _ => None end.

Definition transactionsOf (m : Message) : option (list PointTransaction) :=
  match m with transactionsUpdate txs => Some txs | _ => None end.

(** The payload of the last event of one name that a step sends to
    everybody. *)
Definition lastBroadcast {A} (proj : Message -> option A) (out : list Emission)
    : option A :=
  last (omap (fun e => match target e with
                       | ToAll => proj (message e)
                       | ToSocket _ => None
                       end) out).

(** Everybody is told of a registry: the last broadcast carries its value
    after the step, or nothing is broadcast and it has not changed. *)
Definition told {A} (proj : Message -> option A) (before after : A)
    (out : list Emission) : Prop :=
  lastBroadcast proj out = Some after \/
  (lastBroadcast proj out = None /\ after = before).

(** ** Further vocabulary: the client *)

Section ClientVocabulary.
Import Client.

(** The 13 slots of the board in reading order. *)
Definition allSlots : list (nat * nat) :=
  [(0, 0); (0, 1); (0, 2);
   (1, 0); (1, 1); (1, 2); (1, 3); (1, 4);
   (2, 0); (2, 1); (2, 2); (2, 3); (2, 4)].

(** The object [positions] has the 13 slot keys and no other. *)
Definition wellKeyed (positions : list (string * option PositionedCard))
    : Prop :=
  positions.*1 = emptyPositions.*1.

(** The slot is free. *)
Definition freeSlot (positions : list (string * option PositionedCard))
    (p : nat * nat) : Prop :=
  cardAt positions (slotKey p.1 p.2) = None.

(** The card that fills a slot, and what is sent for it. *)
Definition sentFor (positions : list (string * option PositionedCard))
    (p : nat * nat) (card : Card) : Prop :=
  exists c, cardAt positions (slotKey p.1 p.2) = Some c /\ card = faceOf c.

(** The hand dealt to alice, on her board. *)
Definition demoBoard : Board :=
  receiveCards
    (default [] (players (dealCards (rand demoEnv) ["alice"; "bob"]) !! "alice")).

(** The board after alice has clicked each of her 13 cards once. *)
Definition fullBoard : Board :=
  foldl (fun b c => handleCardClick c b) demoBoard (boardCards demoBoard).

(** The board after alice has clicked her first card. *)
Definition clickedOnce : Board :=
  handleCardClick (mkPositionedCard hearts "3" "hearts-3-0" false None) demoBoard.


End ClientVocabulary.

(** * Properties *)

(** ** Numbers: integers within the safe range are added and subtracted
    exactly *)

Lemma lt_zero_not_le n :
  Number.lt Number.zero n = true -> Number.le n Number.zero = false.
Proof. by destruct n as [[]|[]| |[] m e]. Qed.

Lemma not_le_lt_zero n :
  Number.le n Number.zero = false -> Number.isNaN n = false ->
  Number.lt Number.zero n = true.
Proof. by destruct n as [[]|[]| |[] m e]. Qed.

Lemma shln_S m n : shln m (S n) = xO (shln m n).
Proof. done. Qed.

Lemma shln_add m i j : shln (shln m i) j = shln m (i + j).
Proof.
  unfold shln. rewrite Nat.add_comm. by rewrite Nat.iter_add.
Qed.

Lemma iter_xO_shln m p : Pos.iter xO m p = shln m (Pos.to_nat p).
Proof. apply Pos2Nat.inj_iter. Qed.

Lemma digits_shln m n :
  Zpos (digits2_pos (shln m n)) = (Zpos (digits2_pos m) + Z.of_nat n)%Z.
Proof.
  induction n as [|n IH]; [simpl; lia|].
  rewrite shln_S. cbn [digits2_pos]. rewrite Pos2Z.inj_succ, IH. lia.
Qed.

Lemma Zpos_shln m n : Zpos (shln m n) = (Zpos m * 2 ^ Z.of_nat n)%Z.
Proof.
  induction n as [|n IH]; [simpl; lia|].
  rewrite shln_S, Pos2Z.inj_xO, IH, Nat2Z.inj_succ, Z.pow_succ_r by lia. lia.
Qed.

Lemma iter_pos_nat {A} (f : A -> A) p x :
  SpecFloat.iter_pos f p x = Nat.iter (Pos.to_nat p) f x.
Proof.
  transitivity (Pos.iter f x p); [|apply Pos2Nat.inj_iter].
  revert x. induction p as [p IH|p IH|]; intros x; simpl;
    [|by rewrite !IH|done].
  by rewrite !IH, !Pos.iter_swap.
Qed.

Lemma shr_shln m i j :
  Nat.iter j shr_1 (Build_shr_record (Zpos (shln m (i + j))) false false)
    = Build_shr_record (Zpos (shln m i)) false false.
Proof.
  induction j as [|j IH]; [by rewrite Nat.add_0_r|].
  rewrite Nat.iter_succ_r. replace (i + S j) with (S (i + j)) by lia.
  rewrite shln_S. simpl shr_1. exact IH.
Qed.


Lemma shr_exact m (j : nat) e :
  shr (Build_shr_record (Zpos (shln m j)) false false) e (Z.of_nat j)
    = (Build_shr_record (Zpos m) false false, (e + Z.of_nat j)%Z).
Proof.
  destruct j as [|j]; [simpl; f_equal; lia|].
  unfold shr. rewrite Nat2Z.inj_succ, <- Zpos_P_of_succ_nat.
  rewrite iter_pos_nat, SuccNat2Pos.id_succ.
  pose proof (shr_shln m 0 (S j)) as H. simpl in H |- *. rewrite H. done.
Qed.

Lemma binary_round_aux_shifted s m e (j : nat) :
  Zpos (digits2_pos m) = 53%Z -> (-1074 <= e <= 971)%Z ->
  binary_round_aux 53 1024 s (Zpos (shln m j)) (e - Z.of_nat j) loc_Exact
    = S754_finite s m e.
Proof.
  intros Hd He. unfold binary_round_aux, shr_fexp.
  cbn [shr_record_of_loc Zdigits2]. rewrite digits_shln, Hd.
  assert (fexp 53 1024 (53 + Z.of_nat j + (e - Z.of_nat j)) - (e - Z.of_nat j)
          = Z.of_nat j)%Z as -> by (unfold fexp, emin; lia).
  rewrite shr_exact. cbn [shr_m loc_of_shr_record round_nearest_even Zdigits2].
  rewrite Hd.
  assert (fexp 53 1024 (53 + (e - Z.of_nat j + Z.of_nat j))
            - (e - Z.of_nat j + Z.of_nat j) = 0)%Z as ->
    by (unfold fexp, emin; lia).
  cbn [shr shr_m].
  replace (e - Z.of_nat j + Z.of_nat j)%Z with e by lia.
  by rewrite Zle_imp_le_bool by lia.
Qed.


Lemma digits_mantissa r :
  (Zpos (digits2_pos r) <= 53)%Z -> Zpos (digits2_pos (mantissa r)) = 53%Z.
Proof. intros Hr. unfold mantissa. rewrite digits_shln. lia. Qed.

Lemma binary_round_shifted s r (k : nat) :
  (Zpos (digits2_pos r) <= 53)%Z ->
  binary_round 53 1024 s (shln r k) (- Z.of_nat k)
    = S754_finite s (mantissa r) (exponent r).
Proof.
  intros Hr. unfold binary_round. rewrite digits_shln.
  assert (fexp 53 1024 (Zpos (digits2_pos r) + Z.of_nat k + - Z.of_nat k)
          = exponent r) as -> by (unfold fexp, emin, exponent; lia).
  assert (forall j, 53 - Pos.to_nat (digits2_pos r) + j = k ->
            binary_round_aux 53 1024 s (Zpos (shln r k)) (- Z.of_nat k)
                             loc_Exact
              = S754_finite s (mantissa r) (exponent r)) as Hshifted.
  { intros j Hj.
    replace (- Z.of_nat k)%Z with (exponent r - Z.of_nat j)%Z
      by (unfold exponent; lia).
    rewrite <- Hj, <- shln_add. fold (mantissa r).
    apply binary_round_aux_shifted; [by apply digits_mantissa|].
    unfold exponent. lia. }
  unfold shl_align.
  destruct (exponent r - - Z.of_nat k)%Z as [|p|p] eqn:Hp.
  - apply (Hshifted 0). unfold exponent in Hp. lia.
  - apply (Hshifted (Pos.to_nat p)). unfold exponent in Hp. lia.
  - rewrite iter_xO_shln, shln_add.
    replace (k + Pos.to_nat p) with (53 - Pos.to_nat (digits2_pos r) + 0)
      by (unfold exponent in Hp; lia).
    rewrite <- shln_add. fold (mantissa r).
    replace (exponent r) with (exponent r - Z.of_nat 0)%Z at 1 by lia.
    apply binary_round_aux_shifted; [by apply digits_mantissa|].
    unfold exponent. lia.
Qed.


Lemma digits_lower r : (2 ^ (Zpos (digits2_pos r) - 1) <= Zpos r)%Z.
Proof.
  induction r as [r IH|r IH|]; cbn [digits2_pos]; [| |simpl; lia];
    rewrite Pos2Z.inj_succ;
    replace (Z.succ (Zpos (digits2_pos r)) - 1)%Z
      with (Z.succ (Zpos (digits2_pos r) - 1)) by lia;
    rewrite Z.pow_succ_r by lia; lia.
Qed.

Lemma safe_digits r :
  (Zpos r <= Number.MAX_SAFE_INTEGER)%Z -> (Zpos (digits2_pos r) <= 53)%Z.
Proof.
  intros Hr. destruct (decide (Zpos (digits2_pos r) <= 53)%Z) as [|Hd]; [done|].
  pose proof (digits_lower r) as Hl.
  assert (2 ^ 53 <= 2 ^ (Zpos (digits2_pos r) - 1))%Z
    by (apply Z.pow_le_mono_r; lia).
  unfold Number.MAX_SAFE_INTEGER in Hr. lia.
Qed.

Lemma sign_magnitude z :
  z <> 0%Z -> cond_Zopp (z <? 0)%Z (Zpos (magnitude z)) = z.
Proof. intros Hz. unfold magnitude. destruct z; simpl; try done. Qed.

Lemma safe_magnitude z :
  z <> 0%Z -> Number.isSafeInteger z ->
  (Zpos (digits2_pos (magnitude z)) <= 53)%Z.
Proof.
  intros Hz [Hl Hu]. apply safe_digits. unfold magnitude.
  rewrite Z2Pos.id by lia. lia.
Qed.

Lemma binary_normalize_shifted z (k : nat) :
  z <> 0%Z -> Number.isSafeInteger z ->
  binary_normalize 53 1024 (z * 2 ^ Z.of_nat k) (- Z.of_nat k) false
    = S754_finite (z <? 0)%Z (mantissa (magnitude z)) (exponent (magnitude z)).
Proof.
  intros Hz Hs. pose proof (safe_magnitude z Hz Hs) as Hd.
  destruct z as [|r|r]; [done|..]; unfold magnitude in *; simpl Z.abs in *;
    simpl Z.to_pos in *; simpl Z.ltb.
  - rewrite <- Zpos_shln. simpl binary_normalize. by apply binary_round_shifted.
  - replace (Z.neg r * 2 ^ Z.of_nat k)%Z with (Z.neg (shln r k))
      by (rewrite <- !Pos2Z.opp_pos, Zpos_shln; lia).
    simpl binary_normalize. by apply binary_round_shifted.
Qed.

Lemma ofZ_nonzero z :
  z <> 0%Z -> Number.isSafeInteger z ->
  Number.ofZ z
    = S754_finite (z <? 0)%Z (mantissa (magnitude z)) (exponent (magnitude z)).
Proof.
  intros Hz Hs. rewrite <- (binary_normalize_shifted z 0 Hz Hs).
  unfold Number.ofZ, Number.prec, Number.emax. f_equal. simpl. lia.
Qed.

Lemma ofZ_shifted z (k : nat) :
  Number.isSafeInteger z ->
  binary_normalize 53 1024 (z * 2 ^ Z.of_nat k) (- Z.of_nat k) false
    = Number.ofZ z.
Proof.
  intros Hs. destruct (decide (z = 0%Z)) as [->|Hz]; [done|].
  by rewrite binary_normalize_shifted, ofZ_nonzero.
Qed.

Lemma shl_align_mantissa r (ez : Z) :
  (Zpos (digits2_pos r) <= 53)%Z -> (ez <= exponent r)%Z ->
  Zpos (fst (shl_align (mantissa r) (exponent r) ez))
    = (Zpos r * 2 ^ (- ez))%Z.
Proof.
  intros Hr He. unfold shl_align.
  assert (Zpos (mantissa r) = Zpos r * 2 ^ (- exponent r))%Z as Hm.
  { unfold mantissa, exponent. rewrite Zpos_shln. do 2 f_equal. lia. }
  destruct (ez - exponent r)%Z as [|p|p] eqn:Hp; cbn [fst].
  - rewrite Hm. do 2 f_equal. lia.
  - lia.
  - rewrite iter_xO_shln, Zpos_shln, Hm, <- Z.mul_assoc, <- Z.pow_add_r.
    + do 2 f_equal. lia.
    + unfold exponent. lia.
    + lia.
Qed.

(** Additions and subtractions of integers are exact as long as the
    operands and the result are safe integers. *)
Lemma finite_exact (op : Z -> Z -> Z) zx zy :
  zx <> 0%Z -> zy <> 0%Z ->
  Number.isSafeInteger zx -> Number.isSafeInteger zy ->
  Number.isSafeInteger (op zx zy) ->
  (forall a b c, op (a * c) (b * c) = op a b * c)%Z ->
  let ez := Z.min (exponent (magnitude zx)) (exponent (magnitude zy)) in
  binary_normalize 53 1024
    (op (cond_Zopp (zx <? 0)%Z
           (Zpos (fst (shl_align (mantissa (magnitude zx))
                                 (exponent (magnitude zx)) ez))))
        (cond_Zopp (zy <? 0)%Z
           (Zpos (fst (shl_align (mantissa (magnitude zy))
                                 (exponent (magnitude zy)) ez)))))
    ez false
  = Number.ofZ (op zx zy).
Proof.
  intros Hzx Hzy Hsx Hsy Hs Hop ez.
  pose proof (safe_magnitude zx Hzx Hsx) as Hdx.
  pose proof (safe_magnitude zy Hzy Hsy) as Hdy.
  rewrite !shl_align_mantissa by (try done; unfold ez; lia).
  assert (forall b z c, cond_Zopp b (z * c) = cond_Zopp b z * c)%Z as Hc
    by (intros [] ??; simpl; lia).
  rewrite !Hc, !sign_magnitude, Hop by done.
  assert (ez <= 0)%Z as Hez by (unfold ez, exponent; lia).
  rewrite <- (ofZ_shifted (op zx zy) (Z.to_nat (- ez))) by done.
  rewrite Z2Nat.id by lia. f_equal. lia.
Qed.

Lemma add_exact zx zy :
  Number.isSafeInteger zx -> Number.isSafeInteger zy ->
  Number.isSafeInteger (zx + zy) ->
  Number.add (Number.ofZ zx) (Number.ofZ zy) = Number.ofZ (zx + zy).
Proof.
  intros Hsx Hsy Hs.
  destruct (decide (zx = 0%Z)) as [->|Hzx].
  { destruct (decide (zy = 0%Z)) as [->|Hzy]; [done|].
    rewrite Z.add_0_l, (ofZ_nonzero zy) by done. reflexivity. }
  destruct (decide (zy = 0%Z)) as [->|Hzy].
  { rewrite Z.add_0_r, (ofZ_nonzero zx) by done. reflexivity. }
  rewrite (ofZ_nonzero zx), (ofZ_nonzero zy) by done.
  apply (finite_exact Z.add); try done. intros; lia.
Qed.

Lemma sub_exact zx zy :
  Number.isSafeInteger zx -> Number.isSafeInteger zy ->
  Number.isSafeInteger (zx - zy) ->
  Number.sub (Number.ofZ zx) (Number.ofZ zy) = Number.ofZ (zx - zy).
Proof.
  intros Hsx Hsy Hs.
  destruct (decide (zy = 0%Z)) as [->|Hzy].
  { rewrite Z.sub_0_r. destruct (decide (zx = 0%Z)) as [->|Hzx]; [done|].
    rewrite (ofZ_nonzero zx) by done. reflexivity. }
  destruct (decide (zx = 0%Z)) as [->|Hzx].
  { rewrite Z.sub_0_l, (ofZ_nonzero zy), (ofZ_nonzero (- zy)) by
      (try done; try lia; unfold Number.isSafeInteger in *; lia).
    cbn. unfold magnitude. rewrite Z.abs_opp. f_equal.
    destruct zy; done. }
  rewrite (ofZ_nonzero zx), (ofZ_nonzero zy) by done.
  apply (finite_exact Z.sub); try done. intros; lia.
Qed.


(** ** Arrays: swap, shuffle, slice *)

Example createDeck_size : length createDeck = 56.
Proof. reflexivity. Qed.

Section ArrayFacts.
Context {A : Type}.
Implicit Types (a deck : list A) (x : A).

Lemma swap_length i j a : length (swap i j a) = length a.
Proof.
  unfold swap. destruct (a !! i), (a !! j); auto.
  by rewrite !length_insert.
Qed.

Lemma swap_lookup i j a k :
  i < length a -> j < length a ->
  swap i j a !! k =
    a !! (if decide (k = i) then j else if decide (k = j) then i else k).
Proof.
  intros Hi Hj. unfold swap.
  destruct (lookup_lt_is_Some_2 a i Hi) as [ai Hai].
  destruct (lookup_lt_is_Some_2 a j Hj) as [aj Haj].
  rewrite Hai, Haj.
  rewrite list_lookup_insert, length_insert.
  destruct (decide (k = j)) as [->|Hkj].
  - destruct (decide (j = i)) as [->|]; rewrite decide_True by auto.
    + congruence.
    + congruence.
  - rewrite decide_False by (intros [? _]; congruence).
    rewrite list_lookup_insert.
    destruct (decide (k = i)) as [->|].
    + rewrite decide_True by auto. congruence.
    + rewrite decide_False by (intros [? _]; congruence). done.
Qed.

Lemma swap_Permutation i j a : swap i j a ≡ₚ a.
Proof.
  destruct (decide (i < length a)) as [Hi|Hi]; cycle 1.
  { unfold swap. rewrite (lookup_ge_None_2 a i) by lia. done. }
  destruct (decide (j < length a)) as [Hj|Hj]; cycle 1.
  { unfold swap. rewrite (lookup_ge_None_2 a j) by lia.
    by destruct (a !! i). }
  apply Permutation_inj. split; [apply swap_length|].
  exists (fun k => if decide (k = i) then j else if decide (k = j) then i else k).
  split.
  - intros k1 k2. repeat case_decide; congruence.
  - intros k. by apply swap_lookup.
Qed.

Lemma shuffleLoop_Permutation rand n a : shuffleLoop rand n a ≡ₚ a.
Proof.
  revert a. induction n as [|n IH]; intros a; simpl; [done|].
  rewrite IH. apply swap_Permutation.
Qed.

Lemma shuffleDeck_Permutation rand deck : shuffleDeck rand deck ≡ₚ deck.
Proof. apply shuffleLoop_Permutation. Qed.

Lemma slice_length start end_ a :
  end_ <= length a -> length (slice start end_ a) = end_ - start.
Proof. intros. unfold slice. rewrite length_take, length_drop. lia. Qed.

Lemma elem_of_slice start end_ a x :
  x ∈ slice start end_ a <-> exists k, start <= k < end_ /\ a !! k = Some x.
Proof.
  unfold slice. rewrite list_elem_of_lookup. split.
  - intros [i Hi]. apply lookup_take_Some in Hi as [Hi ?].
    rewrite lookup_drop in Hi. exists (start + i). split; [lia|done].
  - intros (k & Hk & Hx). exists (k - start).
    apply lookup_take_Some. split; [|lia].
    rewrite lookup_drop. by replace (start + (k - start)) with k by lia.
Qed.

Lemma slice_sublist start end_ a : slice start end_ a `sublist_of` a.
Proof.
  unfold slice. etrans; [apply sublist_take|apply sublist_drop].
Qed.

Lemma slice_NoDup start end_ a : NoDup a -> NoDup (slice start end_ a).
Proof. intros H. eapply sublist_NoDup; [exact H|apply slice_sublist]. Qed.

Lemma slice_disjoint s1 e1 s2 e2 a x :
  NoDup a -> e1 <= s2 -> x ∈ slice s1 e1 a -> x ∈ slice s2 e2 a -> False.
Proof.
  intros Hnd Hle (k1 & Hk1 & H1)%elem_of_slice (k2 & Hk2 & H2)%elem_of_slice.
  pose proof (NoDup_lookup _ _ _ _ Hnd H1 H2). lia.
Qed.
End ArrayFacts.

(** ** The deal *)

Section DealFacts.
Context {A : Type}.
Implicit Types (deck : list A) (acc : gmap string (list A)).

Lemma dealLoop_lookup deck index ps acc p h :
  dealLoop deck index ps acc !! p = Some h ->
  (acc !! p = Some h /\ p ∉ ps) \/
  exists i, ps !! i = Some p /\
            h = slice ((index + i) * 13) ((index + i + 1) * 13) deck.
Proof.
  revert index acc. induction ps as [|q ps IH]; intros index acc; simpl.
  - intros H. left. split; [done|]. apply not_elem_of_nil.
  - intros H. apply IH in H as [[H Hn]|(i & Hi & ->)].
    + destruct (decide (q = p)) as [->|Hqp].
      * rewrite lookup_insert_eq in H. injection H as <-.
        right. exists 0. split; [done|].
        by replace (index + 0) with index by lia.
      * rewrite lookup_insert_ne in H by done.
        left. split; [done|]. rewrite not_elem_of_cons. split; congruence.
    + right. exists (S i). split; [done|].
      by replace (index + S i) with (S index + i) by lia.
Qed.

Lemma dealLoop_is_Some deck index ps acc p :
  p ∈ ps \/ is_Some (acc !! p) -> is_Some (dealLoop deck index ps acc !! p).
Proof.
  revert index acc. induction ps as [|q ps IH]; intros index acc; simpl.
  - intros [H|H]; [by apply elem_of_nil in H|done].
  - intros H. apply IH.
    destruct (decide (q = p)) as [->|Hqp].
    + right. rewrite lookup_insert_eq. eauto.
    + rewrite lookup_insert_ne by done.
      destruct H as [H|H]; [|by right].
      apply elem_of_cons in H as [->|H]; [done|by left].
Qed.

(** The hand of a listed occupant is one of the 13-card slices of the deck. *)
Lemma dealFrom_hand deck ps p h :
  players (dealFrom deck ps) !! p = Some h ->
  exists i, ps !! i = Some p /\ h = slice (i * 13) ((i + 1) * 13) deck.
Proof.
  intros H. apply dealLoop_lookup in H as [[H _]|(i & Hi & ->)].
  - by rewrite lookup_empty in H.
  - exists i. by simpl.
Qed.
End DealFacts.

Section Naturality.
Context {A B : Type} (f : A -> B).

Lemma swap_fmap i j (a : list A) : f <$> swap i j a = swap i j (f <$> a).
Proof.
  unfold swap. rewrite !list_lookup_fmap.
  destruct (a !! i), (a !! j); simpl; try done.
  by rewrite !list_fmap_insert.
Qed.

Lemma shuffleDeck_fmap rand (a : list A) :
  f <$> shuffleDeck rand a = shuffleDeck rand (f <$> a).
Proof.
  unfold shuffleDeck. rewrite length_fmap.
  generalize (length a - 1). intros n. revert a.
  induction n as [|n IH]; intros a; simpl; [done|].
  by rewrite IH, swap_fmap.
Qed.

Lemma slice_fmap s e (a : list A) : f <$> slice s e a = slice s e (f <$> a).
Proof. unfold slice. by rewrite fmap_take, fmap_drop. Qed.

Lemma dealLoop_fmap (deck : list A) index ps acc :
  fmap (M := list) f <$> dealLoop deck index ps acc =
  dealLoop (f <$> deck) index ps (fmap (M := list) f <$> acc).
Proof.
  revert index acc. induction ps as [|p ps IH]; intros index acc; simpl; [done|].
  by rewrite IH, fmap_insert, slice_fmap.
Qed.
End Naturality.

Lemma forget_allocated {A} (deck : list A) : forget (allocated deck) = deck.
Proof. unfold forget, allocated. apply snd_zip. by rewrite length_seq. Qed.

Lemma allocated_NoDup {A} (deck : list A) : NoDup (allocated deck).
Proof.
  apply (NoDup_fmap_1 fst). unfold allocated.
  rewrite fst_zip by (by rewrite length_seq). apply NoDup_seq.
Qed.

(** The deal handed out is the deal of instances with the identities
    forgotten. *)
Lemma dealCards_instances rand ps :
  dealCards rand ps = forgetDeal (dealInstances rand ps).
Proof.
  unfold dealCards, dealInstances, forgetDeal, dealFrom, forget. simpl.
  rewrite dealLoop_fmap, slice_fmap, fmap_empty, shuffleDeck_fmap.
  fold (forget (allocated createDeck)). by rewrite forget_allocated.
Qed.

(** The deck of [createDeck]: the 52 distinct standard cards, then 4 jokers. *)
Lemma createDeck_contents :
  length createDeck = 56 /\
  createDeck =
    (suits ≫= fun s => values ≫= fun v => [mkCard s v])
      ++ replicate 4 (mkCard joker "Joker") /\
  length (suits ≫= fun s => values ≫= fun v => [mkCard s v]) = 52 /\
  NoDup (suits ≫= fun s => values ≫= fun v => [mkCard s v]).
Proof.
  split; [reflexivity|]. split; [reflexivity|]. split; [reflexivity|].
  apply (bool_decide_unpack _). vm_compute. reflexivity.
Qed.

Lemma shuffled_instances_length rand :
  length (shuffleDeck rand (allocated createDeck)) = 56.
Proof. by rewrite shuffleDeck_Permutation. Qed.

Lemma shuffled_instances_NoDup rand :
  NoDup (shuffleDeck rand (allocated createDeck)).
Proof. rewrite shuffleDeck_Permutation. apply allocated_NoDup. Qed.

Lemma shuffled_instances_elem rand x :
  x ∈ shuffleDeck rand (allocated createDeck) <-> x ∈ allocated createDeck.
Proof. by rewrite shuffleDeck_Permutation. Qed.

(** C1.  For every list of at most 4 occupant identities, [dealCards] gives
    each listed occupant a hand of exactly 13 cards and the community pool
    exactly 4 cards; as card instances (the objects pushed by [createDeck])
    no hand and no community pool holds an instance twice, the hands of any
    two occupants are disjoint, every hand is disjoint from the community
    pool, and every instance dealt is one of the deck.  The deck of
    [createDeck] has 56 instances: first the 52 standard cards, one for each
    of the 4 suits and each of the 13 values and pairwise distinct, then 4
    jokers. *)
Theorem dealCards_disjoint_hands (rand : nat -> nat) (ps : list string) :
  (forall i, rand i <= i) ->
  length ps <= 4 ->
  let d := dealInstances rand ps in
  dealCards rand ps = forgetDeal d /\
  (forall p, p ∈ ps ->
     exists h, players d !! p = Some h /\
               players (dealCards rand ps) !! p = Some (forget h) /\
               length h = 13 /\ length (forget h) = 13) /\
  (forall p h, players d !! p = Some h -> p ∈ ps) /\
  length (communityCards d) = 4 /\
  length (communityCards (dealCards rand ps)) = 4 /\
  (forall p h, players d !! p = Some h ->
     NoDup h /\
     (forall x, x ∈ h -> x ∈ allocated createDeck) /\
     (forall x, x ∈ h -> x ∉ communityCards d)) /\
  (forall p q hp hq, p <> q ->
     players d !! p = Some hp -> players d !! q = Some hq ->
     forall x, x ∈ hp -> x ∉ hq) /\
  NoDup (communityCards d) /\
  (forall x, x ∈ communityCards d -> x ∈ allocated createDeck) /\
  NoDup (allocated createDeck) /\ length (allocated createDeck) = 56 /\
  forget (allocated createDeck) = createDeck /\
  createDeck =
    (suits ≫= fun s => values ≫= fun v => [mkCard s v])
      ++ replicate 4 (mkCard joker "Joker") /\
  length (suits ≫= fun s => values ≫= fun v => [mkCard s v]) = 52 /\
  NoDup (suits ≫= fun s => values ≫= fun v => [mkCard s v]) /\
  (forall s v, s ∈ suits -> v ∈ values ->
     mkCard s v ∈ (suits ≫= fun s => values ≫= fun v => [mkCard s v])) /\
  length suits = 4 /\ length values = 13 /\ joker ∉ suits.
Proof.
  intros _ Hlen d.
  pose proof (shuffled_instances_length rand) as Hdl.
  pose proof (shuffled_instances_NoDup rand) as Hnd.
  assert (Hhand : forall p h, players d !! p = Some h ->
            exists i, i < length ps /\ ps !! i = Some p /\
              h = slice (i * 13) ((i + 1) * 13)
                    (shuffleDeck rand (allocated createDeck))).
  { intros p h H. apply dealFrom_hand in H as (i & Hi & ->).
    exists i. split; [by eapply lookup_lt_Some|done]. }
  assert (Hcomm : communityCards d =
            slice (length ps * 13) (length ps * 13 + 4)
              (shuffleDeck rand (allocated createDeck))) by reflexivity.
  split; [apply dealCards_instances|].
  split.
  { intros p Hp.
    destruct (dealLoop_is_Some (shuffleDeck rand (allocated createDeck))
                0 ps ∅ p (or_introl Hp)) as [h Hh].
    exists h. split; [exact Hh|].
    destruct (Hhand p h Hh) as (i & Hi & _ & ->).
    split.
    { rewrite dealCards_instances. simpl. rewrite lookup_fmap.
      fold d. unfold d, dealInstances, dealFrom. simpl. by rewrite Hh. }
    unfold forget. rewrite length_fmap, slice_length by lia.
    split; lia. }
  split.
  { intros p h H. destruct (Hhand p h H) as (i & _ & Hi & _).
    by eapply list_elem_of_lookup_2. }
  split; [rewrite Hcomm, slice_length by lia; lia|].
  split.
  { rewrite dealCards_instances.
    change (length (forget (communityCards d)) = 4). unfold forget.
    rewrite length_fmap, Hcomm, slice_length by lia. lia. }
  split.
  { intros p h H. destruct (Hhand p h H) as (i & Hi & _ & ->).
    split; [by apply slice_NoDup|]. split.
    - intros x Hx. apply shuffled_instances_elem with (rand := rand).
      apply elem_of_slice in Hx as (k & _ & Hk).
      by eapply list_elem_of_lookup_2.
    - intros x Hx Hc. rewrite Hcomm in Hc.
      eapply (slice_disjoint (i * 13)); [exact Hnd| |exact Hx|exact Hc]. lia. }
  split.
  { intros p q hp hq Hpq Hp Hq x Hxp Hxq.
    destruct (Hhand p hp Hp) as (i & _ & Hi & ->).
    destruct (Hhand q hq Hq) as (j & _ & Hj & ->).
    assert (i <> j) by congruence.
    destruct (decide (i < j)).
    - eapply (slice_disjoint (i * 13)); [exact Hnd| |exact Hxp|exact Hxq]. lia.
    - eapply (slice_disjoint (j * 13)); [exact Hnd| |exact Hxq|exact Hxp]. lia. }
  split; [rewrite Hcomm; by apply slice_NoDup|].
  split.
  { intros x Hx. rewrite Hcomm in Hx.
    apply shuffled_instances_elem with (rand := rand).
    apply elem_of_slice in Hx as (k & _ & Hk).
    by eapply list_elem_of_lookup_2. }
  split; [apply allocated_NoDup|]. split; [reflexivity|].
  split; [apply forget_allocated|].
  destruct createDeck_contents as (_ & Hdeck & H52 & Hnd52).
  split; [exact Hdeck|]. split; [exact H52|]. split; [exact Hnd52|].
  split.
  { intros s v Hs Hv. apply list_elem_of_bind. exists s. split; [|done].
    apply list_elem_of_bind. exists v. split; [|done].
    by apply list_elem_of_singleton. }
  split; [reflexivity|]. split; [reflexivity|].
  unfold suits. rewrite !not_elem_of_cons.
  by repeat split; [..|apply not_elem_of_nil].
Qed.

(** ** The monad of the handlers *)

Section MonadFacts.
Context {A : Type}.
Implicit Types (s : State) (k : unit -> M unit).

Lemma exec_skip s : exec skip s = (s, []).
Proof. reflexivity. Qed.

Lemma exec_modify g s : exec (modify g) s = (g s, []).
Proof. reflexivity. Qed.

Lemma exec_emit t m s : exec (emit t m) s = (s, [Emit t m]).
Proof. reflexivity. Qed.

Lemma exec_bind_get (f : State -> M unit) s : exec (get ≫= f) s = exec (f s) s.
Proof.
  unfold exec, mbind, M_bind, get.
  by destruct (f s s) as [[[] s2] out2].
Qed.

Lemma exec_bind_modify g k s : exec (modify g ≫= k) s = exec (k tt) (g s).
Proof.
  unfold exec, mbind, M_bind, modify.
  by destruct (k tt (g s)) as [[[] s2] out2].
Qed.

Lemma exec_bind_emit t m k s :
  exec (emit t m ≫= k) s = ((exec (k tt) s).1, Emit t m :: (exec (k tt) s).2).
Proof.
  unfold exec, mbind, M_bind, emit.
  by destruct (k tt s) as [[[] s2] out2].
Qed.

Lemma exec_bind_skip k s : exec (skip ≫= k) s = exec (k tt) s.
Proof.
  unfold exec, mbind, M_bind, skip, mret, M_ret.
  by destruct (k tt s) as [[[] s2] out2].
Qed.

Lemma exec_bind (m : M unit) k s :
  exec (m ≫= k) s =
    ((exec (k tt) (exec m s).1).1, (exec m s).2 ++ (exec (k tt) (exec m s).1).2).
Proof.
  unfold exec, mbind, M_bind.
  destruct (m s) as [[[] s1] out1]. simpl.
  by destruct (k tt s1) as [[[] s2] out2].
Qed.

Lemma exec_forEach_nil (body : A -> M unit) s : exec (forEach [] body) s = (s, []).
Proof. reflexivity. Qed.

Lemma exec_forEach_cons x xs (body : A -> M unit) s :
  exec (forEach (x :: xs) body) s =
    ((exec (forEach xs body) (exec (body x) s).1).1,
     (exec (body x) s).2 ++ (exec (forEach xs body) (exec (body x) s).1).2).
Proof. simpl. apply exec_bind. Qed.

(** A loop whose body only writes to the registries. *)
Lemma exec_forEach_modify (g : A -> State -> State) xs s :
  exec (forEach xs (fun x => modify (g x))) s = (foldl (fun s x => g x s) s xs, []).
Proof.
  revert s. induction xs as [|x xs IH]; intros s; [done|].
  by rewrite exec_forEach_cons, exec_modify, IH.
Qed.

(** A property kept by every iteration holds after the loop. *)
Lemma exec_forEach_invariant (I : State -> Prop) xs (body : A -> M unit) s :
  (forall x s', x ∈ xs -> I s' -> I (exec (body x) s').1) ->
  I s -> I (exec (forEach xs body) s).1.
Proof.
  revert s. induction xs as [|x xs IH]; intros s Hbody Hs; [done|].
  rewrite exec_forEach_cons. simpl. apply IH.
  - intros y s' Hy. apply Hbody. by right.
  - apply Hbody; [by left|done].
Qed.
End MonadFacts.

(** ** Seats *)

Lemma joinRefused_spec s roomId :
  joinRefused (lookupKey roomId (rooms s)) = true <-> ~ seatAvailable s roomId.
Proof.
  unfold seatAvailable, seat, joinRefused.
  destruct (lookupKey roomId (rooms s)) as [r|]; cycle 1.
  { split; [|done]. intros _ (r & ? & _). done. }
  rewrite orb_true_iff, !bool_decide_eq_true. split.
  - intros [H|H] (r' & [= <-] & H1 & H2); congruence.
  - intros H. destruct (decide (status r = SPlaying)); [by left|].
    right. intros Hp. apply H. by exists r.
Qed.

Lemma notOwnerIn_spec st s sid roomId :
  notOwnerIn st sid (lookupKey roomId (rooms s)) = true <->
  ~ (ownsSeat s sid roomId /\ seatIn st s roomId).
Proof.
  unfold ownsSeat, seatIn, seat, notOwnerIn.
  destruct (lookupKey roomId (rooms s)) as [r|]; cycle 1.
  { split; [|done]. intros _ [(r & ? & _) _]. done. }
  rewrite orb_true_iff, !bool_decide_eq_true. split.
  - intros [H|H] [(r1 & [= <-] & H1) (r2 & [= <-] & H2)]; congruence.
  - intros H. destruct (decide (player r = Some sid)); [|by left].
    right. intros Hs. apply H. split; by exists r.
Qed.

(** C3, amended.  An inbound event other than a transfer whose precondition
    fails changes no registry and is broadcast to nobody.  [toggleReady] from
    a socket that does not own the seat, [confirmCards] outside status
    [playing] and [readyForNextGame] outside status [summary] emit nothing
    at all; [joinRoom] on an unavailable seat sends one [error] event,
    "Room is not available", to the caller only. *)
Theorem failed_precondition_refused (env : Env) (s : State) (sid : string)
    (ev : Event) :
  preconditionFails s sid ev ->
  step env sid ev s = (s, refusal sid ev).
Proof.
  unfold step. destruct ev as [|roomId|roomId|roomId cs cc|roomId|f t n|];
    simpl; try done; intros H.
  - unfold on_joinRoom. rewrite exec_bind_get.
    apply joinRefused_spec in H. by rewrite H.
  - unfold on_toggleReady. rewrite exec_bind_get.
    unfold ownsSeat, seat in H.
    destruct (lookupKey roomId (rooms s)) as [r|]; [|done].
    destruct (decide (player r <> Some sid)) as [|Hn]; [done|].
    exfalso. apply H. exists r. split; [done|].
    by destruct (decide (player r = Some sid)).
  - unfold on_confirmCards. rewrite exec_bind_get.
    apply notOwnerIn_spec in H. by rewrite H.
  - unfold on_readyForNextGame. rewrite exec_bind_get.
    apply notOwnerIn_spec in H. by rewrite H.
Qed.

(** ** The ledger *)

Lemma occupant_None_unoccupied s roomId :
  occupant s roomId = None -> unoccupied s roomId.
Proof. unfold unoccupied. by intros ->. Qed.

Lemma status_seatIn st s roomId :
  status <$> lookupKey roomId (rooms s) = Some st <-> seatIn st s roomId.
Proof.
  unfold seatIn, seat. destruct (lookupKey roomId (rooms s)) as [r|]; simpl.
  - split; [intros [= H]; by exists r|intros (r' & [= <-] & <-); done].
  - split; [done|]. by intros (r' & ? & _).
Qed.

Lemma transferErrorMessage_inj e1 e2 :
  transferErrorMessage e1 = transferErrorMessage e2 -> e1 = e2.
Proof. destruct e1, e2; simpl; intros H; try done; discriminate H. Qed.

(** C4.  A [transferPoints] request that violates a precondition (amount
    not positive, a seat without occupant, a seat not in status [summary],
    caller not the occupant of the source seat) changes nothing (balances,
    transaction log and every other registry are as before) and is answered
    by exactly one [error] event, sent to the caller, whose message names a
    precondition that the request does violate; the four messages are
    pairwise distinct. *)
Theorem transfer_violation_refused (env : Env) (s : State)
    (sid fromRoomId toRoomId : string) (amount : Number.number) :
  (exists e, violates s sid fromRoomId toRoomId amount e) ->
  (exists e, violates s sid fromRoomId toRoomId amount e /\
     step env sid (TransferPoints fromRoomId toRoomId amount) s =
       (s, [Emit (ToSocket sid) (error (transferErrorMessage e))])) /\
  (forall e1 e2,
     transferErrorMessage e1 = transferErrorMessage e2 -> e1 = e2).
Proof.
  intros [e0 Hv]. split; [|apply transferErrorMessage_inj].
  unfold step. simpl. unfold on_transferPoints.
  destruct (Number.le amount Number.zero) eqn:Ha.
  { exists InvalidAmount. split; [by constructor|done]. }
  rewrite exec_bind_get.
  fold (seat s fromRoomId) (seat s toRoomId).
  fold (occupant s fromRoomId) (occupant s toRoomId).
  destruct (falsy (occupant s fromRoomId) || falsy (occupant s toRoomId))
    eqn:Hf.
  { exists SeatEmpty. split; [|done]. constructor.
    by apply orb_true_iff in Hf. }
  apply orb_false_iff in Hf as [Hf1 Hf2].
  destruct (bool_decide (status <$> seat s fromRoomId <> Some SSummary)
            || bool_decide (status <$> seat s toRoomId <> Some SSummary))
    eqn:Hs.
  { exists NotInSummaryPhase. split; [|done]. constructor.
    apply orb_true_iff in Hs as [Hs|Hs]; apply bool_decide_eq_true in Hs;
      [left|right]; by rewrite <- status_seatIn. }
  apply orb_false_iff in Hs as [Hs1 Hs2].
  apply bool_decide_eq_false in Hs1, Hs2.
  destruct (decide (occupant s fromRoomId <> Some sid)) as [Ho|Ho].
  { exists NotAuthorized. split; [by constructor|done]. }
  exfalso. destruct Hv as [H|[H|H]|[H|H]|H].
  - congruence.
  - unfold unoccupied in H. congruence.
  - unfold unoccupied in H. congruence.
  - apply H, status_seatIn. by destruct (decide (status <$> seat s fromRoomId = Some SSummary)).
  - apply H, status_seatIn. by destruct (decide (status <$> seat s toRoomId = Some SSummary)).
  - done.
Qed.

(** ** Objects with insertion order *)

Section ObjectFacts.
Context {V : Type}.
Implicit Types (o : list (string * V)) (k : string) (v : V).

Lemma lookupKey_updateKey k k' f o :
  lookupKey k (updateKey k' f o) =
    if decide (k = k') then f <$> lookupKey k o else lookupKey k o.
Proof.
  induction o as [|[k0 v0] o IH]; simpl; [by case_decide|].
  destruct (decide (k0 = k')) as [->|H0]; simpl.
  - destruct (decide (k' = k)) as [->|]; [by rewrite decide_True|].
    by rewrite decide_False by congruence.
  - destruct (decide (k0 = k)) as [->|]; [by rewrite decide_False|done].
Qed.

Lemma updateKey_keys k f o : (updateKey k f o).*1 = o.*1.
Proof.
  induction o as [|[k0 v0] o IH]; csimpl; [done|].
  case_decide; csimpl; [done|by rewrite IH].
Qed.

Lemma lookupKey_Some_elem k v o : lookupKey k o = Some v -> (k, v) ∈ o.
Proof.
  induction o as [|[k0 v0] o IH]; simpl; [done|].
  case_decide as Hk; [intros [= ->]; subst; by left|].
  intros H. right. by apply IH.
Qed.

Lemma lookupKey_None k o : lookupKey k o = None <-> k ∉ o.*1.
Proof.
  induction o as [|[k0 v0] o IH]; simpl.
  - split; [intros _; apply not_elem_of_nil|done].
  - rewrite not_elem_of_cons. destruct (decide (k0 = k)) as [Hk|Hk]; simpl.
    + split; [done|]. intros [Hne _]. by destruct Hne.
    + rewrite IH. split; [intros ?; split; [congruence|done]|by intros [_ ?]].
Qed.

Lemma elem_lookupKey k v o : NoDup o.*1 -> (k, v) ∈ o -> lookupKey k o = Some v.
Proof.
  induction o as [|[k0 v0] o IH]; simpl; [by intros _ ?%elem_of_nil|].
  intros [Hk0 Hnd]%NoDup_cons [[= -> ->]|H]%elem_of_cons.
  - by rewrite decide_True.
  - rewrite decide_False; [by apply IH|].
    intros ->. apply Hk0. apply list_elem_of_fmap. by exists (k, v).
Qed.

Lemma Forall_updateKey (P : V -> Prop) k f o :
  Forall (fun e => P e.2) o ->
  (forall v, lookupKey k o = Some v -> P (f v)) ->
  Forall (fun e => P e.2) (updateKey k f o).
Proof.
  induction o as [|[k0 v0] o IH]; simpl; [done|].
  intros [H0 Ho]%Forall_cons Hf. case_decide as Hk.
  - apply Forall_cons. split; [|done]. simpl. by apply Hf.
  - apply Forall_cons. split; [done|]. by apply IH.
Qed.

Lemma lookupKey_setKey k k' v o :
  lookupKey k (setKey k' v o) =
    if decide (k = k') then Some v else lookupKey k o.
Proof.
  induction o as [|[k0 v0] o IH]; simpl.
  - destruct (decide (k = k')) as [->|]; [by rewrite decide_True|].
    by rewrite decide_False by congruence.
  - destruct (decide (k0 = k')) as [->|H0]; simpl.
    + destruct (decide (k' = k)) as [->|]; [by rewrite decide_True|].
      by rewrite decide_False by congruence.
    + destruct (decide (k0 = k)) as [->|]; [by rewrite decide_False|done].
Qed.

Lemma lookupKey_deleteKey k k' o :
  lookupKey k (deleteKey k' o) =
    if decide (k = k') then None else lookupKey k o.
Proof.
  unfold deleteKey. induction o as [|[k0 v0] o IH]; simpl; [by case_decide|].
  rewrite filter_cons. simpl. destruct (decide (k0 <> k')) as [H0|H0]; simpl.
  - rewrite IH. destruct (decide (k0 = k)) as [->|]; [|done].
    by rewrite decide_False by congruence.
  - assert (k0 = k') as -> by (by destruct (decide (k0 = k'))).
    rewrite IH. destruct (decide (k = k')) as [->|]; [done|].
    by rewrite decide_False by congruence.
Qed.

(** [Object.keys(o).forEach(key => delete o[key])] empties the object. *)
Lemma foldl_deleteKey_all o o' :
  (forall e, e ∈ o' -> e.1 ∈ o.*1) ->
  foldl (fun acc key => deleteKey key acc) o' o.*1 = [].
Proof.
  revert o'. induction o as [|[k0 v0] o IH]; intros o' Hsub; simpl.
  - destruct o' as [|e o']; [done|].
    by destruct (not_elem_of_nil e.1 (Hsub e (list_elem_of_here _ _))).
  - apply IH. intros e [Hk He]%list_elem_of_filter.
    apply Hsub in He. simpl in He. apply elem_of_cons in He as [He|He]; [|done].
    simpl in Hk. congruence.
Qed.
End ObjectFacts.

(** ** Loops over the registries *)

Section LoopFacts.
Context {A : Type}.
Implicit Types (xs : list A) (s : State).

(** A loop whose body acts on the registries as a function of them. *)
Lemma exec_forEach_state (g : A -> State -> State) xs (body : A -> M unit) s :
  (forall x s', (exec (body x) s').1 = g x s') ->
  (exec (forEach xs body) s).1 = foldl (fun s x => g x s) s xs.
Proof.
  intros Hbody. revert s. induction xs as [|x xs IH]; intros s; [done|].
  rewrite exec_forEach_cons. cbn [fst snd]. by rewrite IH, Hbody.
Qed.

(** Reading one registry through a loop that acts on it alone. *)
Lemma foldl_registry {R} (proj : State -> R) (g : A -> State -> State)
    (h : A -> R -> R) xs s :
  (forall x s', proj (g x s') = h x (proj s')) ->
  proj (foldl (fun s x => g x s) s xs) = foldl (fun r x => h x r) (proj s) xs.
Proof.
  intros Hg. revert s. induction xs as [|x xs IH]; intros s; [done|].
  simpl. by rewrite IH, Hg.
Qed.

Lemma foldl_frame {R} (proj : State -> R) (g : A -> State -> State) xs s :
  (forall x s', proj (g x s') = proj s') ->
  proj (foldl (fun s x => g x s) s xs) = proj s.
Proof.
  intros Hg. revert s. induction xs as [|x xs IH]; intros s; [done|].
  simpl. by rewrite IH, Hg.
Qed.

(** A guarded body runs on the elements that pass the guard. *)
Lemma exec_forEach_guard (P : A -> Prop) `{!forall x, Decision (P x)} xs
    (body : A -> M unit) s :
  exec (forEach xs (fun x => if decide (P x) then body x else skip)) s =
  exec (forEach (filter P xs) body) s.
Proof.
  revert s. induction xs as [|x xs IH]; intros s; [done|].
  rewrite exec_forEach_cons, filter_cons.
  destruct (decide (P x)).
  - by rewrite exec_forEach_cons, !IH.
  - rewrite exec_skip. cbn [fst snd]. rewrite IH. by destruct (exec _ s).
Qed.
End LoopFacts.

Section UpdateLoop.
Context {V : Type} (f : V -> V) (f_idem : forall v, f (f v) = f v).

(** The object after the same write through the references of a list of
    keys. *)
Lemma lookupKey_foldl_updateKey (ks : list string) (o : list (string * V)) k :
  lookupKey k (foldl (fun o k' => updateKey k' f o) o ks) =
    if decide (k ∈ ks) then f <$> lookupKey k o else lookupKey k o.
Proof.
  revert o. induction ks as [|k0 ks IH]; intros o.
  - destruct (decide (k ∈ [])) as [H|H]; [by apply elem_of_nil in H|done].
  - cbn [foldl]. rewrite IH, lookupKey_updateKey.
    destruct (decide (k ∈ k0 :: ks)) as [Hin|Hin].
    + destruct (decide (k = k0)) as [->|Hk].
      * case_decide; [|done].
        destruct (lookupKey k0 o); simpl; [by rewrite f_idem|done].
      * apply elem_of_cons in Hin as [?|Hin]; [done|].
        by rewrite decide_True.
    + apply not_elem_of_cons in Hin as [Hk Hin].
      by rewrite decide_False, decide_False.
Qed.

Lemma foldl_updateKey_keys (ks : list string) (o : list (string * V)) :
  (foldl (fun o k' => updateKey k' f o) o ks).*1 = o.*1.
Proof.
  revert o. induction ks as [|k0 ks IH]; intros o; simpl; [done|].
  by rewrite IH, updateKey_keys.
Qed.
End UpdateLoop.

Lemma foldl_keys {A K R} (key : A -> K) (h : K -> R -> R) (xs : list A) (r : R) :
  foldl (fun r x => h (key x) r) r xs = foldl (fun r k => h k r) r (key <$> xs).
Proof.
  revert r. induction xs as [|x xs IH]; intros r; [done|].
  cbn [foldl]. by rewrite IH.
Qed.

Section RegistryLoops.
Context {A R : Type} (proj : State -> R).

Lemma forEach_registry (h : A -> R -> R) xs (body : A -> M unit) s :
  (forall x s', proj (exec (body x) s').1 = h x (proj s')) ->
  proj (exec (forEach xs body) s).1 = foldl (fun r x => h x r) (proj s) xs.
Proof.
  intros Hbody. revert s. induction xs as [|x xs IH]; intros s; [done|].
  rewrite exec_forEach_cons. cbn [fst snd foldl]. by rewrite IH, Hbody.
Qed.

Lemma forEach_frame xs (body : A -> M unit) s :
  (forall x s', proj (exec (body x) s').1 = proj s') ->
  proj (exec (forEach xs body) s).1 = proj s.
Proof.
  intros Hbody.
  by apply (exec_forEach_invariant (fun s' => proj s' = proj s));
    [intros x s' _ <-|].
Qed.
End RegistryLoops.

(** ** The helpers of the server, one by one *)

Lemma exec_ensurePlayerPoints k s :
  exec (ensurePlayerPoints k) s =
    (match playerPoints s !! k with
     | None => set_playerPoints <[k := Number.zero]> s
     | Some _ => s
     end, []).
Proof.
  unfold ensurePlayerPoints. rewrite exec_bind_get.
  by destruct (playerPoints s !! k).
Qed.

Lemma foldl_set_playedCards (ks : list string) s :
  foldl (fun s key => set_playedCards (deleteKey key) s) s ks =
  set_playedCards (fun pc => foldl (fun acc key => deleteKey key acc) pc ks) s.
Proof.
  revert s. induction ks as [|k ks IH]; intros s; [by destruct s|].
  cbn [foldl]. by rewrite IH.
Qed.

Lemma exec_clearPlayedCards s :
  exec clearPlayedCards s = (set_playedCards (fun _ => []) s, []).
Proof.
  unfold clearPlayedCards. rewrite exec_bind_get, exec_forEach_modify.
  rewrite foldl_set_playedCards. unfold set_playedCards.
  rewrite foldl_deleteKey_all; [done|].
  intros e He. apply list_elem_of_fmap. by exists e.
Qed.

Lemma foldl_set_rooms {A} (key : A -> string) f (xs : list A) s :
  foldl (fun s x => set_rooms (updateKey (key x) f) s) s xs =
  set_rooms (fun rs => foldl (fun o k => updateKey k f o) rs (key <$> xs)) s.
Proof.
  revert s. induction xs as [|x xs IH]; intros s; [by destruct s|].
  cbn [foldl]. by rewrite IH.
Qed.

(** The loops that write one field change through a list of seats. *)
Lemma exec_forEach_updateKey {A} (key : A -> string) f (xs : list A) s :
  exec (forEach xs (fun x => modify (set_rooms (updateKey (key x) f)))) s =
  (set_rooms (fun rs => foldl (fun o k => updateKey k f o) rs (key <$> xs)) s, []).
Proof. by rewrite exec_forEach_modify, foldl_set_rooms. Qed.

Lemma foldl_set_readyForNextGame {A} (key : A -> string) b (xs : list A) s :
  foldl (fun s x => set_readyForNextGame <[key x := b]> s) s xs =
  set_readyForNextGame
    (fun m => foldl (fun m k => <[k := b]> m) m (key <$> xs)) s.
Proof.
  revert s. induction xs as [|x xs IH]; intros s; [by destruct s|].
  cbn [foldl]. by rewrite IH.
Qed.

Lemma lookup_foldl_insert (b : bool) (ks : list string) (m : gmap string bool) k :
  foldl (fun m k => <[k := b]> m) m ks !! k =
    if decide (k ∈ ks) then Some b else m !! k.
Proof.
  revert m. induction ks as [|k0 ks IH]; intros m.
  - destruct (decide (k ∈ [])) as [H|H]; [by apply elem_of_nil in H|done].
  - cbn [foldl]. rewrite IH.
    destruct (decide (k ∈ k0 :: ks)) as [Hin|Hin].
    + destruct (decide (k ∈ ks)) as [|Hks]; [done|].
      apply elem_of_cons in Hin as [->|Hin]; [|done].
      by rewrite lookup_insert_eq.
    + apply not_elem_of_cons in Hin as [Hk Hin].
      by rewrite decide_False, lookup_insert_ne.
Qed.

Section StartPlayer.
Context (env : Env) (ps : list string) (gc : GameCards Card).

Lemma startPlayer_rooms e s :
  rooms (exec (startPlayer env ps gc e) s).1 = updateKey e.1 startRoom (rooms s).
Proof.
  destruct e as [roomId room]. unfold startPlayer.
  rewrite exec_bind_modify. destruct (player room) as [p|]; [|done].
  destruct (connected env p); [|done].
  rewrite exec_bind, exec_ensurePlayerPoints, exec_emit. cbn [fst snd].
  by destruct (playerPoints _ !! roomId).
Qed.

Lemma startPlayer_frame e s :
  playedCards (exec (startPlayer env ps gc e) s).1 = playedCards s /\
  readyForNextGame (exec (startPlayer env ps gc e) s).1 = readyForNextGame s /\
  transactions (exec (startPlayer env ps gc e) s).1 = transactions s.
Proof.
  destruct e as [roomId room]. unfold startPlayer.
  rewrite exec_bind_modify. destruct (player room) as [p|]; [|done].
  destruct (connected env p); [|done].
  rewrite exec_bind, exec_ensurePlayerPoints, exec_emit. cbn [fst snd].
  by destruct (playerPoints _ !! roomId).
Qed.

Lemma startPlayer_points e s :
  (forall k, is_Some (playerPoints s !! k) ->
     playerPoints (exec (startPlayer env ps gc e) s).1 !! k = playerPoints s !! k) /\
  (is_Some (playerPoints s !! e.1) ->
     playerPoints (exec (startPlayer env ps gc e) s).1 = playerPoints s).
Proof.
  destruct e as [roomId room]. unfold startPlayer.
  rewrite exec_bind_modify. destruct (player room) as [p|]; [|done].
  destruct (connected env p); [|done].
  rewrite exec_bind, exec_ensurePlayerPoints, exec_emit. cbn [fst snd].
  change (playerPoints (set_rooms (updateKey roomId startRoom) s))
    with (playerPoints s).
  destruct (playerPoints s !! roomId) as [v|] eqn:Hv; [done|].
  split.
  - intros k [w Hw]. simpl. rewrite lookup_insert_ne; [done|congruence].
  - by intros [w Hw].
Qed.

Lemma startPlayers_rooms xs s :
  rooms (exec (forEach xs (startPlayer env ps gc)) s).1 =
    foldl (fun o k => updateKey k startRoom o) (rooms s) xs.*1.
Proof.
  rewrite (forEach_registry rooms (fun e rs => updateKey e.1 startRoom rs))
    by apply startPlayer_rooms.
  apply (foldl_keys fst (fun k o => updateKey k startRoom o)).
Qed.

Lemma startPlayers_frame xs s :
  playedCards (exec (forEach xs (startPlayer env ps gc)) s).1 = playedCards s /\
  readyForNextGame (exec (forEach xs (startPlayer env ps gc)) s).1
    = readyForNextGame s /\
  transactions (exec (forEach xs (startPlayer env ps gc)) s).1 = transactions s.
Proof.
  split; [|split]; apply forEach_frame; intros x s'; apply startPlayer_frame.
Qed.

Lemma startPlayers_points_lookup xs s k :
  is_Some (playerPoints s !! k) ->
  playerPoints (exec (forEach xs (startPlayer env ps gc)) s).1 !! k
    = playerPoints s !! k.
Proof.
  intros Hk.
  apply (exec_forEach_invariant
           (fun s' => playerPoints s' !! k = playerPoints s !! k)); [|done].
  intros x s' _ Hs'. rewrite <- Hs'. apply startPlayer_points.
  by rewrite Hs'.
Qed.

Lemma startPlayers_points xs s :
  (forall k, k ∈ xs.*1 -> is_Some (playerPoints s !! k)) ->
  playerPoints (exec (forEach xs (startPlayer env ps gc)) s).1 = playerPoints s.
Proof.
  intros Hk.
  apply (exec_forEach_invariant (fun s' => playerPoints s' = playerPoints s));
    [|done].
  intros x s' Hx Hs'. rewrite <- Hs'. apply startPlayer_points.
  rewrite Hs'. apply Hk. apply list_elem_of_fmap. by exists x.
Qed.
End StartPlayer.

(** ** The Start transition *)

Lemma exec_checkAndStartGame env s :
  exec (checkAndStartGame env) s =
    if decide (startCondition s) then
      let ps := omap (fun e => player e.2) (roomsWithPlayers s) in
      let r := exec (forEach (roomsWithPlayers s)
                       (startPlayer env ps (dealCards (rand env) ps)))
                    (set_playedCards (fun _ => []) s) in
      (r.1, r.2 ++ [Emit ToAll (roomsUpdate (rooms r.1));
                    Emit ToAll (pointsUpdate (playerPoints r.1))])
    else (s, []).
Proof.
  unfold checkAndStartGame, startCondition. rewrite exec_bind_get.
  destruct (decide _) as [H|H]; [|done].
  rewrite exec_bind, exec_clearPlayedCards. cbn [fst snd app].
  rewrite exec_bind, exec_bind_get, exec_bind_emit, exec_emit. done.
Qed.

Lemma checkAndStartGame_idle env s :
  ~ startCondition s -> exec (checkAndStartGame env) s = (s, []).
Proof. intros H. by rewrite exec_checkAndStartGame, decide_False. Qed.

Lemma startFires_iff env s : startFires env s <-> startCondition s.
Proof.
  unfold startFires. rewrite exec_checkAndStartGame.
  destruct (decide (startCondition s)) as [H|H]; cbn [snd].
  - split; [done|]. intros _ Hnil. by apply app_eq_nil in Hnil as [_ ?].
  - split; [done|tauto].
Qed.

Lemma elem_of_roomsWithPlayers s k r :
  (k, r) ∈ roomsWithPlayers s <-> (k, r) ∈ rooms s /\ player r <> None.
Proof. unfold roomsWithPlayers. rewrite list_elem_of_filter. simpl. tauto. Qed.

(** After the Start transition every seat that has an occupant is playing,
    with its ready flag cleared, and the other seats are as before. *)
Lemma checkAndStartGame_seat env s k :
  startCondition s ->
  seat (exec (checkAndStartGame env) s).1 k =
    match seat s k with
    | Some r => if decide (player r <> None) then Some (startRoom r)
                else if decide (k ∈ (roomsWithPlayers s).*1)
                     then Some (startRoom r) else Some r
    | None => None
    end.
Proof.
  intros H. rewrite exec_checkAndStartGame, decide_True by done.
  cbn [fst]. unfold seat. rewrite startPlayers_rooms.
  rewrite lookupKey_foldl_updateKey by done.
  change (rooms (set_playedCards (fun _ => []) s)) with (rooms s).
  destruct (lookupKey k (rooms s)) as [r|] eqn:Hr; [|by case_decide].
  destruct (decide (player r <> None)) as [Hp|Hp].
  - rewrite decide_True; [done|].
    apply list_elem_of_fmap. exists (k, r). split; [done|].
    apply elem_of_roomsWithPlayers. split; [|done].
    by apply lookupKey_Some_elem.
  - by case_decide.
Qed.

(** ** The Summarize transition *)

Lemma summarizeCondition_guard s :
  summarizeGuard s = true <-> summarizeCondition s.
Proof.
  unfold summarizeCondition, summarizeGuard.
  rewrite andb_true_iff, bool_decide_eq_true, forallb_forall.
  by setoid_rewrite <- list_elem_of_In.
Qed.

Lemma exec_checkAllPlayersConfirmed s :
  exec checkAllPlayersConfirmed s =
    if summarizeGuard s then
      let s' :=
        set_readyForNextGame
          (fun m => foldl (fun m k => <[k := false]> m) m
                      (snd <$> occupiedIn SPlaying s))
          (set_rooms
             (fun rs => foldl (fun o k => updateKey k summarizeRoom o) rs
                          (fst <$> occupiedIn SPlaying s)) s) in
      (s', [Emit ToAll (cardsSummary (summaryOf <$> (playedCards s).*2));
            Emit ToAll (roomsUpdate (rooms s'))])
    else (s, []).
Proof.
  unfold checkAllPlayersConfirmed. rewrite exec_bind_get.
  fold (summarizeGuard s). destruct (summarizeGuard s); [|done].
  rewrite exec_bind, (exec_forEach_updateKey fst). cbn [fst snd app].
  rewrite exec_bind, exec_forEach_modify.
  rewrite (foldl_set_readyForNextGame snd). cbn [fst snd app].
  by rewrite exec_bind_emit, exec_bind_get, exec_emit.
Qed.

Lemma summarizeFires_iff s : summarizeFires s <-> summarizeCondition s.
Proof.
  unfold summarizeFires. rewrite exec_checkAllPlayersConfirmed.
  rewrite <- summarizeCondition_guard.
  destruct (summarizeGuard s); cbn [snd]; [done|split; [tauto|done]].
Qed.

Lemma checkAllPlayersConfirmed_playedCards s :
  playedCards (exec checkAllPlayersConfirmed s).1 = playedCards s.
Proof. rewrite exec_checkAllPlayersConfirmed. by destruct (summarizeGuard s). Qed.

Lemma elem_of_occupiedIn st s k p :
  (k, p) ∈ occupiedIn st s <->
  exists r, (k, r) ∈ rooms s /\ status r = st /\ player r = Some p.
Proof.
  unfold occupiedIn. rewrite list_elem_of_omap. split.
  - intros ([k' r] & [[Hs Hp] Hin]%list_elem_of_filter & Heq). simpl in *.
    destruct (player r) as [p'|] eqn:Hr; [|done]. injection Heq as <- <-.
    by exists r.
  - intros (r & Hin & Hs & Hp). exists (k, r). simpl. rewrite Hp. split; [|done].
    apply list_elem_of_filter. simpl. rewrite Hp. done.
Qed.

(** ** Confirmation *)

(** C2, amended.  A [confirmCards] event from the occupant of a seat in
    status [playing] is accepted whatever the sizes of its three card
    groups: the coordinator stores for the sender a PlayedHand with
    [confirmed = true] that holds the groups as they were sent, and emits
    no [error] event.  No count of the cards is made. *)
Theorem confirmCards_stores_any_shape (env : Env) (s : State)
    (sid roomId : string) (cs : Positions) (cc : option Card) :
  ownsSeat s sid roomId ->
  seatIn SPlaying s roomId ->
  lookupKey sid (playedCards (step env sid (ConfirmCards roomId cs cc) s).1)
    = Some (mkPlayedCard sid roomId cs cc true) /\
  (forall e msg, e ∈ (step env sid (ConfirmCards roomId cs cc) s).2 ->
     message e <> error msg).
Proof.
  intros Ho Hs. unfold step, handle, on_confirmCards.
  rewrite exec_bind_get.
  destruct (notOwnerIn SPlaying sid (lookupKey roomId (rooms s))) eqn:Hg.
  { apply notOwnerIn_spec in Hg. by destruct Hg. }
  rewrite exec_bind_modify. split.
  - rewrite checkAllPlayersConfirmed_playedCards. simpl.
    by rewrite lookupKey_setKey, decide_True.
  - intros e msg. rewrite exec_checkAllPlayersConfirmed.
    destruct (summarizeGuard _); cbn [snd].
    + rewrite !elem_of_cons, elem_of_nil. by intros [->|[->|?]].
    + by intros ?%elem_of_nil.
Qed.

(** ** Disconnection *)

Lemma exec_leaveRoom (e : string * GameRoom) s :
  exec (modify (set_rooms (updateKey e.1 vacateRoom)) ;;
        s ← get; emit ToAll (roomsUpdate (rooms s))) s =
  (set_rooms (updateKey e.1 vacateRoom) s,
   [Emit ToAll (roomsUpdate (updateKey e.1 vacateRoom (rooms s)))]).
Proof. by rewrite exec_bind_modify, exec_bind_get, exec_emit. Qed.

Lemma on_disconnect_state sid s :
  let s' := (exec (on_disconnect sid) s).1 in
  rooms s' =
    foldl (fun o k => updateKey k vacateRoom o) (rooms s)
          (filter (fun e => player e.2 = Some sid) (rooms s)).*1 /\
  playedCards s' = deleteKey sid (playedCards s) /\
  readyForNextGame s' = delete sid (readyForNextGame s) /\
  playerPoints s' = playerPoints s /\
  transactions s' = transactions s.
Proof.
  unfold on_disconnect.
  rewrite exec_bind_modify, exec_bind_modify, exec_bind_get.
  change (rooms (set_readyForNextGame _ (set_playedCards _ s))) with (rooms s).
  rewrite (exec_forEach_guard (fun e => player e.2 = Some sid)).
  cbn zeta. split; [|repeat split].
  - rewrite (forEach_registry rooms (fun e rs => updateKey e.1 vacateRoom rs))
      by (intros x s'; by rewrite exec_leaveRoom).
    change (rooms (set_readyForNextGame _ (set_playedCards _ s)))
      with (rooms s).
    apply (foldl_keys fst (fun k o => updateKey k vacateRoom o)).
  - by rewrite (forEach_frame playedCards)
      by (intros x s'; by rewrite exec_leaveRoom).
  - by rewrite (forEach_frame readyForNextGame)
      by (intros x s'; by rewrite exec_leaveRoom).
  - by rewrite (forEach_frame playerPoints)
      by (intros x s'; by rewrite exec_leaveRoom).
  - by rewrite (forEach_frame transactions)
      by (intros x s'; by rewrite exec_leaveRoom).
Qed.

Lemma vacateRoom_idem r : vacateRoom (vacateRoom r) = vacateRoom r.
Proof. done. Qed.

(** C9.  A [disconnect] event resets every seat held by the disconnecting
    occupant (occupant [null], ready flag cleared, status [empty]), deletes
    that occupant's PlayedHand and ready-for-next flag and leaves those of
    the other occupants, and leaves the balances of all seats and the
    transaction log as they were. *)
Theorem disconnect_resets_seat_keeps_ledger (env : Env) (s : State)
    (sid : string) :
  let s' := (step env sid Disconnect s).1 in
  (forall k r, seat s k = Some r -> player r = Some sid ->
     seat s' k = Some (mkGameRoom None false (capacity r) SEmpty)) /\
  lookupKey sid (playedCards s') = None /\
  readyForNextGame s' !! sid = None /\
  (forall p, p <> sid ->
     lookupKey p (playedCards s') = lookupKey p (playedCards s) /\
     readyForNextGame s' !! p = readyForNextGame s !! p) /\
  playerPoints s' = playerPoints s /\
  transactions s' = transactions s.
Proof.
  unfold step, handle.
  destruct (on_disconnect_state sid s) as (Hr & Hp & Hf & Hpts & Htx).
  cbn zeta. rewrite Hp, Hf, Hpts, Htx. split; [|repeat split].
  - intros k r Hk Hsid. unfold seat in *. rewrite Hr.
    rewrite lookupKey_foldl_updateKey by apply vacateRoom_idem.
    rewrite Hk, decide_True; [done|].
    apply list_elem_of_fmap. exists (k, r). split; [done|].
    apply list_elem_of_filter. split; [done|]. by apply lookupKey_Some_elem.
  - by rewrite lookupKey_deleteKey, decide_True.
  - apply lookup_delete_eq.
  - by rewrite lookupKey_deleteKey, decide_False.
  - by apply lookup_delete_ne.
Qed.

(** ** The invariant of the registries *)

Lemma roomIds_NoDup : NoDup roomIds.
Proof. apply (bool_decide_unpack _). by vm_compute. Qed.

Lemma consistent_NoDup s : consistent s -> NoDup (rooms s).*1.
Proof. intros [-> _ _]. apply roomIds_NoDup. Qed.

Lemma consistent_initial : consistent initial.
Proof.
  split.
  - reflexivity.
  - intros k r. unfold seat, initial. simpl.
    repeat case_decide; intros [= <-]; by split.
  - intros k Hk. unfold roomIds in Hk.
    repeat (apply elem_of_cons in Hk as [->|Hk]; [by vm_compute; eauto|]).
    by apply elem_of_nil in Hk.
Qed.

Lemma consistent_seat_key s k r : consistent s -> seat s k = Some r -> k ∈ roomIds.
Proof.
  intros [<- _ _] H%lookupKey_Some_elem.
  apply list_elem_of_fmap. by exists (k, r).
Qed.

(** A seat found among the entries is the seat registered under its id. *)
Lemma consistent_entry s k r : consistent s -> (k, r) ∈ rooms s -> seat s k = Some r.
Proof. intros Hc. apply elem_lookupKey. by apply consistent_NoDup. Qed.

Lemma consistent_frame s s' :
  consistent s -> rooms s' = rooms s ->
  (forall k, is_Some (playerPoints s !! k) -> is_Some (playerPoints s' !! k)) ->
  consistent s'.
Proof.
  intros [Hk Hs Hp] Hr Hpts. split.
  - by rewrite Hr.
  - intros k r. unfold seat. rewrite Hr. apply Hs.
  - intros k Hin. by apply Hpts, Hp.
Qed.

Lemma consistent_set_rooms_foldl f ks s :
  (forall r, f (f r) = f r) ->
  consistent s ->
  (forall k r, k ∈ ks -> seat s k = Some r -> seatConsistent (f r)) ->
  consistent (set_rooms (fun rs => foldl (fun o k => updateKey k f o) rs ks) s).
Proof.
  intros Hidem [Hk Hs Hp] Hf. split.
  - simpl. by rewrite foldl_updateKey_keys.
  - intros k r. unfold seat. simpl.
    rewrite lookupKey_foldl_updateKey by done.
    destruct (decide (k ∈ ks)) as [Hin|Hin]; [|apply Hs].
    destruct (lookupKey k (rooms s)) as [r0|] eqn:Hr0; [|done].
    intros [= <-]. by apply (Hf k).
  - done.
Qed.

Lemma consistent_set_rooms_updateKey f k s :
  consistent s ->
  (forall r, seat s k = Some r -> seatConsistent (f r)) ->
  consistent (set_rooms (updateKey k f) s).
Proof.
  intros [Hk Hs Hp] Hf. split.
  - simpl. by rewrite updateKey_keys.
  - intros k' r. unfold seat. simpl. rewrite lookupKey_updateKey.
    destruct (decide (k' = k)) as [->|]; [|apply Hs].
    destruct (lookupKey k (rooms s)) as [r0|] eqn:Hr0; [|done].
    intros [= <-]. by apply Hf.
  - done.
Qed.

(** The seats listed by [occupiedIn] are registered, with that status and
    occupant. *)
Lemma occupiedIn_seat st s k :
  consistent s -> k ∈ (occupiedIn st s).*1 ->
  exists r p, seat s k = Some r /\ status r = st /\ player r = Some p.
Proof.
  intros Hc ([k' p] & -> & Hin)%list_elem_of_fmap.
  apply elem_of_occupiedIn in Hin as (r & Hin & Hs & Hp).
  exists r, p. split; [|done]. by apply consistent_entry.
Qed.

Lemma roomsWithPlayers_seat s k :
  consistent s -> k ∈ (roomsWithPlayers s).*1 ->
  exists r, seat s k = Some r /\ player r <> None.
Proof.
  intros Hc ([k' r] & -> & [Hin Hp]%elem_of_roomsWithPlayers)%list_elem_of_fmap.
  exists r. split; [|done]. by apply consistent_entry.
Qed.

Lemma seatConsistent_occupied r st :
  seatConsistent r -> player r <> None -> st <> SEmpty ->
  forall b, seatConsistent (mkGameRoom (player r) b (capacity r) st).
Proof. intros [H1 H2] Hp Hst b. split; simpl; [split; done|done]. Qed.

Lemma consistent_checkAndStartGame env s :
  consistent s -> consistent (exec (checkAndStartGame env) s).1.
Proof.
  intros Hc. rewrite exec_checkAndStartGame.
  destruct (decide (startCondition s)) as [Hs|Hs]; [|done]. cbn [fst].
  pose proof Hc as [Hk Hseats Hp]. split.
  - rewrite startPlayers_rooms. simpl. by rewrite foldl_updateKey_keys.
  - intros k r. unfold seat. rewrite startPlayers_rooms. simpl.
    rewrite lookupKey_foldl_updateKey by done.
    destruct (decide (k ∈ _)) as [Hin|Hin]; [|apply Hseats].
    apply roomsWithPlayers_seat in Hin as (r0 & Hr0 & Hp0); [|done].
    unfold seat in Hr0. rewrite Hr0. intros [= <-].
    apply seatConsistent_occupied; [by eapply Hseats|done|done].
  - intros k Hin. rewrite startPlayers_points_lookup; by apply Hp.
Qed.

(** ** The Next-round transition *)

Lemma nextRoundCondition_guard s :
  nextRoundGuard s = true <-> nextRoundCondition s.
Proof.
  unfold nextRoundCondition, nextRoundGuard.
  rewrite andb_true_iff, bool_decide_eq_true, forallb_forall.
  by setoid_rewrite <- list_elem_of_In.
Qed.

Lemma foldl_set_readyForNextGame_id b (ks : list string) s :
  foldl (fun s key => set_readyForNextGame <[key := b]> s) s ks =
  set_readyForNextGame (fun m => foldl (fun m k => <[k := b]> m) m ks) s.
Proof.
  revert s. induction ks as [|k ks IH]; intros s; [by destruct s|].
  cbn [foldl]. by rewrite IH.
Qed.

Lemma exec_checkAllPlayersReadyForNextGame env s :
  exec (checkAllPlayersReadyForNextGame env) s =
    if nextRoundGuard s then
      ((exec (checkAndStartGame env) (rearmed s)).1,
       Emit ToAll (roomsUpdate (rooms (rearmed s)))
         :: (exec (checkAndStartGame env) (rearmed s)).2)
    else (s, []).
Proof.
  unfold checkAllPlayersReadyForNextGame. rewrite exec_bind_get.
  fold (nextRoundGuard s). destruct (nextRoundGuard s); [|done].
  rewrite exec_bind, (exec_forEach_updateKey fst). cbn [fst snd app].
  rewrite exec_bind, exec_clearPlayedCards. cbn [fst snd app].
  rewrite exec_bind, exec_forEach_modify, foldl_set_readyForNextGame_id.
  cbn [fst snd app]. by rewrite exec_bind_get, exec_bind_emit.
Qed.

Lemma rearmed_seat s k :
  seat (rearmed s) k =
    if decide (k ∈ (occupiedIn SSummary s).*1) then rearmRoom <$> seat s k
    else seat s k.
Proof. unfold seat, rearmed. simpl. by rewrite lookupKey_foldl_updateKey. Qed.

Lemma rearmed_flags s p :
  readyForNextGame (rearmed s) !! p =
    (fun _ => false) <$> readyForNextGame s !! p.
Proof.
  unfold rearmed. simpl. rewrite lookup_foldl_insert.
  destruct (readyForNextGame s !! p) as [b|] eqn:Hp; simpl.
  - rewrite decide_True; [done|].
    apply list_elem_of_fmap. exists (p, b). split; [done|].
    by apply elem_of_map_to_list.
  - rewrite decide_False; [done|].
    intros ([p' b] & -> & Hin%elem_of_map_to_list)%list_elem_of_fmap.
    simpl in Hp. congruence.
Qed.

Lemma consistent_rearmed s : consistent s -> consistent (rearmed s).
Proof.
  intros Hc. unfold rearmed.
  apply (consistent_frame
           (set_rooms (fun rs => foldl (fun o k => updateKey k rearmRoom o) rs
                                   (occupiedIn SSummary s).*1) s)); [|done..].
  apply consistent_set_rooms_foldl; [done|done|].
  intros k r Hin Hr.
  apply occupiedIn_seat in Hin as (r0 & p & Hr0 & Hst & Hp); [|done].
  assert (r0 = r) as -> by congruence.
  apply seatConsistent_occupied; [by eapply consistent_seats|congruence|done].
Qed.

(** ** Every handler keeps the invariant *)

Lemma consistent_checkAllPlayersConfirmed s :
  consistent s -> consistent (exec checkAllPlayersConfirmed s).1.
Proof.
  intros Hc. rewrite exec_checkAllPlayersConfirmed.
  destruct (summarizeGuard s); [|done]. cbn [fst].
  apply (consistent_frame
           (set_rooms (fun rs => foldl (fun o k => updateKey k summarizeRoom o) rs
                                   (occupiedIn SPlaying s).*1) s)); [|done..].
  apply consistent_set_rooms_foldl; [done|done|].
  intros k r Hin Hr.
  apply occupiedIn_seat in Hin as (r0 & p & Hr0 & Hst & Hp); [|done].
  assert (r0 = r) as -> by congruence.
  apply seatConsistent_occupied; [by eapply consistent_seats|congruence|done].
Qed.

Lemma consistent_checkAllPlayersReadyForNextGame env s :
  consistent s -> consistent (exec (checkAllPlayersReadyForNextGame env) s).1.
Proof.
  intros Hc. rewrite exec_checkAllPlayersReadyForNextGame.
  destruct (nextRoundGuard s); [|done]. cbn [fst].
  by apply consistent_checkAndStartGame, consistent_rearmed.
Qed.

Lemma on_joinRoom_state sid roomId s :
  joinRefused (lookupKey roomId (rooms s)) = false ->
  (exec (on_joinRoom sid roomId) s).1 =
    set_rooms (updateKey roomId (enterRoom sid))
      (set_rooms
         (fun rs => foldl (fun o k => updateKey k vacateRoom o) rs
                      (filter (fun e => player e.2 = Some sid) (rooms s)).*1) s).
Proof.
  intros Hg. unfold on_joinRoom. rewrite exec_bind_get, Hg.
  rewrite exec_bind.
  rewrite (exec_forEach_guard (fun e => player e.2 = Some sid)).
  rewrite (exec_forEach_updateKey fst). cbn [fst snd app].
  by rewrite exec_bind_modify, exec_bind_get, !exec_bind_emit, exec_emit.
Qed.

Lemma consistent_on_joinRoom sid roomId s :
  sid <> "" -> consistent s -> consistent (exec (on_joinRoom sid roomId) s).1.
Proof.
  intros Hsid Hc.
  destruct (joinRefused (lookupKey roomId (rooms s))) eqn:Hg.
  { unfold on_joinRoom. by rewrite exec_bind_get, Hg. }
  rewrite on_joinRoom_state by done.
  apply consistent_set_rooms_updateKey.
  - apply consistent_set_rooms_foldl; [done|done|]. by intros k r _ _.
  - intros r _. split; simpl; [split; done|congruence].
Qed.

Lemma consistent_on_toggleReady env sid roomId s :
  consistent s -> consistent (exec (on_toggleReady env sid roomId) s).1.
Proof.
  intros Hc. unfold on_toggleReady. rewrite exec_bind_get.
  destruct (lookupKey roomId (rooms s)) as [room|] eqn:Hroom; [|done].
  destruct (decide (player room <> Some sid)) as [|Hp]; [done|].
  rewrite exec_bind_modify, exec_bind_get, exec_bind_emit. cbn [fst].
  apply consistent_checkAndStartGame, consistent_set_rooms_updateKey; [done|].
  intros r Hr. assert (r = room) as -> by (unfold seat in Hr; congruence).
  assert (player room = Some sid) as Hsid
    by (by destruct (decide (player room = Some sid))).
  pose proof (consistent_seats s Hc roomId room Hroom) as [_ Hne].
  unfold toggleRoom. split; simpl.
  - rewrite Hsid. split; [done|]. by destruct (negb (isReady room)).
  - done.
Qed.

Lemma consistent_on_confirmCards sid roomId cs cc s :
  consistent s -> consistent (exec (on_confirmCards sid roomId cs cc) s).1.
Proof.
  intros Hc. unfold on_confirmCards. rewrite exec_bind_get.
  destruct (notOwnerIn _ _ _); [done|]. rewrite exec_bind_modify.
  apply consistent_checkAllPlayersConfirmed.
  by eapply consistent_frame.
Qed.

Lemma consistent_on_readyForNextGame env sid roomId s :
  consistent s -> consistent (exec (on_readyForNextGame env sid roomId) s).1.
Proof.
  intros Hc. unfold on_readyForNextGame. rewrite exec_bind_get.
  destruct (notOwnerIn _ _ _); [done|]. rewrite exec_bind_modify.
  apply consistent_checkAllPlayersReadyForNextGame.
  by eapply consistent_frame.
Qed.

(** ** Accepted transfers *)

Lemma falsy_false p : falsy p = false <-> exists id, p = Some id /\ id <> "".
Proof.
  destruct p as [id|]; simpl.
  - rewrite bool_decide_eq_false. split; [by exists id|by intros (? & [= <-] & ?)].
  - split; [done|]. by intros (? & ? & _).
Qed.

Lemma on_transferPoints_accepted env s sid fromRoomId toRoomId amount q :
  Number.le amount Number.zero = false ->
  occupant s fromRoomId = Some sid -> sid <> "" ->
  occupant s toRoomId = Some q -> q <> "" ->
  seatIn SSummary s fromRoomId -> seatIn SSummary s toRoomId ->
  is_Some (playerPoints s !! fromRoomId) ->
  is_Some (playerPoints s !! toRoomId) ->
  step env sid (TransferPoints fromRoomId toRoomId amount) s =
    (transferred env fromRoomId toRoomId amount s,
     [Emit ToAll (pointsUpdate
        (playerPoints (transferred env fromRoomId toRoomId amount s)));
      Emit ToAll (transactionsUpdate
        (transactions (transferred env fromRoomId toRoomId amount s)))]).
Proof.
  intros Ha Hfrom Hsid Hto Hq Hsf Hst [vf Hvf] [vt Hvt].
  unfold step, handle, on_transferPoints.
  rewrite Ha, exec_bind_get.
  fold (seat s fromRoomId) (seat s toRoomId).
  fold (occupant s fromRoomId) (occupant s toRoomId).
  rewrite Hfrom, Hto. simpl falsy.
  rewrite !bool_decide_eq_false_2 by done. cbn [orb].
  apply status_seatIn in Hsf, Hst. unfold seat.
  rewrite !bool_decide_eq_false_2 by (unfold seat in *; by intros []).
  cbn [orb]. rewrite decide_False by (by intros []).
  rewrite exec_bind, exec_ensurePlayerPoints, Hvf. cbn [fst snd app].
  rewrite exec_bind, exec_ensurePlayerPoints, Hvt. cbn [fst snd app].
  by rewrite !exec_bind_modify, exec_bind_get, exec_bind_emit, exec_emit.
Qed.

Lemma consistent_ensurePlayerPoints k s :
  consistent s -> consistent (exec (ensurePlayerPoints k) s).1.
Proof.
  intros Hc. rewrite exec_ensurePlayerPoints. cbn [fst].
  destruct (playerPoints s !! k) eqn:Hk; [done|].
  eapply consistent_frame; [exact Hc|done|].
  intros k' [v Hv]. simpl. rewrite lookup_insert_ne; [by rewrite Hv|].
  congruence.
Qed.

Lemma consistent_on_transferPoints env sid fromRoomId toRoomId amount s :
  consistent s ->
  consistent (exec (on_transferPoints env sid fromRoomId toRoomId amount) s).1.
Proof.
  intros Hc. unfold on_transferPoints.
  destruct (Number.le amount Number.zero); [done|]. rewrite exec_bind_get.
  destruct (_ || _); [done|]. destruct (_ || _); [done|].
  destruct (decide _); [done|].
  rewrite exec_bind. cbn [fst].
  apply (consistent_ensurePlayerPoints fromRoomId) in Hc.
  rewrite exec_bind. cbn [fst].
  apply (consistent_ensurePlayerPoints toRoomId) in Hc.
  rewrite !exec_bind_modify, exec_bind_get, exec_bind_emit, exec_emit.
  cbn [fst].
  eapply consistent_frame; [exact Hc|done|].
  intros k [v Hv]. cbn [playerPoints set_transactions set_playerPoints].
  destruct (decide (toRoomId = k)) as [->|Ht];
    destruct (decide (fromRoomId = k)) as [->|Hf];
    repeat (rewrite lookup_alter_eq || rewrite lookup_alter_ne by done);
    rewrite Hv; simpl; eauto.
Qed.

Lemma consistent_on_disconnect sid s :
  consistent s -> consistent (exec (on_disconnect sid) s).1.
Proof.
  intros Hc. destruct (on_disconnect_state sid s) as (Hr & _ & _ & Hpts & _).
  cbn zeta in *. pose proof Hc as [Hk Hs Hp]. split.
  - by rewrite Hr, foldl_updateKey_keys.
  - intros k r. unfold seat. rewrite Hr.
    rewrite lookupKey_foldl_updateKey by done.
    case_decide; [|apply Hs].
    destruct (lookupKey k (rooms s)); [|done]. by intros [= <-].
  - intros k Hin. rewrite Hpts. by apply Hp.
Qed.

Lemma consistent_step env sid ev s :
  sid <> "" -> consistent s -> consistent (step env sid ev s).1.
Proof.
  intros Hsid Hc. unfold step. destruct ev; simpl.
  - done.
  - by apply consistent_on_joinRoom.
  - by apply consistent_on_toggleReady.
  - by apply consistent_on_confirmCards.
  - by apply consistent_on_readyForNextGame.
  - by apply consistent_on_transferPoints.
  - by apply consistent_on_disconnect.
Qed.

(** Every state of the server satisfies the invariant. *)
Lemma reachable_consistent s : reachable s -> consistent s.
Proof.
  induction 1 as [|s env sid ev _ IH Hsid _].
  - apply consistent_initial.
  - by apply consistent_step.
Qed.

Lemma reachable_run evs s :
  reachable s ->
  Forall (fun e => e.1.2 <> "" /\ deliverable e.2 = true) evs ->
  reachable (run evs s).
Proof.
  revert s. induction evs as [|[[env sid] ev] evs IH]; intros s Hs Hall; [done|].
  apply Forall_cons in Hall as [[Hsid Hev] Hall]. simpl.
  apply IH; [|done]. by constructor.
Qed.

(** ** Counting seats *)

Lemma occupiedIn_length_entries st (l : list (string * GameRoom)) :
  (forall e, e ∈ l -> status e.2 = st -> player e.2 <> None) ->
  length (omap (fun e : string * GameRoom => pair e.1 <$> player e.2)
            (filter (fun e => status e.2 = st /\ player e.2 <> None) l)) =
  length (filter (fun e : string * GameRoom => status e.2 = st) l).
Proof.
  induction l as [|[k r] l IH]; intros Hl; [done|].
  assert (forall e, e ∈ l -> status e.2 = st -> player e.2 <> None) as Hl'
    by (intros e He; apply Hl; by right).
  rewrite !filter_cons. simpl.
  destruct (decide (status r = st)) as [Hst|Hst].
  - pose proof (Hl (k, r) (list_elem_of_here _ _) Hst) as Hp. simpl in Hp.
    rewrite decide_True by done.
    destruct (player r) as [p|] eqn:Hpr; [|done].
    csimpl. rewrite Hpr. csimpl. f_equal. by apply IH.
  - rewrite decide_False by (by intros [? _]). by apply IH.
Qed.

(** In a state of the server, the seats in a status other than [empty] all
    have an occupant: [occupiedIn] lists each of them. *)
Lemma occupiedIn_length st s :
  consistent s -> st <> SEmpty ->
  length (occupiedIn st s) =
  length (filter (fun e => status e.2 = st) (rooms s)).
Proof.
  intros Hc Hst. apply occupiedIn_length_entries.
  intros [k r] Hin Hs Hp. simpl in *.
  apply (consistent_entry s k r Hc) in Hin.
  apply (consistent_seats s Hc) in Hin as [[H1 _] _]. apply Hst.
  rewrite <- Hs. by apply H1.
Qed.

Lemma seat_occupiedIn st s k r :
  consistent s -> st <> SEmpty -> seat s k = Some r -> status r = st ->
  exists p, player r = Some p /\ (k, p) ∈ occupiedIn st s.
Proof.
  intros Hc Hst Hr Hs.
  pose proof (consistent_seats s Hc k r Hr) as [[H1 H2] _].
  destruct (player r) as [p|] eqn:Hp; [|by destruct Hst; rewrite <- Hs; auto].
  exists p. split; [done|]. apply elem_of_occupiedIn. exists r.
  split; [by apply lookupKey_Some_elem|done].
Qed.

(** ** The deal reaches the occupants *)

Lemma startPlayer_emits env ps gc k r p s :
  player r = Some p -> connected env p = true ->
  (exec (startPlayer env ps gc (k, r)) s).2 =
    [Emit (ToSocket p)
       (gameStart (players gc !! p) (communityCards gc) ps k)].
Proof.
  intros Hp Hc. unfold startPlayer. rewrite exec_bind_modify, Hp, Hc.
  by rewrite exec_bind, exec_ensurePlayerPoints, exec_emit.
Qed.

Lemma startPlayers_emits env ps gc xs k r p s :
  (k, r) ∈ xs -> player r = Some p -> connected env p = true ->
  Emit (ToSocket p) (gameStart (players gc !! p) (communityCards gc) ps k)
    ∈ (exec (forEach xs (startPlayer env ps gc)) s).2.
Proof.
  intros Hin Hp Hc. revert s.
  induction xs as [|x xs IH]; intros s; [by apply elem_of_nil in Hin|].
  rewrite exec_forEach_cons. cbn [snd]. apply elem_of_app.
  apply elem_of_cons in Hin as [<-|Hin].
  - left. rewrite (startPlayer_emits env ps gc k r p) by done. by left.
  - right. by apply IH.
Qed.

(** C7.  When the Next-round condition holds (every seat in status
    [summary] has an occupant whose ready-for-next flag is true, and at
    least 2 seats are in status [summary]), [checkAllPlayersReadyForNextGame]
    sets every such seat to status [ready] with its ready flag true, clears
    all PlayedHand records and sets every ready-for-next flag to false,
    broadcasts these rooms, and evaluates the Start condition in the same
    step on these registries.  There the Start condition holds, so a new
    deal begins at once: every seat with an occupant ends the step in
    status [playing], and every connected occupant is sent its [gameStart]
    with the hand dealt to it. *)
Theorem next_round_rearms_and_redeals (env : Env) (s : State)
    (flags : gmap string bool) :
  reachable s ->
  let m0 := set_readyForNextGame (fun _ => flags) s in
  (forall k r, seat m0 k = Some r -> status r = SSummary ->
     exists p, player r = Some p /\ readyForNextGame m0 !! p = Some true) ->
  2 <= length (filter (fun e => status e.2 = SSummary) (rooms m0)) ->
  let m := rearmed m0 in
  let final := exec (checkAllPlayersReadyForNextGame env) m0 in
  let ps := omap (fun e => player e.2) (roomsWithPlayers m) in
  (forall k r, seat m0 k = Some r -> status r = SSummary ->
     seat m k = Some (mkGameRoom (player r) true (capacity r) SReady)) /\
  (forall k r, seat m0 k = Some r -> status r <> SSummary -> seat m k = Some r) /\
  playedCards m = [] /\
  (forall p b, readyForNextGame m !! p = Some b -> b = false) /\
  final = ((exec (checkAndStartGame env) m).1,
           Emit ToAll (roomsUpdate (rooms m))
             :: (exec (checkAndStartGame env) m).2) /\
  startFires env m /\
  2 <= length (roomsWithPlayers m) /\
  (forall k r, seat m0 k = Some r -> player r <> None ->
     seat final.1 k = Some (mkGameRoom (player r) false (capacity r) SPlaying)) /\
  (forall k r p, seat m0 k = Some r -> player r = Some p ->
     connected env p = true ->
     Emit (ToSocket p)
          (gameStart (players (dealCards (rand env) ps) !! p)
                     (communityCards (dealCards (rand env) ps)) ps k)
       ∈ final.2).
Proof.
  intros Hreach m0 Hflags Htwo m final ps.
  assert (consistent m0) as Hc0.
  { apply (consistent_frame s); [by apply reachable_consistent|done..]. }
  assert (consistent m) as Hc by (by apply consistent_rearmed).
  assert (nextRoundCondition m0) as Hcond.
  { split; [by rewrite occupiedIn_length|].
    intros [k p] (r & Hin & Hs & Hp)%elem_of_occupiedIn.
    apply (consistent_entry m0 k r Hc0) in Hin.
    destruct (Hflags k r Hin Hs) as (p' & Hp' & Hf).
    assert (p' = p) as -> by congruence.
    unfold isReadyForNext. simpl in *. by rewrite Hf. }
  assert (forall k r, seat m0 k = Some r -> status r = SSummary ->
            seat m k = Some (rearmRoom r)) as Hrearm.
  { intros k r Hr Hs. unfold m. rewrite rearmed_seat, Hr.
    destruct (seat_occupiedIn SSummary m0 k r) as (p & Hp & Hin); [done..|].
    rewrite decide_True; [done|].
    apply list_elem_of_fmap. by exists (k, p). }
  assert (forall k r, seat m0 k = Some r -> status r <> SSummary ->
            seat m k = Some r) as Hother.
  { intros k r Hr Hs. unfold m. rewrite rearmed_seat, Hr.
    rewrite decide_False; [done|].
    intros (r0 & p & Hr0 & Hs0 & _)%occupiedIn_seat; [|done]. congruence. }
  assert (forall k r, seat m0 k = Some r ->
            exists r', seat m k = Some r' /\ player r' = player r /\
                       capacity r' = capacity r) as Hsame.
  { intros k r Hr. destruct (decide (status r = SSummary)) as [Hs|Hs].
    - exists (rearmRoom r). split; [by apply Hrearm|done].
    - exists r. split; [by apply Hother|done]. }
  assert (startCondition m) as Hstart.
  { assert (forall e, e ∈ rooms m0 -> status e.2 = SSummary ->
              exists e', e' ∈ rooms m /\ e'.1 = e.1 /\
                         status e'.2 = SReady /\ player e'.2 <> None) as Hmove.
    { intros [k r] Hin Hs. simpl in *.
      apply (consistent_entry m0 k r Hc0) in Hin.
      exists (k, rearmRoom r). split; [|split; [done|split; [done|]]].
      - by apply lookupKey_Some_elem, Hrearm.
      - simpl. destruct (seat_occupiedIn SSummary m0 k r) as (p & -> & _); done. }
    assert ((filter (fun e => status e.2 = SSummary) (rooms m0)).*1
              ⊆ (filter (fun e => status e.2 = SReady /\ player e.2 <> None)
                   (rooms m)).*1) as Hsub.
    { intros k ([k' r] & -> & [Hs Hin]%list_elem_of_filter)%list_elem_of_fmap.
      destruct (Hmove _ Hin Hs) as (e' & Hin' & Hk & Hst & Hp).
      apply list_elem_of_fmap. exists e'. split; [done|].
      by apply list_elem_of_filter. }
    assert (2 <= length (filter (fun e => status e.2 = SReady /\ player e.2 <> None)
                           (rooms m))) as Hlen.
    { etrans; [exact Htwo|]. rewrite <- !(length_fmap fst).
      apply submseteq_length, NoDup_submseteq; [|exact Hsub].
      apply (sublist_NoDup _ (rooms m0).*1); [by apply consistent_NoDup|].
      apply fmap_sublist, sublist_filter. }
    assert (forall (P Q : string * GameRoom -> Prop)
              `{!forall e, Decision (P e)} `{!forall e, Decision (Q e)}
              (l : list (string * GameRoom)),
              (forall e, P e -> Q e) ->
              length (filter P l) <= length (filter Q l)) as Hmono.
    { intros P Q ? ? l HPQ. induction l as [|e l IH]; [done|].
      rewrite !filter_cons. destruct (decide (P e)) as [HP|HP].
      - rewrite decide_True by auto. simpl. lia.
      - destruct (decide (Q e)); simpl; lia. }
    split.
    - etrans; [|apply (Hmono (fun e => status e.2 = SReady /\ player e.2 <> None));
                 by intros e [? _]]. lia.
    - etrans; [exact Hlen|]. apply Hmono. by intros e [_ ?]. }
  split; [exact Hrearm|]. split; [exact Hother|]. split; [done|].
  split.
  { intros p b. unfold m. rewrite rearmed_flags.
    destruct (readyForNextGame m0 !! p); simpl; congruence. }
  assert (final = ((exec (checkAndStartGame env) m).1,
                   Emit ToAll (roomsUpdate (rooms m))
                     :: (exec (checkAndStartGame env) m).2)) as Hfinal.
  { unfold final. rewrite exec_checkAllPlayersReadyForNextGame.
    by rewrite (proj2 (nextRoundCondition_guard m0) Hcond). }
  split; [exact Hfinal|]. split; [by apply startFires_iff|].
  split; [apply Hstart|]. split.
  - intros k r Hr Hp. rewrite Hfinal. cbn [fst].
    destruct (Hsame k r Hr) as (r' & Hr' & Hp' & Hcap).
    rewrite checkAndStartGame_seat, Hr' by done.
    rewrite decide_True by congruence. unfold startRoom. by rewrite Hp', Hcap.
  - intros k r p Hr Hp Hconn. rewrite Hfinal. cbn [snd]. right.
    rewrite exec_checkAndStartGame, decide_True by done. cbn [snd].
    apply elem_of_app. left.
    destruct (Hsame k r Hr) as (r' & Hr' & Hp' & Hcap).
    apply (startPlayers_emits env _ _ _ k r'); [|congruence|done].
    apply elem_of_roomsWithPlayers. split; [|congruence].
    by apply lookupKey_Some_elem.
Qed.

(** ** Transfers between seats in the summary phase *)

Lemma consistent_occupant s k p :
  consistent s -> occupant s k = Some p ->
  p <> "" /\ is_Some (playerPoints s !! k).
Proof.
  intros Hc Ho. unfold occupant in Ho.
  destruct (seat s k) as [r|] eqn:Hr; [|done]. simpl in Ho. split.
  - pose proof (consistent_seats s Hc k r Hr) as [_ Hne]. congruence.
  - eapply consistent_points, consistent_seat_key; done.
Qed.

(** C8, amended.  For distinct seats A and B, both occupied and in status
    [summary], and any amount n > 0: the transfer of n from A to B requested
    by the occupant of A, followed by the transfer of n from B to A
    requested by the occupant of B, appends exactly the 2 transactions to
    the transaction log, leaves the balance a of A at (a - n) + n and the
    balance b of B at (b + n) - n, as the number arithmetic computes them,
    and leaves every other balance as it was.  When a, b and n are integers
    and they, a - n and b + n are safe integers (at most 2^53 - 1 in
    magnitude), the first transfer debits A and credits B by exactly n and
    the second restores the balance of every seat to its value before the
    two transfers. *)
Theorem transfer_there_and_back (env1 env2 : Env) (s : State)
    (a b A B : string) (n : Number.number) :
  reachable s ->
  A <> B ->
  Number.lt Number.zero n = true ->
  occupant s A = Some a -> occupant s B = Some b ->
  seatIn SSummary s A -> seatIn SSummary s B ->
  let s1 := (step env1 a (TransferPoints A B n) s).1 in
  let s2 := (step env2 b (TransferPoints B A n) s1).1 in
  (exists va vb,
     playerPoints s !! A = Some va /\ playerPoints s !! B = Some vb /\
     playerPoints s1 !! A = Some (Number.sub va n) /\
     playerPoints s1 !! B = Some (Number.add vb n) /\
     playerPoints s2 !! A = Some (Number.add (Number.sub va n) n) /\
     playerPoints s2 !! B = Some (Number.sub (Number.add vb n) n) /\
     (forall za zb zn,
        va = Number.ofZ za -> vb = Number.ofZ zb -> n = Number.ofZ zn ->
        Number.isSafeInteger za -> Number.isSafeInteger zb ->
        Number.isSafeInteger zn ->
        Number.isSafeInteger (za - zn) -> Number.isSafeInteger (zb + zn) ->
        playerPoints s1 !! A = Some (Number.ofZ (za - zn)) /\
        playerPoints s1 !! B = Some (Number.ofZ (zb + zn)) /\
        playerPoints s2 !! A = Some va /\ playerPoints s2 !! B = Some vb /\
        playerPoints s2 = playerPoints s)) /\
  (forall k, k <> A -> k <> B -> playerPoints s2 !! k = playerPoints s !! k) /\
  transactions s2 =
    transactions s ++ [mkPointTransaction A B n (now env1);
                       mkPointTransaction B A n (now env2)] /\
  length (transactions s2) = length (transactions s) + 2.
Proof.
  intros Hreach HAB Hn Ha Hb HsA HsB s1 s2.
  pose proof (reachable_consistent s Hreach) as Hc.
  pose proof (lt_zero_not_le n Hn) as Hle.
  destruct (consistent_occupant s A a Hc Ha) as [Hane [va Hva]].
  destruct (consistent_occupant s B b Hc Hb) as [Hbne [vb Hvb]].
  assert (s1 = transferred env1 A B n s) as Hs1.
  { unfold s1. by rewrite (on_transferPoints_accepted env1 s a A B n b). }
  assert (playerPoints s1 !! A = Some (Number.sub va n)) as H1A.
  { rewrite Hs1. simpl. by rewrite lookup_alter_ne, lookup_alter_eq, Hva. }
  assert (playerPoints s1 !! B = Some (Number.add vb n)) as H1B.
  { rewrite Hs1. simpl.
    by rewrite lookup_alter_eq, lookup_alter_ne, Hvb by done. }
  assert (s2 = transferred env2 B A n s1) as Hs2.
  { unfold s2. rewrite (on_transferPoints_accepted env2 s1 b B A n a);
      try done; by rewrite ?Hs1. }
  assert (playerPoints s2 !! A = Some (Number.add (Number.sub va n) n)) as H2A.
  { rewrite Hs2. cbn [transferred playerPoints set_transactions
                        set_playerPoints].
    by rewrite lookup_alter_eq, lookup_alter_ne, H1A by done. }
  assert (playerPoints s2 !! B = Some (Number.sub (Number.add vb n) n)) as H2B.
  { rewrite Hs2. cbn [transferred playerPoints set_transactions
                        set_playerPoints].
    by rewrite lookup_alter_ne, lookup_alter_eq, H1B by done. }
  assert (forall k, k <> A -> k <> B ->
            playerPoints s2 !! k = playerPoints s !! k) as Hother.
  { intros k HkA HkB. rewrite Hs2, Hs1. simpl.
    by rewrite !lookup_alter_ne by done. }
  split; [|split; [done|]].
  - exists va, vb. do 6 (split; [done|]).
    intros za zb zn -> -> -> Hza Hzb Hzn Hzan Hzbn.
    rewrite H1A, H1B, H2A, H2B.
    rewrite (sub_exact za zn), (add_exact zb zn) by done.
    assert (Number.add (Number.ofZ (za - zn)) (Number.ofZ zn) = Number.ofZ za)
      as HbackA.
    { rewrite add_exact; [f_equal; lia|done|done|].
      by replace (za - zn + zn)%Z with za by lia. }
    assert (Number.sub (Number.ofZ (zb + zn)) (Number.ofZ zn) = Number.ofZ zb)
      as HbackB.
    { rewrite sub_exact; [f_equal; lia|done|done|].
      by replace (zb + zn - zn)%Z with zb by lia. }
    rewrite (sub_exact za zn), (add_exact zb zn), HbackA, HbackB in * by done.
    do 4 (split; [done|]).
    apply map_eq. intros k.
    destruct (decide (k = A)) as [->|HkA]; [by rewrite H2A, Hva|].
    destruct (decide (k = B)) as [->|HkB]; [by rewrite H2B, Hvb|].
    by apply Hother.
  - assert (transactions s2 =
              transactions s ++ [mkPointTransaction A B n (now env1);
                                 mkPointTransaction B A n (now env2)]) as ->.
    { rewrite Hs2, Hs1. simpl. by rewrite <- app_assoc. }
    split; [done|]. rewrite length_app. simpl. lia.
Qed.

(** C10, amended.  A transfer whose source and target are the same seat,
    requested by the occupant of that seat while it is in status [summary],
    with an amount n > 0, is accepted: the balance v of the seat is debited,
    then credited, by n, which leaves it at (v - n) + n as the number
    arithmetic computes it and leaves every other balance as it was; one
    transaction from the seat to itself of amount n is appended to the log,
    and the balances and the new log are broadcast to all parties.  When v
    and n are integers and they and v - n are safe integers (at most
    2^53 - 1 in magnitude), every balance is as before. *)
Theorem self_transfer_logged (env : Env) (s : State) (a A : string)
    (n : Number.number) :
  reachable s ->
  Number.lt Number.zero n = true ->
  occupant s A = Some a ->
  seatIn SSummary s A ->
  let tx := mkPointTransaction A A n (now env) in
  let s' := (step env a (TransferPoints A A n) s).1 in
  step env a (TransferPoints A A n) s =
    (set_transactions (fun txs => txs ++ [tx])
       (set_playerPoints (fun _ => playerPoints s') s),
     [Emit ToAll (pointsUpdate (playerPoints s'));
      Emit ToAll (transactionsUpdate (transactions s ++ [tx]))]) /\
  (exists v, playerPoints s !! A = Some v /\
     alter (fun v => Number.sub v n) A (playerPoints s) !! A
       = Some (Number.sub v n) /\
     playerPoints s' !! A = Some (Number.add (Number.sub v n) n) /\
     (forall zv zn,
        v = Number.ofZ zv -> n = Number.ofZ zn ->
        Number.isSafeInteger zv -> Number.isSafeInteger zn ->
        Number.isSafeInteger (zv - zn) ->
        playerPoints s' = playerPoints s /\
        step env a (TransferPoints A A n) s =
          (set_transactions (fun txs => txs ++ [tx]) s,
           [Emit ToAll (pointsUpdate (playerPoints s));
            Emit ToAll (transactionsUpdate (transactions s ++ [tx]))]))) /\
  (forall k, k <> A -> playerPoints s' !! k = playerPoints s !! k).
Proof.
  intros Hreach Hn Ha Hs tx s'.
  pose proof (reachable_consistent s Hreach) as Hc.
  pose proof (lt_zero_not_le n Hn) as Hle.
  destruct (consistent_occupant s A a Hc Ha) as [Hane [va Hva]].
  assert (step env a (TransferPoints A A n) s =
            (transferred env A A n s,
             [Emit ToAll (pointsUpdate (playerPoints (transferred env A A n s)));
              Emit ToAll (transactionsUpdate
                            (transactions (transferred env A A n s)))])) as Hstep
    by (by rewrite (on_transferPoints_accepted env s a A A n a)).
  assert (s' = transferred env A A n s) as Hs' by (unfold s'; by rewrite Hstep).
  assert (playerPoints s' !! A = Some (Number.add (Number.sub va n) n)) as HA.
  { rewrite Hs'. simpl. by rewrite !lookup_alter_eq, Hva. }
  assert (forall k, k <> A -> playerPoints s' !! k = playerPoints s !! k)
    as Hother.
  { intros k Hk. rewrite Hs'. simpl. by rewrite !lookup_alter_ne. }
  split; [|split; [|done]].
  - rewrite Hstep, Hs'. done.
  - exists va. split; [done|]. split; [by rewrite lookup_alter_eq, Hva|].
    split; [done|].
    intros zv zn -> -> Hzv Hzn Hzvn.
    assert (playerPoints s' = playerPoints s) as Hsame.
    { apply map_eq. intros k. destruct (decide (k = A)) as [->|Hk];
        [|by apply Hother].
      rewrite HA, Hva, sub_exact, add_exact; try done; [f_equal; f_equal; lia|].
      by replace (zv - zn + zn)%Z with zv by lia. }
    split; [done|]. rewrite Hstep. rewrite Hs' in Hsame. clear - Hsame.
    destruct s as [rs pcs flags points txs].
    unfold transferred, set_transactions, set_playerPoints in *.
    cbn [playerPoints transactions rooms playedCards readyForNextGame] in *.
    by rewrite Hsame.
Qed.

(** ** What the handlers emit *)

Lemma forEach_outputs {A} (P : Emission -> Prop) (xs : list A)
    (body : A -> M unit) s :
  (forall x s', Forall P (exec (body x) s').2) ->
  Forall P (exec (forEach xs body) s).2.
Proof.
  intros Hbody. revert s. induction xs as [|x xs IH]; intros s.
  - constructor.
  - rewrite exec_forEach_cons. cbn [snd]. apply Forall_app. split; auto.
Qed.

Lemma startPlayer_outputs env ps gc e s :
  Forall (fun e => kindOf (message e) = KGameStart)
         (exec (startPlayer env ps gc e) s).2.
Proof.
  destruct e as [k r]. unfold startPlayer. rewrite exec_bind_modify.
  destruct (player r) as [p|]; [|constructor].
  destruct (connected env p); [|constructor].
  rewrite exec_bind, exec_ensurePlayerPoints, exec_emit. cbn [snd app].
  by repeat constructor.
Qed.

Lemma checkAndStartGame_outputs env s :
  Forall (fun e => kindOf (message e) ∈ [KRoomsUpdate; KGameStart; KPointsUpdate])
         (exec (checkAndStartGame env) s).2.
Proof.
  rewrite exec_checkAndStartGame. case_decide; [|constructor]. cbn [snd].
  apply Forall_app. split.
  - eapply Forall_impl; [apply forEach_outputs, startPlayer_outputs|].
    intros e ->. set_solver.
  - repeat constructor; simpl; set_solver.
Qed.

(** Without a start, [checkAndStartGame] emits nothing. *)
Lemma checkAndStartGame_silent env s :
  ~ startCondition s -> (exec (checkAndStartGame env) s).2 = [].
Proof. intros H. by rewrite checkAndStartGame_idle. Qed.

Lemma on_transferPoints_rooms env sid f t n s :
  rooms (exec (on_transferPoints env sid f t n) s).1 = rooms s.
Proof.
  unfold on_transferPoints.
  destruct (Number.le n Number.zero); [done|]. rewrite exec_bind_get.
  destruct (_ || _); [done|]. destruct (_ || _); [done|].
  destruct (decide _); [done|].
  rewrite exec_bind, exec_ensurePlayerPoints. cbn [fst snd app].
  rewrite exec_bind, exec_ensurePlayerPoints. cbn [fst snd app].
  rewrite !exec_bind_modify, exec_bind_get, exec_bind_emit, exec_emit.
  cbn [fst]. by repeat (case_match; simpl).
Qed.

Lemma on_transferPoints_outputs env sid f t n s :
  Forall (fun e => kindOf (message e) ∈ [KError; KPointsUpdate; KTransactionsUpdate])
         (exec (on_transferPoints env sid f t n) s).2.
Proof.
  unfold on_transferPoints.
  destruct (Number.le n Number.zero); [repeat constructor; simpl; set_solver|].
  rewrite exec_bind_get.
  destruct (_ || _); [repeat constructor; simpl; set_solver|].
  destruct (_ || _); [repeat constructor; simpl; set_solver|].
  destruct (decide _); [repeat constructor; simpl; set_solver|].
  rewrite exec_bind, exec_ensurePlayerPoints. cbn [fst snd app].
  rewrite exec_bind, exec_ensurePlayerPoints. cbn [fst snd app].
  rewrite !exec_bind_modify, exec_bind_get, exec_bind_emit, exec_emit.
  cbn [snd]. repeat constructor; simpl; set_solver.
Qed.

Lemma on_disconnect_outputs sid s :
  Forall (fun e => kindOf (message e) ∈ [KRoomsUpdate])
         (exec (on_disconnect sid) s).2.
Proof.
  unfold on_disconnect.
  rewrite exec_bind_modify, exec_bind_modify, exec_bind_get.
  rewrite (exec_forEach_guard (fun e => player e.2 = Some sid)).
  apply forEach_outputs. intros x s'. rewrite exec_leaveRoom. cbn [snd].
  repeat constructor; simpl; set_solver.
Qed.

(** Every handler emits only the outbound events of its inbound event. *)
Lemma step_outbound env sid ev s :
  Forall (fun e => kindOf (message e) ∈ outboundOf ev) (step env sid ev s).2.
Proof.
  unfold step. destruct ev as [|roomId|roomId|roomId cs cc|roomId|f t n|];
    cbn [handle outboundOf].
  - unfold on_connection.
    rewrite exec_bind_get, !exec_bind_emit, exec_emit. cbn [snd].
    repeat constructor; simpl; set_solver.
  - unfold on_joinRoom. rewrite exec_bind_get.
    destruct (joinRefused _); [repeat constructor; simpl; set_solver|].
    rewrite exec_bind.
    rewrite (exec_forEach_guard (fun e => player e.2 = Some sid)).
    rewrite (exec_forEach_updateKey fst). cbn [fst snd app].
    rewrite exec_bind_modify, exec_bind_get, !exec_bind_emit, exec_emit.
    cbn [snd]. repeat constructor; simpl; set_solver.
  - unfold on_toggleReady. rewrite exec_bind_get.
    destruct (lookupKey roomId (rooms s)); [|constructor].
    destruct (decide _); [constructor|].
    rewrite exec_bind_modify, exec_bind_get, exec_bind_emit. cbn [snd].
    constructor; [simpl; set_solver|apply checkAndStartGame_outputs].
  - unfold on_confirmCards. rewrite exec_bind_get.
    destruct (notOwnerIn _ _ _); [constructor|].
    rewrite exec_bind_modify, exec_checkAllPlayersConfirmed.
    destruct (summarizeGuard _); [|constructor]. cbn [snd].
    repeat constructor; simpl; set_solver.
  - unfold on_readyForNextGame. rewrite exec_bind_get.
    destruct (notOwnerIn _ _ _); [constructor|].
    rewrite exec_bind_modify, exec_checkAllPlayersReadyForNextGame.
    destruct (nextRoundGuard _); [|constructor]. cbn [snd].
    constructor; [simpl; set_solver|apply checkAndStartGame_outputs].
  - apply on_transferPoints_outputs.
  - apply on_disconnect_outputs.
Qed.

Lemma emits_outbound env sid ev s k :
  emits k (step env sid ev s).2 -> k ∈ outboundOf ev.
Proof.
  intros (e & He & <-).
  pose proof (step_outbound env sid ev s) as H.
  rewrite Forall_forall in H. by apply H.
Qed.

(** ** Which statuses the handlers write *)

Lemma becomes_noneBecomes st s s' : noneBecomes st s s' -> ~ becomes st s s'.
Proof. intros H (k & Hk & Hn). by apply Hn, H. Qed.

Lemma noneBecomes_refl st s : noneBecomes st s s.
Proof. by intros k. Qed.

Lemma noneBecomes_trans st s1 s2 s3 :
  noneBecomes st s1 s2 -> noneBecomes st s2 s3 -> noneBecomes st s1 s3.
Proof. intros H12 H23 k Hk. by apply H12, H23. Qed.

Lemma noneBecomes_frame st s s' : rooms s' = rooms s -> noneBecomes st s s'.
Proof. intros Hr k. unfold seatIn, seat. by rewrite Hr. Qed.

Lemma noneBecomes_updateKey st k f s :
  (forall r, status (f r) <> st) ->
  noneBecomes st s (set_rooms (updateKey k f) s).
Proof.
  intros Hf k' (r' & Hr' & Hs). unfold seat in Hr'. simpl in Hr'.
  rewrite lookupKey_updateKey in Hr'.
  destruct (decide (k' = k)) as [->|]; [|by exists r'].
  destruct (lookupKey k (rooms s)) as [r|]; [|done].
  injection Hr' as <-. by destruct (Hf r).
Qed.

Lemma noneBecomes_foldl st ks f s :
  (forall r, status (f r) <> st) ->
  noneBecomes st s
    (set_rooms (fun rs => foldl (fun o k => updateKey k f o) rs ks) s).
Proof.
  intros Hf. revert s. induction ks as [|k ks IH]; intros s.
  - apply noneBecomes_frame. done.
  - eapply noneBecomes_trans; [by apply (noneBecomes_updateKey st k f)|].
    apply (IH (set_rooms (updateKey k f) s)).
Qed.

Lemma noneBecomes_on_joinRoom st sid roomId s :
  st <> SEmpty -> st <> SWaiting ->
  noneBecomes st s (exec (on_joinRoom sid roomId) s).1.
Proof.
  intros H1 H2. destruct (joinRefused (lookupKey roomId (rooms s))) eqn:Hg.
  { unfold on_joinRoom. rewrite exec_bind_get, Hg. apply noneBecomes_refl. }
  rewrite on_joinRoom_state by done.
  eapply noneBecomes_trans; cycle 1.
  - apply noneBecomes_updateKey. intros r. simpl. congruence.
  - apply noneBecomes_foldl. intros r. simpl. congruence.
Qed.

Lemma noneBecomes_on_disconnect st sid s :
  st <> SEmpty -> noneBecomes st s (exec (on_disconnect sid) s).1.
Proof.
  intros H1. destruct (on_disconnect_state sid s) as (Hr & _).
  cbn zeta in Hr. intros k. unfold seatIn, seat. rewrite Hr.
  apply (noneBecomes_foldl st _ vacateRoom s). intros r. simpl. congruence.
Qed.

Lemma noneBecomes_checkAllPlayersConfirmed st s :
  st <> SSummary -> noneBecomes st s (exec checkAllPlayersConfirmed s).1.
Proof.
  intros H1. rewrite exec_checkAllPlayersConfirmed.
  destruct (summarizeGuard s); [|apply noneBecomes_refl]. cbn [fst].
  eapply noneBecomes_trans; cycle 1.
  - by apply noneBecomes_frame.
  - apply noneBecomes_foldl. intros r. simpl. congruence.
Qed.

Lemma noneBecomes_checkAndStartGame st env s :
  st <> SPlaying -> noneBecomes st s (exec (checkAndStartGame env) s).1.
Proof.
  intros H1. rewrite exec_checkAndStartGame.
  case_decide; [|apply noneBecomes_refl]. cbn [fst].
  intros k. unfold seatIn, seat. rewrite startPlayers_rooms.
  apply (noneBecomes_foldl st _ startRoom s). intros r. simpl. congruence.
Qed.

Lemma noneBecomes_toggled st roomId s :
  st <> SReady -> st <> SWaiting ->
  noneBecomes st s (set_rooms (updateKey roomId toggleRoom) s).
Proof.
  intros H1 H2. apply noneBecomes_updateKey. intros r. unfold toggleRoom.
  simpl. destruct (negb (isReady r)); congruence.
Qed.

Lemma noneBecomes_rearmed st s : st <> SReady -> noneBecomes st s (rearmed s).
Proof.
  intros H1. unfold rearmed.
  eapply noneBecomes_trans; cycle 1.
  - by apply noneBecomes_frame.
  - apply noneBecomes_foldl. intros r. simpl. congruence.
Qed.

(** ** Occupancy through the handlers that can start a game *)

Lemma occupied_updateKey k f (o : list (string * GameRoom)) :
  (forall r, player (f r) = player r) ->
  length (filter (fun e => player e.2 <> None) (updateKey k f o)) =
  length (filter (fun e : string * GameRoom => player e.2 <> None) o).
Proof.
  intros Hf. induction o as [|[k0 r0] o IH]; [done|]. simpl.
  case_decide.
  - rewrite !filter_cons. simpl. rewrite Hf.
    by destruct (decide (player r0 <> None)).
  - rewrite !filter_cons. simpl.
    destruct (decide (player r0 <> None)); simpl; by rewrite IH.
Qed.

Lemma occupied_foldl ks f (o : list (string * GameRoom)) :
  (forall r, player (f r) = player r) ->
  length (filter (fun e => player e.2 <> None)
            (foldl (fun o k => updateKey k f o) o ks)) =
  length (filter (fun e : string * GameRoom => player e.2 <> None) o).
Proof.
  intros Hf. revert o. induction ks as [|k ks IH]; intros o; [done|].
  cbn [foldl]. by rewrite IH, occupied_updateKey.
Qed.

Lemma roomsWithPlayers_toggled roomId s :
  length (roomsWithPlayers (set_rooms (updateKey roomId toggleRoom) s)) =
  length (roomsWithPlayers s).
Proof. unfold roomsWithPlayers. simpl. by apply occupied_updateKey. Qed.

Lemma roomsWithPlayers_rearmed s :
  length (roomsWithPlayers (rearmed s)) = length (roomsWithPlayers s).
Proof. unfold roomsWithPlayers, rearmed. simpl. by apply occupied_foldl. Qed.

Lemma not_emits_nil k : ~ emits k [].
Proof. intros (e & He & _). by apply elem_of_nil in He. Qed.

Lemma emits_cons k e out :
  emits k (e :: out) <-> kindOf (message e) = k \/ emits k out.
Proof.
  unfold emits. split.
  - intros (e' & [->|He]%elem_of_cons & Hk); [by left|right; by exists e'].
  - intros [Hk|(e' & He & Hk)]; [exists e; split; [by left|done]|].
    exists e'. split; [by right|done].
Qed.

(** A step that shows the Start transition is taken with at least 2
    occupied seats. *)
Lemma step_startObserved env sid ev s :
  startObserved s (step env sid ev s) -> 2 <= length (roomsWithPlayers s).
Proof.
  unfold startObserved, step.
  destruct ev as [|roomId|roomId|roomId cs cc|roomId|f t n|].
  - intros [Hb|He].
    + by apply becomes_noneBecomes in Hb; [|apply noneBecomes_refl].
    + apply (emits_outbound env sid Connection) in He. absurd_kind He.
  - intros [Hb|He].
    + by apply becomes_noneBecomes in Hb; [|apply noneBecomes_on_joinRoom].
    + apply (emits_outbound env sid (JoinRoom roomId)) in He. absurd_kind He.
  - cbn [handle]. unfold on_toggleReady. rewrite exec_bind_get.
    destruct (lookupKey roomId (rooms s)) as [room|]; cycle 1.
    { intros [Hb|He]; [|by apply not_emits_nil in He].
      by apply becomes_noneBecomes in Hb; [|apply noneBecomes_refl]. }
    destruct (decide _).
    { intros [Hb|He]; [|by apply not_emits_nil in He].
      by apply becomes_noneBecomes in Hb; [|apply noneBecomes_refl]. }
    rewrite exec_bind_modify, exec_bind_get, exec_bind_emit. cbn [fst snd].
    destruct (decide (startCondition
                        (set_rooms (updateKey roomId toggleRoom) s)))
      as [[_ Hs]|Hs].
    { intros _. by rewrite roomsWithPlayers_toggled in Hs. }
    rewrite checkAndStartGame_idle by done. cbn [fst snd].
    intros [Hb|He].
    + by apply becomes_noneBecomes in Hb; [|apply noneBecomes_toggled].
    + apply emits_cons in He as [He|He]; [done|by apply not_emits_nil in He].
  - intros [Hb|He].
    + apply becomes_noneBecomes in Hb; [done|]. cbn [handle fst].
      unfold on_confirmCards. rewrite exec_bind_get.
      destruct (notOwnerIn _ _ _); [apply noneBecomes_refl|].
      rewrite exec_bind_modify.
      eapply noneBecomes_trans;
        [|by apply noneBecomes_checkAllPlayersConfirmed].
      by apply noneBecomes_frame.
    + apply (emits_outbound env sid (ConfirmCards roomId cs cc)) in He.
      absurd_kind He.
  - cbn [handle]. unfold on_readyForNextGame. rewrite exec_bind_get.
    destruct (notOwnerIn _ _ _).
    { intros [Hb|He]; [|by apply not_emits_nil in He].
      by apply becomes_noneBecomes in Hb; [|apply noneBecomes_refl]. }
    rewrite exec_bind_modify, exec_checkAllPlayersReadyForNextGame.
    destruct (nextRoundGuard _); cycle 1.
    { intros [Hb|He]; [|by apply not_emits_nil in He].
      by apply becomes_noneBecomes in Hb; [|apply noneBecomes_frame]. }
    cbn [fst snd].
    destruct (decide (startCondition
                        (rearmed (set_readyForNextGame <[sid := true]> s))))
      as [[_ Hs]|Hs].
    { intros _. by rewrite roomsWithPlayers_rearmed in Hs. }
    rewrite checkAndStartGame_idle by done. cbn [fst snd].
    intros [Hb|He].
    + apply becomes_noneBecomes in Hb; [done|].
      eapply noneBecomes_trans; [|by apply noneBecomes_rearmed].
      by apply noneBecomes_frame.
    + apply emits_cons in He as [He|He]; [done|by apply not_emits_nil in He].
  - intros [Hb|He].
    + apply becomes_noneBecomes in Hb; [done|].
      apply noneBecomes_frame, on_transferPoints_rooms.
    + apply (emits_outbound env sid (TransferPoints f t n)) in He. absurd_kind He.
  - intros [Hb|He].
    + by apply becomes_noneBecomes in Hb; [|apply noneBecomes_on_disconnect].
    + apply (emits_outbound env sid Disconnect) in He. absurd_kind He.
Qed.

(** ** The Summarize transition, seen from the seats *)

Lemma summarizeCondition_seats m :
  consistent m -> summarizeCondition m ->
  (forall k r, seat m k = Some r -> status r = SPlaying ->
     exists p h, player r = Some p /\
                 lookupKey p (playedCards m) = Some h /\ confirmed h = true) /\
  2 <= length (filter (fun e => status e.2 = SPlaying) (rooms m)).
Proof.
  intros Hc [Hall Htwo]. split.
  - intros k r Hr Hs.
    destruct (seat_occupiedIn SPlaying m k r) as (p & Hp & Hin); [done..|].
    apply Hall in Hin. unfold isConfirmed in Hin. simpl in Hin.
    exists p. destruct (lookupKey p (playedCards m)) as [h|] eqn:Hh; [|done].
    by exists h.
  - by rewrite <- occupiedIn_length.
Qed.

Lemma noneBecomes_summary_step env sid ev s :
  (forall roomId cs cc, ev <> ConfirmCards roomId cs cc) ->
  noneBecomes SSummary s (step env sid ev s).1.
Proof.
  intros Hev. unfold step.
  destruct ev as [|roomId|roomId|roomId cs cc|roomId|f t n|]; cbn [handle].
  - apply noneBecomes_refl.
  - by apply noneBecomes_on_joinRoom.
  - unfold on_toggleReady. rewrite exec_bind_get.
    destruct (lookupKey roomId (rooms s)); [|apply noneBecomes_refl].
    destruct (decide _); [apply noneBecomes_refl|].
    rewrite exec_bind_modify, exec_bind_get, exec_bind_emit. cbn [fst].
    eapply noneBecomes_trans; cycle 1.
    + by apply noneBecomes_checkAndStartGame.
    + by apply noneBecomes_toggled.
  - by destruct (Hev roomId cs cc).
  - unfold on_readyForNextGame. rewrite exec_bind_get.
    destruct (notOwnerIn _ _ _); [apply noneBecomes_refl|].
    rewrite exec_bind_modify, exec_checkAllPlayersReadyForNextGame.
    destruct (nextRoundGuard _); [|by apply noneBecomes_frame]. cbn [fst].
    eapply noneBecomes_trans; cycle 1.
    + by apply noneBecomes_checkAndStartGame.
    + eapply noneBecomes_trans; cycle 1.
      * by apply noneBecomes_rearmed.
      * by apply noneBecomes_frame.
  - apply noneBecomes_frame, on_transferPoints_rooms.
  - by apply noneBecomes_on_disconnect.
Qed.

(** A step that shows the Summarize transition is the confirmation of a
    hand, after which every seat that was playing has a confirmed hand. *)
Lemma step_summarizeObserved env sid ev s :
  reachable s ->
  summarizeObserved s (step env sid ev s) ->
  (exists roomId cs cc, ev = ConfirmCards roomId cs cc) /\
  (forall k r, seat s k = Some r -> status r = SPlaying ->
     exists p h, player r = Some p /\
       lookupKey p (playedCards (step env sid ev s).1) = Some h /\
       confirmed h = true) /\
  2 <= length (filter (fun e => status e.2 = SPlaying) (rooms s)).
Proof.
  intros Hreach Hobs.
  assert (exists roomId cs cc, ev = ConfirmCards roomId cs cc)
    as (roomId & cs & cc & ->).
  { destruct ev as [|roomId|roomId|roomId cs cc|roomId|f t n|];
      try (by exists roomId, cs, cc); exfalso;
      (destruct Hobs as [Hb|He];
       [by apply becomes_noneBecomes in Hb;
          [|apply noneBecomes_summary_step]
       |apply emits_outbound in He; absurd_kind He]). }
  split; [by exists roomId, cs, cc|].
  revert Hobs. unfold step, summarizeObserved. cbn [handle].
  unfold on_confirmCards. rewrite exec_bind_get.
  destruct (notOwnerIn _ _ _).
  { intros [Hb|He]; [|by apply not_emits_nil in He].
    by apply becomes_noneBecomes in Hb; [|apply noneBecomes_refl]. }
  rewrite exec_bind_modify.
  set (m := set_playedCards
              (setKey sid (mkPlayedCard sid roomId cs cc true)) s).
  rewrite checkAllPlayersConfirmed_playedCards.
  destruct (summarizeGuard m) eqn:Hg.
  - intros _. apply summarizeCondition_guard in Hg.
    apply (summarizeCondition_seats m); [|done].
    apply (consistent_frame s); [by apply reachable_consistent|done..].
  - rewrite exec_checkAllPlayersConfirmed, Hg. cbn [fst snd].
    intros [Hb|He]; [|by apply not_emits_nil in He].
    by apply becomes_noneBecomes in Hb; [|apply noneBecomes_frame].
Qed.

(** ** The transitions and their conditions *)

(** C5.  The Start transition never fires when fewer than 2 seats have an
    occupant, however many seats are [ready]: [checkAndStartGame] then
    changes no registry and emits nothing.  It fires exactly when at least
    1 seat has status [ready] and at least 2 seats have an occupant; when
    it fires, every seat with an occupant moves to status [playing] with
    its ready flag cleared, and the stale played hands are dropped.  No
    handler starts a game otherwise: whenever the handling of an inbound
    event moves a seat to [playing] or emits a [gameStart], at least 2
    seats have an occupant. *)
Theorem start_needs_two_occupied (env : Env) (s : State) :
  (length (roomsWithPlayers s) < 2 ->
     exec (checkAndStartGame env) s = (s, []) /\ ~ startFires env s) /\
  (startFires env s <->
     1 <= length (filter (fun e => status e.2 = SReady) (rooms s)) /\
     2 <= length (filter (fun e => player e.2 <> None) (rooms s))) /\
  (startFires env s ->
     (forall k r, seat s k = Some r -> player r <> None ->
        seat (exec (checkAndStartGame env) s).1 k =
          Some (mkGameRoom (player r) false (capacity r) SPlaying)) /\
     playedCards (exec (checkAndStartGame env) s).1 = []) /\
  (forall sid ev,
     startObserved s (step env sid ev s) ->
     2 <= length (filter (fun e => player e.2 <> None) (rooms s))).
Proof.
  split; [|split; [|split]].
  - intros Hlt. assert (~ startCondition s) as Hn.
    { unfold startCondition. lia. }
    split; [by apply checkAndStartGame_idle|]. by rewrite startFires_iff.
  - apply startFires_iff.
  - intros Hf%startFires_iff. split.
    + intros k r Hr Hp. rewrite checkAndStartGame_seat, Hr by done.
      by rewrite decide_True.
    + rewrite exec_checkAndStartGame, decide_True by done. cbn [fst].
      by rewrite (proj1 (startPlayers_frame _ _ _ _ _)).
  - intros sid ev. apply step_startObserved.
Qed.

(** C6.  In every state of the server the Summarize transition fires only
    if every seat in status [playing] has an occupant with a stored
    PlayedHand whose [confirmed] flag is true, and at least 2 seats are in
    status [playing]: so it is for [checkAllPlayersConfirmed], whatever the
    played hands stored; and whenever the handling of an inbound event moves
    a seat to [summary] or emits [cardsSummary], the event is a
    [confirmCards], at least 2 seats were playing, and each of them has a
    confirmed PlayedHand once the hand of the sender is stored. *)
Theorem summarize_needs_all_confirmed (s : State) :
  reachable s ->
  (forall played : list (string * PlayedCard),
     let m := set_playedCards (fun _ => played) s in
     summarizeFires m ->
     (forall k r, seat m k = Some r -> status r = SPlaying ->
        exists p h, player r = Some p /\
                    lookupKey p (playedCards m) = Some h /\
                    confirmed h = true) /\
     2 <= length (filter (fun e => status e.2 = SPlaying) (rooms m))) /\
  (forall env sid ev,
     summarizeObserved s (step env sid ev s) ->
     (exists roomId cs cc, ev = ConfirmCards roomId cs cc) /\
     (forall k r, seat s k = Some r -> status r = SPlaying ->
        exists p h, player r = Some p /\
          lookupKey p (playedCards (step env sid ev s).1) = Some h /\
          confirmed h = true) /\
     2 <= length (filter (fun e => status e.2 = SPlaying) (rooms s))).
Proof.
  intros Hreach. split.
  - intros played m Hfires%summarizeFires_iff.
    apply summarizeCondition_seats; [|done].
    apply (consistent_frame s); [by apply reachable_consistent|done..].
  - intros env sid ev. by apply step_summarizeObserved.
Qed.

(** ** The scenarios *)

Lemma reachable_lobby : reachable lobby.
Proof.
  apply reachable_run; [constructor|]. by repeat constructor.
Qed.

Lemma reachable_loneReady : reachable loneReady.
Proof.
  apply reachable_run; [constructor|]. by repeat constructor.
Qed.

Lemma reachable_playingRound : reachable playingRound.
Proof.
  apply reachable_run; [apply reachable_lobby|]. by repeat constructor.
Qed.

Lemma reachable_summaryRound : reachable summaryRound.
Proof.
  apply reachable_run; [apply reachable_playingRound|]. by repeat constructor.
Qed.

Lemma ownsSeat_occupant s sid roomId :
  occupant s roomId = Some sid -> ownsSeat s sid roomId.
Proof.
  unfold occupant, ownsSeat. destruct (seat s roomId) as [r|]; [|done].
  simpl. intros H. by exists r.
Qed.

Lemma seatIn_status st s roomId :
  status <$> seat s roomId = Some st -> seatIn st s roomId.
Proof. apply status_seatIn. Qed.

Lemma rooms_summaryRound :
  rooms summaryRound =
    [("room-1", mkGameRoom (Some "alice") false 1 SSummary);
     ("room-2", mkGameRoom (Some "bob") false 1 SSummary);
     ("room-3", mkGameRoom None false 1 SEmpty);
     ("room-4", mkGameRoom None false 1 SEmpty)].
Proof. by vm_compute. Qed.

Lemma rooms_playingRound :
  rooms playingRound =
    [("room-1", mkGameRoom (Some "alice") false 1 SPlaying);
     ("room-2", mkGameRoom (Some "bob") false 1 SPlaying);
     ("room-3", mkGameRoom None false 1 SEmpty);
     ("room-4", mkGameRoom None false 1 SEmpty)].
Proof. by vm_compute. Qed.

(** The deal to alice and bob with the shuffle that always draws
    index 0. *)
Lemma dealCards_disjoint_hands_witness :
  (forall i, (fun _ : nat => 0) i <= i) /\
  length ["alice"; "bob"] <= 4 /\
  length (communityCards (dealCards (fun _ => 0) ["alice"; "bob"])) = 4 /\
  (forall p, p ∈ ["alice"; "bob"] ->
     exists h, players (dealInstances (fun _ => 0) ["alice"; "bob"]) !! p = Some h /\
               players (dealCards (fun _ => 0) ["alice"; "bob"]) !! p
                 = Some (forget h) /\
               length h = 13 /\ length (forget h) = 13).
Proof.
  assert (forall i, (fun _ : nat => 0) i <= i) as H1 by (intros; lia).
  assert (length ["alice"; "bob"] <= 4) as H2 by (simpl; lia).
  split; [exact H1|]. split; [exact H2|].
  pose proof (dealCards_disjoint_hands (fun _ => 0) ["alice"; "bob"] H1 H2) as H.
  cbn zeta in H. split; [apply H|apply H].
Defined.

(** A hand of a single card, confirmed by alice from her playing seat, is
    not rejected: it is stored with [confirmed = true], and nothing is
    emitted. *)
Lemma confirmCards_one_card_stored :
  length (row0 shortHand) + length (row1 shortHand) + length (row2 shortHand)
    <> 13 /\
  reachable playingRound /\
  lookupKey "alice" (playedCards playingRound) = None /\
  lookupKey "alice"
    (playedCards
       (step demoEnv "alice" (ConfirmCards "room-1" shortHand None)
             playingRound).1)
    = Some (mkPlayedCard "alice" "room-1" shortHand None true) /\
  (step demoEnv "alice" (ConfirmCards "room-1" shortHand None) playingRound).2
    = [].
Proof.
  split; [simpl; lia|]. split; [apply reachable_playingRound|].
  split; [by vm_compute|]. split; by vm_compute.
Qed.

(** The same event, through the general statement. *)
Lemma confirmCards_stores_any_shape_witness :
  ownsSeat playingRound "alice" "room-1" /\
  seatIn SPlaying playingRound "room-1" /\
  lookupKey "alice"
    (playedCards
       (step demoEnv "alice" (ConfirmCards "room-1" shortHand None)
             playingRound).1)
    = Some (mkPlayedCard "alice" "room-1" shortHand None true).
Proof.
  assert (ownsSeat playingRound "alice" "room-1") as H1
    by (apply ownsSeat_occupant; by vm_compute).
  assert (seatIn SPlaying playingRound "room-1") as H2
    by (apply seatIn_status; by vm_compute).
  split; [exact H1|]. split; [exact H2|].
  apply (confirmCards_stores_any_shape demoEnv playingRound "alice" "room-1"
           shortHand None H1 H2).
Defined.

(** carol asks for the seat of alice: the request is refused, not
    silently, but with an [error] event sent to carol. *)
Lemma joinRoom_occupied_emits_error :
  reachable lobby /\
  preconditionFails lobby "carol" (JoinRoom "room-1") /\
  (step demoEnv "carol" (JoinRoom "room-1") lobby).1 = lobby /\
  (step demoEnv "carol" (JoinRoom "room-1") lobby).2
    = [Emit (ToSocket "carol") (error "Room is not available")] /\
  (step demoEnv "carol" (JoinRoom "room-1") lobby).2 <> [].
Proof.
  split; [apply reachable_lobby|]. split.
  { apply joinRefused_spec. by vm_compute. }
  split; [by vm_compute|]. split; by vm_compute.
Qed.

(** The same event, through the general statement. *)
Lemma failed_precondition_refused_witness :
  preconditionFails lobby "carol" (JoinRoom "room-1") /\
  step demoEnv "carol" (JoinRoom "room-1") lobby
    = (lobby, [Emit (ToSocket "carol") (error "Room is not available")]).
Proof.
  assert (preconditionFails lobby "carol" (JoinRoom "room-1")) as H
    by (apply joinRefused_spec; by vm_compute).
  split; [exact H|].
  apply (failed_precondition_refused demoEnv lobby "carol"
           (JoinRoom "room-1") H).
Defined.

(** A transfer attempted while the seats are playing. *)
Lemma transfer_violation_refused_witness :
  (exists e,
     violates playingRound "alice" "room-1" "room-2" (Number.ofZ 50) e) /\
  (exists e,
     violates playingRound "alice" "room-1" "room-2" (Number.ofZ 50) e /\
     step demoEnv "alice" (TransferPoints "room-1" "room-2" (Number.ofZ 50))
          playingRound =
       (playingRound,
        [Emit (ToSocket "alice") (error (transferErrorMessage e))])).
Proof.
  assert (exists e,
            violates playingRound "alice" "room-1" "room-2" (Number.ofZ 50) e)
    as H.
  { exists NotInSummaryPhase. constructor. left.
    intros Hs%status_seatIn. vm_compute in Hs. discriminate Hs. }
  split; [exact H|].
  apply (transfer_violation_refused demoEnv playingRound "alice" "room-1"
           "room-2" (Number.ofZ 50) H).
Defined.

(** A lobby with one occupant, who is ready: no start.  The lobby of alice
    and bob once alice is ready: the game starts. *)
Lemma start_needs_two_occupied_witness :
  length (roomsWithPlayers loneReady) < 2 /\
  1 <= length (readyRooms loneReady) /\
  exec (checkAndStartGame demoEnv) loneReady = (loneReady, []) /\
  startFires demoEnv armedLobby /\
  playedCards (exec (checkAndStartGame demoEnv) armedLobby).1 = [] /\
  startObserved lobby (step demoEnv "alice" (ToggleReady "room-1") lobby) /\
  2 <= length (filter (fun e => player e.2 <> None) (rooms lobby)).
Proof.
  assert (length (roomsWithPlayers loneReady) < 2) as H1
    by (vm_compute; lia).
  assert (1 <= length (readyRooms loneReady)) as H2 by (vm_compute; lia).
  assert (1 <= length (filter (fun e => status e.2 = SReady) (rooms armedLobby)) /\
          2 <= length (filter (fun e => player e.2 <> None) (rooms armedLobby)))
    as H3 by (vm_compute; lia).
  assert (startObserved lobby
            (step demoEnv "alice" (ToggleReady "room-1") lobby)) as H4.
  { left. exists "room-1". split.
    - apply seatIn_status. by vm_compute.
    - intros Hs%status_seatIn. vm_compute in Hs. discriminate Hs. }
  pose proof (start_needs_two_occupied demoEnv loneReady)
    as (Hidle & _ & _ & _).
  pose proof (start_needs_two_occupied demoEnv armedLobby)
    as (_ & Hiff & Hdo & _).
  pose proof (start_needs_two_occupied demoEnv lobby) as (_ & _ & _ & Hobs).
  split; [exact H1|]. split; [exact H2|].
  split; [apply (Hidle H1)|].
  split; [apply Hiff, H3|]. split; [apply Hdo, Hiff, H3|].
  split; [exact H4|]. apply (Hobs "alice" (ToggleReady "room-1") H4).
Defined.

(** The playing round with both hands confirmed. *)
Lemma summarize_needs_all_confirmed_witness :
  reachable playingRound /\
  summarizeFires (set_playedCards (fun _ => bothConfirmed) playingRound) /\
  2 <= length (filter (fun e => status e.2 = SPlaying)
                 (rooms (set_playedCards (fun _ => bothConfirmed) playingRound)))
  /\
  reachable aliceConfirmed /\
  summarizeObserved aliceConfirmed
    (step demoEnv "bob" (ConfirmCards "room-2" fullHand None) aliceConfirmed) /\
  2 <= length (filter (fun e => status e.2 = SPlaying) (rooms aliceConfirmed)).
Proof.
  assert (summarizeFires (set_playedCards (fun _ => bothConfirmed) playingRound))
    as H.
  { apply summarizeFires_iff, summarizeCondition_guard. by vm_compute. }
  assert (reachable aliceConfirmed) as Hr.
  { apply reachable_run; [apply reachable_playingRound|]. by repeat constructor. }
  assert (summarizeObserved aliceConfirmed
            (step demoEnv "bob" (ConfirmCards "room-2" fullHand None)
                  aliceConfirmed)) as Hobs.
  { left. exists "room-2". split.
    - apply seatIn_status. by vm_compute.
    - intros Hs%status_seatIn. vm_compute in Hs. discriminate Hs. }
  split; [apply reachable_playingRound|]. split; [exact H|].
  split.
  { apply (proj1 (summarize_needs_all_confirmed playingRound
                    reachable_playingRound) bothConfirmed H). }
  split; [exact Hr|]. split; [exact Hobs|].
  apply (proj2 (summarize_needs_all_confirmed aliceConfirmed Hr)
           demoEnv "bob" (ConfirmCards "room-2" fullHand None) Hobs).
Defined.

Lemma summaryRound_flags k r :
  seat (set_readyForNextGame (fun _ => bothReadyForNext) summaryRound) k = Some r ->
  status r = SSummary ->
  exists p, player r = Some p /\
    readyForNextGame (set_readyForNextGame (fun _ => bothReadyForNext) summaryRound)
      !! p = Some true.
Proof.
  unfold seat.
  change (rooms (set_readyForNextGame (fun _ => bothReadyForNext) summaryRound))
    with (rooms summaryRound).
  rewrite rooms_summaryRound. simpl.
  repeat case_decide; intros [= <-] Hs; try discriminate Hs.
  - exists "alice". split; [done|]. by vm_compute.
  - exists "bob". split; [done|]. by vm_compute.
Qed.

(** The summary of alice and bob, both ready for the next game. *)
Lemma next_round_rearms_and_redeals_witness :
  reachable summaryRound /\
  2 <= length (filter (fun e => status e.2 = SSummary)
                 (rooms (set_readyForNextGame (fun _ => bothReadyForNext)
                           summaryRound))) /\
  startFires demoEnv
    (rearmed (set_readyForNextGame (fun _ => bothReadyForNext) summaryRound)) /\
  playedCards
    (rearmed (set_readyForNextGame (fun _ => bothReadyForNext) summaryRound))
    = [].
Proof.
  assert (2 <= length (filter (fun e => status e.2 = SSummary)
                         (rooms (set_readyForNextGame
                                   (fun _ => bothReadyForNext) summaryRound))))
    as H2 by (vm_compute; lia).
  pose proof (next_round_rearms_and_redeals demoEnv summaryRound
                bothReadyForNext reachable_summaryRound
                summaryRound_flags H2) as H.
  cbn zeta in H.
  split; [apply reachable_summaryRound|]. split; [exact H2|].
  split; apply H.
Defined.

Lemma reachable_overdrawnRound : reachable overdrawnRound.
Proof.
  apply reachable_run; [apply reachable_summaryRound|].
  by repeat constructor.
Qed.

(** alice owes 2^53 points to bob.  She sends him 1 point and he sends it
    back: both transfers are accepted, and her balance is -2^53 + 1, his
    2^53 - 1, not the -2^53 and 2^53 from before the two transfers. *)
Lemma transfer_there_and_back_rounds :
  reachable overdrawnRound /\
  "room-1" <> "room-2" /\
  Number.lt Number.zero (Number.ofZ 1) = true /\
  occupant overdrawnRound "room-1" = Some "alice" /\
  occupant overdrawnRound "room-2" = Some "bob" /\
  seatIn SSummary overdrawnRound "room-1" /\
  seatIn SSummary overdrawnRound "room-2" /\
  playerPoints overdrawnRound !! "room-1" = Some (Number.ofZ (- 2 ^ 53)) /\
  playerPoints overdrawnRound !! "room-2" = Some (Number.ofZ (2 ^ 53)) /\
  playerPoints
    (step demoEnv "bob" (TransferPoints "room-2" "room-1" (Number.ofZ 1))
       (step demoEnv "alice" (TransferPoints "room-1" "room-2" (Number.ofZ 1))
             overdrawnRound).1).1 !! "room-1"
    = Some (Number.ofZ (- 2 ^ 53 + 1)) /\
  playerPoints
    (step demoEnv "bob" (TransferPoints "room-2" "room-1" (Number.ofZ 1))
       (step demoEnv "alice" (TransferPoints "room-1" "room-2" (Number.ofZ 1))
             overdrawnRound).1).1 !! "room-2"
    = Some (Number.ofZ (2 ^ 53 - 1)) /\
  Number.ofZ (- 2 ^ 53 + 1) <> Number.ofZ (- 2 ^ 53) /\
  Number.ofZ (2 ^ 53 - 1) <> Number.ofZ (2 ^ 53) /\
  playerPoints
    (step demoEnv "bob" (TransferPoints "room-2" "room-1" (Number.ofZ 1))
       (step demoEnv "alice" (TransferPoints "room-1" "room-2" (Number.ofZ 1))
             overdrawnRound).1).1
    <> playerPoints overdrawnRound.
Proof.
  split; [apply reachable_overdrawnRound|]. split; [done|].
  split; [by vm_compute|]. split; [by vm_compute|]. split; [by vm_compute|].
  split; [apply seatIn_status; by vm_compute|].
  split; [apply seatIn_status; by vm_compute|].
  split; [by vm_compute|]. split; [by vm_compute|].
  split; [by vm_compute|]. split; [by vm_compute|].
  split; [by vm_compute|]. split; [by vm_compute|].
  intros Heq. apply (f_equal (fun m => m !! "room-1")) in Heq.
  vm_compute in Heq. discriminate Heq.
Qed.

(** 50 points from alice to bob and back. *)
Lemma transfer_there_and_back_witness :
  reachable summaryRound /\
  "room-1" <> "room-2" /\ Number.lt Number.zero (Number.ofZ 50) = true /\
  occupant summaryRound "room-1" = Some "alice" /\
  occupant summaryRound "room-2" = Some "bob" /\
  seatIn SSummary summaryRound "room-1" /\
  seatIn SSummary summaryRound "room-2" /\
  playerPoints
    (step demoEnv "alice" (TransferPoints "room-1" "room-2" (Number.ofZ 50))
          summaryRound).1 !! "room-1" = Some (Number.ofZ (0 - 50)) /\
  playerPoints
    (step demoEnv "bob" (TransferPoints "room-2" "room-1" (Number.ofZ 50))
       (step demoEnv "alice" (TransferPoints "room-1" "room-2" (Number.ofZ 50))
             summaryRound).1).1
    = playerPoints summaryRound /\
  length
    (transactions
       (step demoEnv "bob" (TransferPoints "room-2" "room-1" (Number.ofZ 50))
          (step demoEnv "alice"
                (TransferPoints "room-1" "room-2" (Number.ofZ 50))
                summaryRound).1).1)
    = length (transactions summaryRound) + 2.
Proof.
  assert ("room-1" <> "room-2") as H1 by done.
  assert (Number.lt Number.zero (Number.ofZ 50) = true) as H2 by reflexivity.
  assert (occupant summaryRound "room-1" = Some "alice") as H3 by (by vm_compute).
  assert (occupant summaryRound "room-2" = Some "bob") as H4 by (by vm_compute).
  assert (seatIn SSummary summaryRound "room-1") as H5
    by (apply seatIn_status; by vm_compute).
  assert (seatIn SSummary summaryRound "room-2") as H6
    by (apply seatIn_status; by vm_compute).
  pose proof (transfer_there_and_back demoEnv demoEnv summaryRound
                "alice" "bob" "room-1" "room-2" (Number.ofZ 50)
                reachable_summaryRound H1 H2 H3 H4 H5 H6) as H.
  cbn zeta in H.
  destruct H as ((va & vb & HA & HB & _ & _ & _ & _ & Hexact) & _ & _ & Hlen).
  assert (va = Number.ofZ 0) as Hva
    by (vm_compute in HA; injection HA as <-; reflexivity).
  assert (vb = Number.ofZ 0) as Hvb
    by (vm_compute in HB; injection HB as <-; reflexivity).
  assert (Number.isSafeInteger 0) as S0 by (vm_compute; split; discriminate).
  assert (Number.isSafeInteger 50) as S50 by (vm_compute; split; discriminate).
  assert (Number.isSafeInteger (0 - 50)) as Sm
    by (vm_compute; split; discriminate).
  assert (Number.isSafeInteger (0 + 50)) as Sp
    by (vm_compute; split; discriminate).
  destruct (Hexact 0%Z 0%Z 50%Z Hva Hvb eq_refl S0 S0 S50 Sm Sp)
    as (H1A & _ & _ & _ & Hback).
  split; [apply reachable_summaryRound|].
  split; [exact H1|]. split; [exact H2|]. split; [exact H3|].
  split; [exact H4|]. split; [exact H5|]. split; [exact H6|].
  split; [exact H1A|]. split; [exact Hback|exact Hlen].
Defined.

(** alice owes 2^53 points to bob and sends 1 point from her seat to
    itself: the transfer is accepted and logged, and her balance is
    -2^53 + 1, not the -2^53 from before. *)
Lemma self_transfer_rounds :
  reachable overdrawnRound /\
  Number.lt Number.zero (Number.ofZ 1) = true /\
  occupant overdrawnRound "room-1" = Some "alice" /\
  seatIn SSummary overdrawnRound "room-1" /\
  playerPoints overdrawnRound !! "room-1" = Some (Number.ofZ (- 2 ^ 53)) /\
  playerPoints
    (step demoEnv "alice" (TransferPoints "room-1" "room-1" (Number.ofZ 1))
          overdrawnRound).1 !! "room-1"
    = Some (Number.ofZ (- 2 ^ 53 + 1)) /\
  Number.ofZ (- 2 ^ 53 + 1) <> Number.ofZ (- 2 ^ 53) /\
  playerPoints
    (step demoEnv "alice" (TransferPoints "room-1" "room-1" (Number.ofZ 1))
          overdrawnRound).1
    <> playerPoints overdrawnRound /\
  transactions
    (step demoEnv "alice" (TransferPoints "room-1" "room-1" (Number.ofZ 1))
          overdrawnRound).1
    = transactions overdrawnRound
        ++ [mkPointTransaction "room-1" "room-1" (Number.ofZ 1) (now demoEnv)].
Proof.
  split; [apply reachable_overdrawnRound|].
  split; [by vm_compute|]. split; [by vm_compute|].
  split; [apply seatIn_status; by vm_compute|].
  split; [by vm_compute|]. split; [by vm_compute|]. split; [by vm_compute|].
  split; [|by vm_compute].
  intros Heq. apply (f_equal (fun m => m !! "room-1")) in Heq.
  vm_compute in Heq. discriminate Heq.
Qed.

(** 50 points from the seat of alice to itself. *)
Lemma self_transfer_logged_witness :
  reachable summaryRound /\
  Number.lt Number.zero (Number.ofZ 50) = true /\
  occupant summaryRound "room-1" = Some "alice" /\
  seatIn SSummary summaryRound "room-1" /\
  step demoEnv "alice" (TransferPoints "room-1" "room-1" (Number.ofZ 50))
       summaryRound =
    (set_transactions
       (fun txs =>
          txs ++ [mkPointTransaction "room-1" "room-1" (Number.ofZ 50)
                    (now demoEnv)])
       summaryRound,
     [Emit ToAll (pointsUpdate (playerPoints summaryRound));
      Emit ToAll (transactionsUpdate
        (transactions summaryRound
           ++ [mkPointTransaction "room-1" "room-1" (Number.ofZ 50)
                 (now demoEnv)]))]).
Proof.
  assert (Number.lt Number.zero (Number.ofZ 50) = true) as H2 by reflexivity.
  assert (occupant summaryRound "room-1" = Some "alice") as H3 by (by vm_compute).
  assert (seatIn SSummary summaryRound "room-1") as H5
    by (apply seatIn_status; by vm_compute).
  pose proof (self_transfer_logged demoEnv summaryRound "alice" "room-1"
                (Number.ofZ 50) reachable_summaryRound H2 H3 H5) as H.
  cbn zeta in H. destruct H as (_ & (v & Hv & _ & _ & Hexact) & _).
  assert (v = Number.ofZ 0) as Hv0
    by (vm_compute in Hv; injection Hv as <-; reflexivity).
  assert (Number.isSafeInteger 0) as S0 by (vm_compute; split; discriminate).
  assert (Number.isSafeInteger 50) as S50 by (vm_compute; split; discriminate).
  assert (Number.isSafeInteger (0 - 50)) as Sm
    by (vm_compute; split; discriminate).
  destruct (Hexact 0%Z 50%Z Hv0 eq_refl S0 S50 Sm) as (_ & Hstep).
  split; [apply reachable_summaryRound|].
  split; [exact H2|]. split; [exact H3|]. split; [exact H5|]. exact Hstep.
Defined.

(** bob disconnects during the summary. *)
Lemma disconnect_resets_seat_keeps_ledger_witness :
  seat (step demoEnv "bob" Disconnect summaryRound).1 "room-2"
    = Some (mkGameRoom None false 1 SEmpty) /\
  lookupKey "bob" (playedCards (step demoEnv "bob" Disconnect summaryRound).1)
    = None /\
  playerPoints (step demoEnv "bob" Disconnect summaryRound).1
    = playerPoints summaryRound /\
  transactions (step demoEnv "bob" Disconnect summaryRound).1
    = transactions summaryRound.
Proof.
  pose proof (disconnect_resets_seat_keeps_ledger demoEnv summaryRound "bob")
    as H.
  cbn zeta in H. destruct H as (Hseat & Hplayed & _ & _ & Hpoints & Htxs).
  split; [|split; [exact Hplayed|split; [exact Hpoints|exact Htxs]]].
  apply (Hseat "room-2" (mkGameRoom (Some "bob") false 1 SSummary));
    by vm_compute.
Defined.

(** * Further properties of the code *)

(** ** The shuffle *)

Section ShuffleFacts.
Context {A : Type}.
Implicit Types (a deck : list A).

Lemma swap_lookup_other i j a k : k <> i -> k <> j -> swap i j a !! k = a !! k.
Proof.
  intros Hi Hj. unfold swap.
  destruct (a !! i) as [ai|] eqn:Hai; [|done].
  destruct (a !! j) as [aj|] eqn:Haj; [|done].
  by rewrite !list_lookup_insert_ne by done.
Qed.

Lemma swap_lookup_left i j a :
  i < length a -> j < length a -> swap i j a !! i = a !! j.
Proof.
  intros Hi Hj. rewrite swap_lookup by done. by rewrite decide_True.
Qed.

(** The iterations [n, ..., 1] leave the positions above [n] alone. *)
Lemma shuffleLoop_lookup_above rand n a k :
  (forall i, rand i <= i) -> n < k -> shuffleLoop rand n a !! k = a !! k.
Proof.
  intros Hrand. revert a. induction n as [|n IH]; intros a Hk; [done|].
  simpl. rewrite IH by lia. apply swap_lookup_other; [lia|].
  pose proof (Hrand (S n)). lia.
Qed.
End ShuffleFacts.

(** X1.  [shuffleDeck] returns a permutation of the array it is given: the
    same elements with the same multiplicities, hence the same length; no
    card is lost or duplicated by the shuffle, whatever the draws. *)
Theorem shuffleDeck_permutes {A} (rand : nat -> nat) (deck : list A) :
  (forall i, rand i <= i) ->
  shuffleDeck rand deck ≡ₚ deck /\
  length (shuffleDeck rand deck) = length deck /\
  (forall x, x ∈ shuffleDeck rand deck <-> x ∈ deck).
Proof.
  intros _. pose proof (shuffleDeck_Permutation rand deck) as H.
  split; [done|]. split; [by rewrite H|]. intros x. by rewrite H.
Qed.

Lemma shuffleDeck_permutes_witness :
  (forall i, (fun _ : nat => 0) i <= i) /\
  length (shuffleDeck (fun _ => 0) createDeck) = length createDeck.
Proof.
  assert (forall i, (fun _ : nat => 0) i <= i) as H by (intros; lia).
  split; [exact H|]. apply (shuffleDeck_permutes (fun _ => 0) createDeck H).
Defined.

(** X2.  The last position of the shuffled array holds the element that
    the first draw picks, the draw of iteration [i = length - 1]: the later
    iterations never touch it. *)
Theorem shuffleDeck_last_position {A} (rand : nat -> nat) (deck : list A) :
  (forall i, rand i <= i) ->
  shuffleDeck rand deck !! (length deck - 1) =
    deck !! rand (length deck - 1).
Proof.
  intros Hrand. unfold shuffleDeck.
  destruct (length deck - 1) as [|n] eqn:Hn.
  - simpl. pose proof (Hrand 0). by replace (rand 0) with 0 by lia.
  - simpl. rewrite shuffleLoop_lookup_above by (done || lia).
    pose proof (Hrand (S n)). apply swap_lookup_left; lia.
Qed.

Lemma shuffleDeck_last_position_witness :
  (forall i, (fun i : nat => i / 2) i <= i) /\
  shuffleDeck (fun i => i / 2) createDeck !! 55 = createDeck !! 27.
Proof.
  assert (forall i, (fun i : nat => i / 2) i <= i) as H.
  { intros i. apply Nat.Div0.div_le_upper_bound. lia. }
  split; [exact H|].
  apply (shuffleDeck_last_position (fun i => i / 2) createDeck H).
Defined.

(** ** The deal, for any list of players *)

Section DealOrder.
Context {A : Type}.
Implicit Types (deck : list A) (acc : gmap string (list A)).

Lemma slice_length_min start end_ deck :
  length (slice start end_ deck) = min (end_ - start) (length deck - start).
Proof. unfold slice. by rewrite length_take, length_drop. Qed.

Lemma dealLoop_not_listed deck index ps acc p :
  p ∉ ps -> dealLoop deck index ps acc !! p = acc !! p.
Proof.
  revert index acc. induction ps as [|q ps IH]; intros index acc Hp; [done|].
  apply not_elem_of_cons in Hp as [Hpq Hp]. simpl.
  rewrite IH by done. by rewrite lookup_insert_ne.
Qed.

(** A player keeps the slice of the last position at which it is listed. *)
Lemma dealLoop_last deck index ps acc i p :
  ps !! i = Some p -> p ∉ drop (S i) ps ->
  dealLoop deck index ps acc !! p =
    Some (slice ((index + i) * 13) ((index + i + 1) * 13) deck).
Proof.
  revert index acc i. induction ps as [|q ps IH]; intros index acc i; [done|].
  destruct i as [|i]; simpl.
  - intros [= ->] Hp. rewrite drop_0 in Hp.
    rewrite dealLoop_not_listed by done. rewrite lookup_insert_eq.
    by replace (index + 0) with index by lia.
  - intros Hi Hp. rewrite (IH (S index) _ i) by done.
    by replace (S index + i) with (index + S i) by lia.
Qed.

Lemma slices_concat deck n :
  (seq 0 n ≫= fun i => slice (i * 13) ((i + 1) * 13) deck) = take (n * 13) deck.
Proof.
  induction n as [|n IH]; [done|].
  rewrite seq_S, bind_app, IH. simpl. rewrite app_nil_r. unfold slice.
  replace ((n + 1) * 13 - n * 13) with 13 by lia.
  rewrite take_take_drop. f_equal. lia.
Qed.

Lemma bind_by_index (ps : list string) (hand : string -> list A)
  (sl : nat -> list A) :
  (forall i p, ps !! i = Some p -> hand p = sl i) ->
  ps ≫= hand = seq 0 (length ps) ≫= sl.
Proof.
  revert sl. induction ps as [|p ps IH]; intros sl Hhand; [done|].
  rewrite bind_cons, (Hhand 0 p) by done.
  change (seq 0 (length (p :: ps))) with (0 :: seq 1 (length ps)).
  rewrite bind_cons. f_equal.
  rewrite (IH (fun i => sl (S i))).
  - rewrite <- fmap_S_seq. generalize (seq 0 (length ps)). intros l.
    induction l as [|k l IHl]; [done|].
    rewrite fmap_cons, !bind_cons. by rewrite IHl.
  - intros i q Hi. by apply (Hhand (S i)).
Qed.

Lemma dealFrom_in_order deck ps :
  NoDup ps ->
  dealtInOrder (dealFrom deck ps) ps = take (length ps * 13 + 4) deck.
Proof.
  intros Hnd. unfold dealtInOrder.
  rewrite (bind_by_index ps _ (fun i => slice (i * 13) ((i + 1) * 13) deck)).
  - rewrite slices_concat. simpl. unfold slice.
    replace (length ps * 13 + 4 - length ps * 13) with 4 by lia.
    apply take_take_drop.
  - intros i p Hi. simpl. rewrite (dealLoop_last deck 0 ps ∅ i p Hi); [done|].
    intros Hin. apply list_elem_of_lookup in Hin as [j Hj].
    rewrite lookup_drop in Hj.
    pose proof (NoDup_lookup ps i (S i + j) p Hnd Hi Hj). lia.
Qed.
End DealOrder.

(** X3.  For any list of players, of any length: a listed player gets the
    slice [13i, 13i + 13) of the shuffled deck, where [i] is the last
    position at which it is listed, so that its hand has 13 cards when
    [i <= 3], 4 cards when [i = 4] and none beyond; a player that is not
    listed gets no hand; the community pool is the 4 cards that follow the
    last hand, fewer when the deck runs out. *)
Theorem dealCards_hands_by_position (rand : nat -> nat) (ps : list string) :
  (forall i, rand i <= i) ->
  (forall i p, ps !! i = Some p -> p ∉ drop (S i) ps ->
     players (dealCards rand ps) !! p
       = Some (slice (i * 13) ((i + 1) * 13) (shuffleDeck rand createDeck)) /\
     length (slice (i * 13) ((i + 1) * 13) (shuffleDeck rand createDeck))
       = min 13 (56 - i * 13)) /\
  (forall p, p ∉ ps -> players (dealCards rand ps) !! p = None) /\
  communityCards (dealCards rand ps)
    = slice (length ps * 13) (length ps * 13 + 4) (shuffleDeck rand createDeck) /\
  length (communityCards (dealCards rand ps)) = min 4 (56 - length ps * 13).
Proof.
  intros _.
  assert (length (shuffleDeck rand createDeck) = 56) as Hlen
    by (by rewrite shuffleDeck_Permutation).
  split; [|split; [|split]].
  - intros i p Hi Hlast. split.
    + unfold dealCards, dealFrom. simpl.
      by rewrite (dealLoop_last _ 0 ps ∅ i p Hi Hlast).
    + rewrite slice_length_min, Hlen. lia.
  - intros p Hp. unfold dealCards, dealFrom. simpl.
    by rewrite dealLoop_not_listed.
  - done.
  - unfold dealCards, dealFrom. cbn [communityCards].
    rewrite slice_length_min, Hlen. lia.
Qed.

Lemma dealCards_hands_by_position_witness :
  (forall i, (fun _ : nat => 0) i <= i) /\
  length (communityCards
            (dealCards (fun _ => 0) ["a"; "b"; "c"; "d"; "e"])) = 0 /\
  (players (dealCards (fun _ => 0) ["a"; "b"; "c"; "d"; "e"]) !! "e"
     = Some (slice 52 65 (shuffleDeck (fun _ => 0) createDeck)) /\
   length (slice 52 65 (shuffleDeck (fun _ => 0) createDeck)) = 4).
Proof.
  assert (forall i, (fun _ : nat => 0) i <= i) as H by (intros; lia).
  pose proof (dealCards_hands_by_position (fun _ => 0)
                ["a"; "b"; "c"; "d"; "e"] H) as (Hhand & _ & _ & Hcomm).
  split; [exact H|]. split; [exact Hcomm|].
  apply (Hhand 4 "e"); [done|]. simpl. apply not_elem_of_nil.
Defined.

(** X4.  When no player is listed twice, the deal hands out the top of the
    shuffled deck in order: the hands of the players, in the order of the
    list, followed by the community cards are exactly the first
    [13 * players + 4] cards of the shuffled deck.  So no card value is
    dealt more often than [createDeck] holds it, and [min 56 (13 * players
    + 4)] cards are dealt in all. *)
Theorem dealCards_deals_from_top (rand : nat -> nat) (ps : list string) :
  (forall i, rand i <= i) ->
  NoDup ps ->
  dealtInOrder (dealCards rand ps) ps
    = take (length ps * 13 + 4) (shuffleDeck rand createDeck) /\
  dealtInOrder (dealCards rand ps) ps ⊆+ createDeck /\
  length (dealtInOrder (dealCards rand ps) ps) = min (length ps * 13 + 4) 56.
Proof.
  intros _ Hnd.
  assert (dealtInOrder (dealCards rand ps) ps
          = take (length ps * 13 + 4) (shuffleDeck rand createDeck)) as Heq
    by (by apply dealFrom_in_order).
  split; [exact Heq|]. rewrite Heq. split.
  - rewrite <- (shuffleDeck_Permutation rand createDeck) at 2.
    apply submseteq_take.
  - by rewrite length_take, shuffleDeck_Permutation.
Qed.

Lemma dealCards_deals_from_top_witness :
  (forall i, (fun _ : nat => 0) i <= i) /\
  NoDup ["alice"; "bob"] /\
  dealtInOrder (dealCards (fun _ => 0) ["alice"; "bob"]) ["alice"; "bob"]
    ⊆+ createDeck.
Proof.
  assert (forall i, (fun _ : nat => 0) i <= i) as H by (intros; lia).
  assert (NoDup ["alice"; "bob"]) as Hnd
    by (apply (bool_decide_unpack _); by vm_compute).
  split; [exact H|]. split; [exact Hnd|].
  apply (dealCards_deals_from_top (fun _ => 0) ["alice"; "bob"] H Hnd).
Defined.

(** ** Seats after each handler *)

Lemma seat_set_rooms_updateKey k' f s k :
  seat (set_rooms (updateKey k' f) s) k =
    if decide (k = k') then f <$> seat s k else seat s k.
Proof. apply lookupKey_updateKey. Qed.

Lemma seat_set_rooms_foldl f ks s k :
  (forall r, f (f r) = f r) ->
  seat (set_rooms (fun rs => foldl (fun o k => updateKey k f o) rs ks) s) k =
    if decide (k ∈ ks) then f <$> seat s k else seat s k.
Proof. intros Hf. by apply lookupKey_foldl_updateKey. Qed.

Lemma consistent_seat_entry s k r :
  consistent s -> seat s k = Some r <-> (k, r) ∈ rooms s.
Proof.
  intros Hc. split; [apply lookupKey_Some_elem|by apply consistent_entry].
Qed.

(** The keys of the seats that a socket holds. *)
Lemma elem_of_seats_of s sid k :
  consistent s ->
  k ∈ (filter (fun e => player e.2 = Some sid) (rooms s)).*1 <->
  occupant s k = Some sid.
Proof.
  intros Hc. unfold occupant. rewrite list_elem_of_fmap. split.
  - intros [[k' r] [-> [Hp Hin]%list_elem_of_filter]]. simpl in *.
    apply (consistent_seat_entry s k' r Hc) in Hin. by rewrite Hin.
  - destruct (seat s k) as [r|] eqn:Hr; [|done]. simpl. intros Hp.
    exists (k, r). split; [done|]. apply list_elem_of_filter. split; [done|].
    by apply consistent_seat_entry.
Qed.

Lemma elem_of_occupiedIn_keys st s k :
  consistent s -> st <> SEmpty ->
  k ∈ (occupiedIn st s).*1 <-> seatIn st s k.
Proof.
  intros Hc Hst. split.
  - intros (r & p & Hr & Hs & _)%occupiedIn_seat; [|done]. by exists r.
  - intros (r & Hr & Hs).
    destruct (seat_occupiedIn st s k r Hc Hst Hr Hs) as (p & _ & Hin).
    apply list_elem_of_fmap. by exists (k, p).
Qed.

Lemma seat_on_disconnect sid s k :
  consistent s ->
  seat (exec (on_disconnect sid) s).1 k =
    if decide (occupant s k = Some sid) then vacateRoom <$> seat s k
    else seat s k.
Proof.
  intros Hc. destruct (on_disconnect_state sid s) as (Hrooms & _).
  unfold seat at 1. rewrite Hrooms.
  rewrite lookupKey_foldl_updateKey by apply vacateRoom_idem.
  pose proof (elem_of_seats_of s sid k Hc) as Hiff.
  repeat case_decide; tauto.
Qed.

Lemma seat_on_joinRoom sid roomId s k :
  consistent s ->
  joinRefused (lookupKey roomId (rooms s)) = false ->
  seat (exec (on_joinRoom sid roomId) s).1 k =
    if decide (k = roomId) then enterRoom sid <$> seat s k
    else if decide (occupant s k = Some sid) then vacateRoom <$> seat s k
    else seat s k.
Proof.
  intros Hc Hg. rewrite on_joinRoom_state by done.
  rewrite seat_set_rooms_updateKey, seat_set_rooms_foldl by apply vacateRoom_idem.
  pose proof (elem_of_seats_of s sid k Hc) as Hiff.
  repeat case_decide; try tauto.
  by destruct (seat s k).
Qed.

Lemma seat_checkAndStartGame env s k :
  consistent s ->
  seat (exec (checkAndStartGame env) s).1 k =
    if decide (startCondition s) then
      (fun r => if decide (player r <> None) then startRoom r else r) <$> seat s k
    else seat s k.
Proof.
  intros Hc. case_decide as Hs.
  - rewrite checkAndStartGame_seat by done.
    destruct (seat s k) as [r|] eqn:Hr; [|done]. simpl.
    destruct (decide (player r <> None)) as [|Hn]; [done|].
    case_decide as Hin; [|done].
    apply (roomsWithPlayers_seat s k Hc) in Hin as (r' & Hr' & Hp).
    rewrite Hr in Hr'. by injection Hr' as <-.
  - by rewrite checkAndStartGame_idle.
Qed.

Lemma seat_checkAllPlayersConfirmed s k :
  consistent s ->
  seat (exec checkAllPlayersConfirmed s).1 k =
    if summarizeGuard s then
      (fun r => if decide (status r = SPlaying) then summarizeRoom r else r)
        <$> seat s k
    else seat s k.
Proof.
  intros Hc. rewrite exec_checkAllPlayersConfirmed.
  destruct (summarizeGuard s); [|done]. cbn [fst].
  unfold seat at 1. cbn [rooms set_readyForNextGame set_rooms].
  rewrite lookupKey_foldl_updateKey by done.
  pose proof (elem_of_occupiedIn_keys SPlaying s k Hc) as Hiff.
  fold (seat s k). destruct (seat s k) as [r|] eqn:Hr.
  - simpl. repeat case_decide; try done.
    + exfalso. destruct Hiff as [(r' & Hr' & Hs) _]; [done|done|].
      unfold seat in *. congruence.
    + exfalso. destruct Hiff as [_ Hin]; [done|]. apply H, Hin. by exists r.
  - by case_decide.
Qed.

Lemma seat_rearmed s k :
  consistent s ->
  seat (rearmed s) k =
    (fun r => if decide (status r = SSummary) then rearmRoom r else r)
      <$> seat s k.
Proof.
  intros Hc. rewrite rearmed_seat.
  pose proof (elem_of_occupiedIn_keys SSummary s k Hc) as Hiff.
  destruct (seat s k) as [r|] eqn:Hr.
  - simpl. repeat case_decide; try done.
    + exfalso. destruct Hiff as [(r' & Hr' & Hs) _]; [done|done|]. congruence.
    + exfalso. destruct Hiff as [_ Hin]; [done|]. apply H, Hin. by exists r.
  - by case_decide.
Qed.

(** ** The handlers, once their guard has passed *)

Lemma notOwnerIn_false st sid room :
  notOwnerIn st sid room = false <->
  exists r, room = Some r /\ player r = Some sid /\ status r = st.
Proof.
  unfold notOwnerIn. destruct room as [r|].
  - rewrite orb_false_iff, !bool_decide_eq_false. split.
    + intros [Hp Hs]. exists r.
      split; [done|]. split.
      * by destruct (decide (player r = Some sid)).
      * by destruct (decide (status r = st)).
    + intros (r' & [= <-] & Hp & Hs). split; intros H; by apply H.
  - split; [done|]. by intros (r & Hr & _).
Qed.

Lemma on_toggleReady_accepted env sid roomId s :
  ownsSeat s sid roomId ->
  exec (on_toggleReady env sid roomId) s =
    let t := set_rooms (updateKey roomId toggleRoom) s in
    ((exec (checkAndStartGame env) t).1,
     Emit ToAll (roomsUpdate (rooms t)) :: (exec (checkAndStartGame env) t).2).
Proof.
  intros (r & Hr & Hp). unfold on_toggleReady. rewrite exec_bind_get.
  unfold seat in Hr. rewrite Hr.
  destruct (decide (player r <> Some sid)) as [Hn|_]; [done|].
  by rewrite exec_bind_modify, exec_bind_get, exec_bind_emit.
Qed.

Lemma on_toggleReady_refused env sid roomId s :
  ~ ownsSeat s sid roomId -> exec (on_toggleReady env sid roomId) s = (s, []).
Proof.
  intros Hn. unfold on_toggleReady. rewrite exec_bind_get.
  destruct (lookupKey roomId (rooms s)) as [r|] eqn:Hr; [|done].
  destruct (decide (player r <> Some sid)) as [|Hp]; [done|].
  destruct Hn. exists r. split; [done|].
  by destruct (decide (player r = Some sid)).
Qed.

Lemma on_confirmCards_accepted sid roomId cs cc s :
  notOwnerIn SPlaying sid (lookupKey roomId (rooms s)) = false ->
  exec (on_confirmCards sid roomId cs cc) s =
    exec checkAllPlayersConfirmed
      (set_playedCards (setKey sid (mkPlayedCard sid roomId cs cc true)) s).
Proof.
  intros Hg. unfold on_confirmCards.
  by rewrite exec_bind_get, Hg, exec_bind_modify.
Qed.

Lemma on_confirmCards_refused sid roomId cs cc s :
  notOwnerIn SPlaying sid (lookupKey roomId (rooms s)) = true ->
  exec (on_confirmCards sid roomId cs cc) s = (s, []).
Proof. intros Hg. unfold on_confirmCards. by rewrite exec_bind_get, Hg. Qed.

Lemma on_readyForNextGame_accepted env sid roomId s :
  notOwnerIn SSummary sid (lookupKey roomId (rooms s)) = false ->
  exec (on_readyForNextGame env sid roomId) s =
    exec (checkAllPlayersReadyForNextGame env)
      (set_readyForNextGame <[sid := true]> s).
Proof.
  intros Hg. unfold on_readyForNextGame.
  by rewrite exec_bind_get, Hg, exec_bind_modify.
Qed.

Lemma on_readyForNextGame_refused env sid roomId s :
  notOwnerIn SSummary sid (lookupKey roomId (rooms s)) = true ->
  exec (on_readyForNextGame env sid roomId) s = (s, []).
Proof. intros Hg. unfold on_readyForNextGame. by rewrite exec_bind_get, Hg. Qed.

Lemma on_joinRoom_refused sid roomId s :
  joinRefused (lookupKey roomId (rooms s)) = true ->
  exec (on_joinRoom sid roomId) s =
    (s, [Emit (ToSocket sid) (error "Room is not available")]).
Proof. intros Hg. unfold on_joinRoom. by rewrite exec_bind_get, Hg. Qed.

(** ** Occupancy through a step *)

Lemma occupant_fmap (f : GameRoom -> GameRoom) s k :
  (forall r, player (f r) = player r) ->
  (f <$> seat s k) ≫= player = occupant s k.
Proof. intros Hf. unfold occupant. destruct (seat s k); simpl; [apply Hf|done]. Qed.

Lemma occupant_checkAndStartGame env s k :
  consistent s -> occupant (exec (checkAndStartGame env) s).1 k = occupant s k.
Proof.
  intros Hc. unfold occupant at 1. rewrite seat_checkAndStartGame by done.
  case_decide; [|done]. apply occupant_fmap. intros r. by case_decide.
Qed.

Lemma occupant_checkAllPlayersConfirmed s k :
  consistent s -> occupant (exec checkAllPlayersConfirmed s).1 k = occupant s k.
Proof.
  intros Hc. unfold occupant at 1. rewrite seat_checkAllPlayersConfirmed by done.
  destruct (summarizeGuard s); [|done]. apply occupant_fmap.
  intros r. by case_decide.
Qed.

Lemma occupant_rearmed s k :
  consistent s -> occupant (rearmed s) k = occupant s k.
Proof.
  intros Hc. unfold occupant at 1. rewrite seat_rearmed by done.
  apply occupant_fmap. intros r. by case_decide.
Qed.

Lemma occupant_toggled roomId s k :
  occupant (set_rooms (updateKey roomId toggleRoom) s) k = occupant s k.
Proof.
  unfold occupant at 1. rewrite seat_set_rooms_updateKey.
  case_decide; [|done]. by apply occupant_fmap.
Qed.

Lemma occupant_frame s s' k : rooms s' = rooms s -> occupant s' k = occupant s k.
Proof. unfold occupant, seat. by intros ->. Qed.

Lemma consistent_toggled sid roomId s :
  consistent s -> ownsSeat s sid roomId ->
  consistent (set_rooms (updateKey roomId toggleRoom) s).
Proof.
  intros Hc (r & Hr & Hp). apply consistent_set_rooms_updateKey; [done|].
  intros r' Hr'. assert (r' = r) as -> by congruence.
  pose proof (consistent_seats s Hc roomId r Hr) as [_ Hne].
  unfold toggleRoom. split; simpl.
  - rewrite Hp. split; [done|]. by destruct (negb (isReady r)).
  - done.
Qed.

Lemma ownsSeat_cases s sid roomId :
  ownsSeat s sid roomId \/ ~ ownsSeat s sid roomId.
Proof.
  unfold ownsSeat. destruct (seat s roomId) as [r|].
  - destruct (decide (player r = Some sid)) as [Hp|Hn].
    + left. by exists r.
    + right. intros (r' & [= <-] & Hp). done.
  - right. by intros (r & Hr & _).
Qed.

(** The occupant of every seat after one event. *)
Lemma step_occupant env sid ev s k :
  consistent s ->
  occupant (step env sid ev s).1 k =
    match ev with
    | JoinRoom roomId =>
        if joinRefused (seat s roomId) then occupant s k
        else if decide (k = roomId) then Some sid
        else if decide (occupant s k = Some sid) then None
        else occupant s k
    | Disconnect =>
        if decide (occupant s k = Some sid) then None else occupant s k
    | _ => occupant s k
    end.
Proof.
  intros Hc. unfold step. destruct ev as [|roomId|roomId|roomId cs cc|roomId|f t n|];
    cbn [handle].
  - done.
  - unfold seat at 1. destruct (joinRefused _) eqn:Hg.
    + by rewrite on_joinRoom_refused.
    + unfold occupant at 1. rewrite seat_on_joinRoom by done.
      repeat case_decide.
      * subst k. unfold joinRefused in Hg. fold (seat s roomId) in Hg.
        by destruct (seat s roomId).
      * by destruct (seat s k).
      * done.
  - destruct (ownsSeat_cases s sid roomId) as [Ho|Hn].
    + rewrite on_toggleReady_accepted by done. cbn [fst].
      rewrite occupant_checkAndStartGame by (by eapply consistent_toggled).
      apply occupant_toggled.
    + by rewrite on_toggleReady_refused.
  - destruct (notOwnerIn SPlaying sid (lookupKey roomId (rooms s))) eqn:Hg.
    + by rewrite on_confirmCards_refused.
    + rewrite on_confirmCards_accepted by done.
      rewrite occupant_checkAllPlayersConfirmed by (by eapply consistent_frame).
      by apply occupant_frame.
  - destruct (notOwnerIn SSummary sid (lookupKey roomId (rooms s))) eqn:Hg.
    + by rewrite on_readyForNextGame_refused.
    + rewrite on_readyForNextGame_accepted by done.
      assert (consistent (set_readyForNextGame <[sid := true]> s)) as Hc'
        by (by eapply consistent_frame).
      rewrite exec_checkAllPlayersReadyForNextGame.
      destruct (nextRoundGuard _); cbn [fst].
      * rewrite occupant_checkAndStartGame by (by apply consistent_rearmed).
        rewrite occupant_rearmed by done. by apply occupant_frame.
      * by apply occupant_frame.
  - apply occupant_frame, on_transferPoints_rooms.
  - unfold occupant at 1. rewrite seat_on_disconnect by done.
    case_decide; [|done]. by destruct (seat s k).
Qed.

(** ** Well-formed seats *)

Lemma seatWellFormed_vacateRoom r :
  capacity r = ROOM_CAPACITY -> seatWellFormed (vacateRoom r).
Proof. intros Hc. by repeat split. Qed.

Lemma seatWellFormed_enterRoom sid r :
  sid <> "" -> capacity r = ROOM_CAPACITY -> seatWellFormed (enterRoom sid r).
Proof. intros Hsid Hc. repeat split; simpl; congruence. Qed.

Lemma seatWellFormed_toggleRoom r :
  seatWellFormed r -> player r <> None -> seatWellFormed (toggleRoom r).
Proof.
  intros (Hc & _ & _ & Hne) Hp. unfold toggleRoom.
  repeat split; simpl; try done; destruct (negb (isReady r)); congruence.
Qed.

Lemma seatWellFormed_startRoom r :
  seatWellFormed r -> player r <> None -> seatWellFormed (startRoom r).
Proof. intros (Hc & _ & _ & Hne) Hp. repeat split; simpl; congruence. Qed.

Lemma seatWellFormed_summarizeRoom r :
  seatWellFormed r -> status r = SPlaying -> seatWellFormed (summarizeRoom r).
Proof.
  intros (Hc & Hr & He & Hne) Hs. repeat split; simpl; try congruence.
  - intros Hi. apply Hr in Hi. congruence.
  - intros Hp. apply He in Hp. congruence.
Qed.

Lemma seatWellFormed_rearmRoom r :
  seatWellFormed r -> status r = SSummary -> seatWellFormed (rearmRoom r).
Proof.
  intros (Hc & Hr & He & Hne) Hs. repeat split; simpl; try congruence.
  intros Hp. apply He in Hp. congruence.
Qed.

Lemma seatsWellFormed_frame s s' :
  rooms s' = rooms s -> seatsWellFormed s -> seatsWellFormed s'.
Proof. unfold seatsWellFormed, seat. by intros ->. Qed.

Lemma seatsWellFormed_checkAndStartGame env s :
  consistent s -> seatsWellFormed s ->
  seatsWellFormed (exec (checkAndStartGame env) s).1.
Proof.
  intros Hc Hw k r. rewrite seat_checkAndStartGame by done.
  case_decide; [|apply Hw].
  destruct (seat s k) as [r0|] eqn:Hr0; [|done]. simpl. intros [= <-].
  case_decide; [|by eapply Hw]. apply seatWellFormed_startRoom; [by eapply Hw|done].
Qed.

Lemma seatsWellFormed_checkAllPlayersConfirmed s :
  consistent s -> seatsWellFormed s ->
  seatsWellFormed (exec checkAllPlayersConfirmed s).1.
Proof.
  intros Hc Hw k r. rewrite seat_checkAllPlayersConfirmed by done.
  destruct (summarizeGuard s); [|apply Hw].
  destruct (seat s k) as [r0|] eqn:Hr0; [|done]. simpl. intros [= <-].
  case_decide; [|by eapply Hw].
  apply seatWellFormed_summarizeRoom; [by eapply Hw|done].
Qed.

Lemma seatsWellFormed_rearmed s :
  consistent s -> seatsWellFormed s -> seatsWellFormed (rearmed s).
Proof.
  intros Hc Hw k r. rewrite seat_rearmed by done.
  destruct (seat s k) as [r0|] eqn:Hr0; [|done]. simpl. intros [= <-].
  case_decide; [|by eapply Hw].
  apply seatWellFormed_rearmRoom; [by eapply Hw|done].
Qed.

Lemma seatsWellFormed_toggled sid roomId s :
  ownsSeat s sid roomId -> seatsWellFormed s ->
  seatsWellFormed (set_rooms (updateKey roomId toggleRoom) s).
Proof.
  intros (r0 & Hr0 & Hp) Hw k r. rewrite seat_set_rooms_updateKey.
  case_decide as Hk; [|apply Hw]. subst k. rewrite Hr0. simpl. intros [= <-].
  apply seatWellFormed_toggleRoom; [by eapply Hw|congruence].
Qed.

Lemma seatsWellFormed_step env sid ev s :
  sid <> "" -> consistent s -> seatsWellFormed s ->
  seatsWellFormed (step env sid ev s).1.
Proof.
  intros Hsid Hc Hw. unfold step.
  destruct ev as [|roomId|roomId|roomId cs cc|roomId|f t n|]; cbn [handle].
  - done.
  - destruct (joinRefused (lookupKey roomId (rooms s))) eqn:Hg.
    + by rewrite on_joinRoom_refused.
    + intros k r. rewrite seat_on_joinRoom by done.
      destruct (seat s k) as [r0|] eqn:Hr0; [|by repeat case_decide].
      pose proof (Hw k r0 Hr0) as Hw0.
      repeat case_decide; simpl; intros [= <-].
      * apply seatWellFormed_enterRoom; [done|apply Hw0].
      * apply seatWellFormed_vacateRoom, Hw0.
      * done.
  - destruct (ownsSeat_cases s sid roomId) as [Ho|Hn].
    + rewrite on_toggleReady_accepted by done. cbn [fst].
      apply seatsWellFormed_checkAndStartGame.
      * by eapply consistent_toggled.
      * by eapply seatsWellFormed_toggled.
    + by rewrite on_toggleReady_refused.
  - destruct (notOwnerIn SPlaying sid (lookupKey roomId (rooms s))) eqn:Hg.
    + by rewrite on_confirmCards_refused.
    + rewrite on_confirmCards_accepted by done.
      apply seatsWellFormed_checkAllPlayersConfirmed.
      * by eapply consistent_frame.
      * by eapply seatsWellFormed_frame.
  - destruct (notOwnerIn SSummary sid (lookupKey roomId (rooms s))) eqn:Hg.
    + by rewrite on_readyForNextGame_refused.
    + rewrite on_readyForNextGame_accepted by done.
      assert (consistent (set_readyForNextGame <[sid := true]> s)) as Hc'
        by (by eapply consistent_frame).
      assert (seatsWellFormed (set_readyForNextGame <[sid := true]> s)) as Hw'
        by (by eapply seatsWellFormed_frame).
      rewrite exec_checkAllPlayersReadyForNextGame.
      destruct (nextRoundGuard _); cbn [fst]; [|done].
      apply seatsWellFormed_checkAndStartGame.
      * by apply consistent_rearmed.
      * by apply seatsWellFormed_rearmed.
  - eapply seatsWellFormed_frame; [apply on_transferPoints_rooms|done].
  - intros k r. rewrite seat_on_disconnect by done.
    destruct (seat s k) as [r0|] eqn:Hr0; [|by repeat case_decide].
    pose proof (Hw k r0 Hr0) as Hw0.
    case_decide; simpl; intros [= <-]; [|done].
    apply seatWellFormed_vacateRoom, Hw0.
Qed.

Lemma seatsWellFormed_initial : seatsWellFormed initial.
Proof.
  intros k r. unfold seat. simpl.
  repeat case_decide; intros [= <-]; by repeat split.
Qed.

Lemma reachable_seatsWellFormed s : reachable s -> seatsWellFormed s.
Proof.
  induction 1 as [|s env sid ev Hr IH Hsid Hev];
    [apply seatsWellFormed_initial|].
  apply seatsWellFormed_step; [done|by apply reachable_consistent|done].
Qed.

(** ** One seat per socket *)

Lemma oneSeatEach_step env sid ev s :
  consistent s -> oneSeatEach s -> oneSeatEach (step env sid ev s).1.
Proof.
  intros Hc Ho k1 k2 p. rewrite !(step_occupant env sid ev s) by done.
  destruct ev as [|roomId|roomId|roomId cs cc|roomId|f t n|];
    try apply Ho.
  - destruct (joinRefused (seat s roomId)); [apply Ho|].
    repeat case_decide; try congruence; try apply Ho.
  - repeat case_decide; try congruence; apply Ho.
Qed.

Lemma reachable_oneSeatEach s : reachable s -> oneSeatEach s.
Proof.
  induction 1 as [|s env sid ev Hr IH Hsid Hev].
  { intros k1 k2 p. unfold occupant, seat. simpl. by repeat case_decide. }
  apply oneSeatEach_step; [by apply reachable_consistent|done].
Qed.

(** ** The ledger through a step *)

(** A transfer is either refused with one of the four messages, or carried
    out in full. *)
Lemma on_transferPoints_cases env sid f t n s :
  consistent s ->
  (exists q,
     Number.le n Number.zero = false /\
     occupant s f = Some sid /\ occupant s t = Some q /\
     seatIn SSummary s f /\ seatIn SSummary s t /\
     step env sid (TransferPoints f t n) s =
       (transferred env f t n s,
        [Emit ToAll (pointsUpdate (playerPoints (transferred env f t n s)));
         Emit ToAll (transactionsUpdate
                       (transactions (transferred env f t n s)))])) \/
  (exists e,
     step env sid (TransferPoints f t n) s =
       (s, [Emit (ToSocket sid) (error (transferErrorMessage e))])).
Proof.
  intros Hc.
  destruct (Number.le n Number.zero) eqn:Hn.
  { right. exists InvalidAmount. unfold step, handle, on_transferPoints.
    by rewrite Hn. }
  destruct (falsy (occupant s f) || falsy (occupant s t)) eqn:Hocc.
  { right. exists SeatEmpty. unfold step, handle, on_transferPoints.
    rewrite Hn, exec_bind_get.
    unfold occupant, seat in Hocc. by rewrite Hocc. }
  destruct (bool_decide (status <$> seat s f <> Some SSummary)
            || bool_decide (status <$> seat s t <> Some SSummary)) eqn:Hph.
  { right. exists NotInSummaryPhase. unfold step, handle, on_transferPoints.
    rewrite Hn, exec_bind_get.
    unfold occupant, seat in Hocc, Hph. by rewrite Hocc, Hph. }
  destruct (decide (occupant s f <> Some sid)) as [Hown|Hown].
  { right. exists NotAuthorized. unfold step, handle, on_transferPoints.
    rewrite Hn, exec_bind_get.
    unfold occupant, seat in Hocc, Hph, Hown. rewrite Hocc, Hph.
    by rewrite decide_True. }
  left. apply orb_false_iff in Hocc as [Hf Ht], Hph as [Hsf Hst].
  apply falsy_false in Hf as (p & Hp & Hpne), Ht as (q & Hq & Hqne).
  apply bool_decide_eq_false in Hsf, Hst.
  assert (occupant s f = Some sid) as Hsid
    by (by destruct (decide (occupant s f = Some sid))).
  assert (p = sid) as -> by congruence.
  assert (seatIn SSummary s f) as Hinf.
  { apply status_seatIn. by destruct (decide (status <$> seat s f = Some SSummary)). }
  assert (seatIn SSummary s t) as Hint.
  { apply status_seatIn. by destruct (decide (status <$> seat s t = Some SSummary)). }
  exists q. split; [done|]. do 4 (split; [done|]).
  apply (on_transferPoints_accepted env s sid f t n q); try done.
  - by eapply consistent_occupant.
  - by eapply consistent_occupant.
Qed.

Lemma checkAndStartGame_ledger env s :
  consistent s ->
  playerPoints (exec (checkAndStartGame env) s).1 = playerPoints s /\
  transactions (exec (checkAndStartGame env) s).1 = transactions s.
Proof.
  intros Hc. rewrite exec_checkAndStartGame.
  destruct (decide (startCondition s)) as [Hs|Hs]; [|done]. cbn [fst]. split.
  - rewrite startPlayers_points; [done|].
    intros k Hin. simpl.
    apply (roomsWithPlayers_seat s k Hc) in Hin as (r & Hr & _).
    by eapply consistent_points, consistent_seat_key.
  - by rewrite (proj2 (proj2 (startPlayers_frame _ _ _ _ _))).
Qed.

Lemma checkAllPlayersConfirmed_ledger s :
  playerPoints (exec checkAllPlayersConfirmed s).1 = playerPoints s /\
  transactions (exec checkAllPlayersConfirmed s).1 = transactions s.
Proof.
  rewrite exec_checkAllPlayersConfirmed. by destruct (summarizeGuard s).
Qed.

(** What one event does to the balances and to the log: nothing, unless it
    is a transfer that passes every guard. *)
Lemma step_ledger env sid ev s :
  consistent s ->
  (playerPoints (step env sid ev s).1 = playerPoints s /\
   transactions (step env sid ev s).1 = transactions s) \/
  (exists f t n q,
     ev = TransferPoints f t n /\ Number.le n Number.zero = false /\
     occupant s f = Some sid /\ occupant s t = Some q /\
     seatIn SSummary s f /\ seatIn SSummary s t /\
     (step env sid ev s).1 = transferred env f t n s).
Proof.
  intros Hc.
  destruct ev as [|roomId|roomId|roomId cs cc|roomId|f t n|].
  - by left.
  - left. unfold step, handle.
    destruct (joinRefused (lookupKey roomId (rooms s))) eqn:Hg.
    + by rewrite on_joinRoom_refused.
    + by rewrite on_joinRoom_state.
  - left. unfold step, handle.
    destruct (ownsSeat_cases s sid roomId) as [Ho|Hn].
    + rewrite on_toggleReady_accepted by done. cbn [fst].
      apply (checkAndStartGame_ledger env
               (set_rooms (updateKey roomId toggleRoom) s)).
      by eapply consistent_toggled.
    + by rewrite on_toggleReady_refused.
  - left. unfold step, handle.
    destruct (notOwnerIn SPlaying sid (lookupKey roomId (rooms s))) eqn:Hg.
    + by rewrite on_confirmCards_refused.
    + rewrite on_confirmCards_accepted by done.
      by destruct (checkAllPlayersConfirmed_ledger
                     (set_playedCards
                        (setKey sid (mkPlayedCard sid roomId cs cc true)) s))
        as [-> ->].
  - left. unfold step, handle.
    destruct (notOwnerIn SSummary sid (lookupKey roomId (rooms s))) eqn:Hg.
    + by rewrite on_readyForNextGame_refused.
    + rewrite on_readyForNextGame_accepted by done.
      rewrite exec_checkAllPlayersReadyForNextGame.
      destruct (nextRoundGuard _); cbn [fst]; [|done].
      apply (checkAndStartGame_ledger env
               (rearmed (set_readyForNextGame <[sid := true]> s))).
      apply consistent_rearmed. by eapply consistent_frame.
  - destruct (on_transferPoints_cases env sid f t n s Hc)
      as [(q & Hn & Hf & Ht & Hsf & Hst & Heq)|(e & Heq)].
    + right. exists f, t, n, q. rewrite Heq. by repeat split.
    + left. by rewrite Heq.
  - left. unfold step, handle.
    destruct (on_disconnect_state sid s) as (_ & _ & _ & Hp & Ht). done.
Qed.

(** ** The ledger *)

Lemma replay_snoc k txs tx :
  replay k (txs ++ [tx]) = settle k (replay k txs) tx.
Proof. unfold replay. by rewrite foldl_app. Qed.

Lemma lookup_transferred (m : gmap string Number.number) f t n ts k :
  alter (fun v => Number.add v n) t (alter (fun v => Number.sub v n) f m) !! k
    = (fun b => settle k b (mkPointTransaction f t n ts)) <$> m !! k.
Proof.
  unfold settle. cbn [from to amount].
  destruct (decide (t = k)) as [->|Ht]; destruct (decide (f = k)) as [->|Hf];
    repeat (rewrite lookup_alter_eq || rewrite lookup_alter_ne by done);
    by destruct (m !! k).
Qed.

Lemma ledgerBalanced_transferred env f t n s :
  Number.lt Number.zero n = true -> f ∈ roomIds -> t ∈ roomIds ->
  ledgerBalanced s -> ledgerBalanced (transferred env f t n s).
Proof.
  intros Hn Hf Ht [Hnet Hdom Hvalid]. split.
  - intros k Hk. cbn [transferred playerPoints transactions set_transactions
                       set_playerPoints].
    by rewrite (lookup_transferred _ f t n (now env)), (Hnet k Hk), replay_snoc.
  - intros k Hk. cbn [transferred playerPoints transactions set_transactions
                       set_playerPoints].
    by rewrite (lookup_transferred _ f t n (now env)), (Hdom k Hk).
  - cbn [transferred playerPoints transactions set_transactions
           set_playerPoints].
    apply Forall_app. split; [done|]. apply Forall_singleton. by split.
Qed.

Lemma seatIn_roomIds st s k : consistent s -> seatIn st s k -> k ∈ roomIds.
Proof. intros Hc (r & Hr & _). by eapply consistent_seat_key. Qed.

Lemma deliverable_amount f t n :
  deliverable (TransferPoints f t n) = true -> Number.isNaN n = false.
Proof.
  cbn [deliverable]. intros [_ Hn%negb_true_iff]%andb_true_iff. exact Hn.
Qed.

Lemma ledgerBalanced_step env sid ev s :
  consistent s -> deliverable ev = true ->
  ledgerBalanced s -> ledgerBalanced (step env sid ev s).1.
Proof.
  intros Hc Hev Hl.
  destruct (step_ledger env sid ev s Hc)
    as [[Hp Ht]|(f & t & n & q & -> & Hn & _ & _ & Hsf & Hst & ->)].
  - destruct Hl as [Hnet Hdom Hvalid]. split; rewrite ?Hp, ?Ht; done.
  - apply ledgerBalanced_transferred; [|by eapply seatIn_roomIds..|done].
    apply not_le_lt_zero; [done|]. by eapply deliverable_amount.
Qed.

Lemma ledgerBalanced_initial : ledgerBalanced initial.
Proof.
  split.
  - intros k Hk. repeat (apply elem_of_cons in Hk as [->|Hk]; [by vm_compute|]).
    by apply elem_of_nil in Hk.
  - intros k Hk. simpl. unfold roomIds in Hk.
    repeat (apply not_elem_of_cons in Hk as [? Hk]).
    by rewrite !lookup_insert_ne by done.
  - constructor.
Qed.

Lemma reachable_ledgerBalanced s : reachable s -> ledgerBalanced s.
Proof.
  induction 1 as [|s env sid ev Hr IH Hsid Hev]; [apply ledgerBalanced_initial|].
  apply ledgerBalanced_step; [by apply reachable_consistent|done..].
Qed.

(** *** The log in exact arithmetic *)

Lemma net_snoc k txs tx : net k (txs ++ [tx]) = (net k txs + delta k tx)%Z.
Proof.
  induction txs as [|tx' txs IH]; simpl; [lia|]. rewrite IH. lia.
Qed.

Lemma volume_snoc txs tx :
  volume (txs ++ [tx]) = (volume txs + Z.abs (Number.toZ (amount tx)))%Z.
Proof.
  induction txs as [|tx' txs IH]; simpl; [lia|]. rewrite IH. lia.
Qed.

Lemma volume_nonneg txs : (0 <= volume txs)%Z.
Proof. induction txs as [|tx txs IH]; simpl; lia. Qed.

Lemma delta_bound k tx : (Z.abs (delta k tx) <= Z.abs (Number.toZ (amount tx)))%Z.
Proof. unfold delta. repeat case_decide; lia. Qed.

Lemma net_bound k txs : (Z.abs (net k txs) <= volume txs)%Z.
Proof.
  induction txs as [|tx txs IH]; simpl; [lia|].
  pose proof (delta_bound k tx). lia.
Qed.

(** As long as the amounts are integers and their total is a safe integer,
    the replayed balance is the exact net amount. *)
Lemma replay_exact k txs :
  Forall integerAmount txs ->
  (volume txs <= Number.MAX_SAFE_INTEGER)%Z ->
  replay k txs = Number.ofZ (net k txs).
Proof.
  induction txs as [|tx txs IH] using rev_ind; [done|].
  intros [Hint Htx]%Forall_app Hvol. rewrite Forall_singleton in Htx.
  rewrite volume_snoc in Hvol. pose proof (volume_nonneg txs) as Hv.
  rewrite replay_snoc, net_snoc, IH by (done || lia).
  pose proof (net_bound k txs) as Hnet.
  unfold settle, delta. unfold integerAmount in Htx.
  set (n := Number.toZ (amount tx)) in *. rewrite Htx.
  assert (Number.isSafeInteger n) as Hn
    by (unfold Number.isSafeInteger; lia).
  assert (Number.isSafeInteger (net k txs)) as HN
    by (unfold Number.isSafeInteger; lia).
  assert (Number.isSafeInteger (net k txs - n)) as HNn
    by (unfold Number.isSafeInteger; lia).
  assert (Number.isSafeInteger (net k txs + n)) as HNp
    by (unfold Number.isSafeInteger; lia).
  destruct (decide (from tx = k)), (decide (to tx = k)).
  - rewrite (sub_exact (net k txs) n) by done.
    rewrite (add_exact (net k txs - n) n); [f_equal; lia|done|done|].
    by replace (net k txs - n + n)%Z with (net k txs) by lia.
  - rewrite sub_exact by done. f_equal; lia.
  - rewrite add_exact by done. f_equal; lia.
  - f_equal; lia.
Qed.

Lemma delta_total tx :
  from tx ∈ roomIds -> to tx ∈ roomIds ->
  foldr Z.add 0%Z ((fun k => delta k tx) <$> roomIds) = 0%Z.
Proof.
  intros Hf Ht. unfold delta. destruct tx as [f t n ts]. simpl in *.
  repeat (apply elem_of_cons in Hf as [->|Hf]); [..|by apply elem_of_nil in Hf];
    (repeat (apply elem_of_cons in Ht as [->|Ht]);
       [..|by apply elem_of_nil in Ht]);
    repeat case_decide; simplify_eq; simpl; lia.
Qed.

Lemma net_total txs :
  Forall validTransaction txs ->
  foldr Z.add 0%Z ((fun k => net k txs) <$> roomIds) = 0%Z.
Proof.
  induction 1 as [|tx txs (_ & Hf & Ht) _ IH]; [done|].
  pose proof (delta_total tx Hf Ht) as Hd. simpl in *. lia.
Qed.

(** ** The stored hands *)

Section HandFacts.
Context {V : Type}.
Implicit Types (o : list (string * V)).

Lemma setKey_keys k v o :
  (setKey k v o).*1 = if decide (k ∈ o.*1) then o.*1 else o.*1 ++ [k].
Proof.
  induction o as [|[k' v'] o IH].
  - destruct (decide (k ∈ ([] : list (string * V)).*1)) as [Hin|_]; [|done].
    by apply elem_of_nil in Hin.
  - cbn [setKey]. rewrite fmap_cons. cbn [fst].
    destruct (decide (k' = k)) as [->|Hne].
    + rewrite decide_True; [done|]. apply elem_of_cons. by left.
    + rewrite fmap_cons, IH. cbn [fst].
      destruct (decide (k ∈ o.*1)) as [Hin|Hin].
      * rewrite decide_True; [done|]. apply elem_of_cons. by right.
      * rewrite decide_False; [done|]. intros [?|?]%elem_of_cons; congruence.
Qed.

Lemma setKey_NoDup k v o : NoDup o.*1 -> NoDup (setKey k v o).*1.
Proof.
  intros Hnd. rewrite setKey_keys. case_decide as Hin; [done|].
  apply NoDup_app. split; [done|]. split.
  - intros x Hx [->|[]%elem_of_nil]%elem_of_cons. done.
  - apply NoDup_singleton.
Qed.

Lemma Forall_setKey (P : string * V -> Prop) k v o :
  Forall P o -> P (k, v) -> (forall k' v', P (k', v') -> k' = k -> P (k', v)) ->
  Forall P (setKey k v o).
Proof.
  intros Ho Hkv Hrepl. induction Ho as [|[k' v'] o Hx Ho IH]; simpl.
  - by constructor.
  - destruct (decide (k' = k)) as [Heq|Hne]; constructor; eauto.
Qed.

Lemma deleteKey_NoDup k o : NoDup o.*1 -> NoDup (deleteKey k o).*1.
Proof.
  intros Hnd. eapply sublist_NoDup; [done|].
  apply fmap_sublist, sublist_filter.
Qed.

Lemma Forall_deleteKey (P : string * V -> Prop) k o :
  Forall P o -> Forall P (deleteKey k o).
Proof.
  intros Ho. apply Forall_forall. intros e [_ He]%list_elem_of_filter.
  by eapply Forall_forall in Ho.
Qed.
End HandFacts.

Lemma checkAndStartGame_playedCards env s :
  playedCards (exec (checkAndStartGame env) s).1 =
    if decide (startCondition s) then [] else playedCards s.
Proof.
  rewrite exec_checkAndStartGame. case_decide; [|done]. cbn [fst].
  by rewrite (proj1 (startPlayers_frame _ _ _ _ _)).
Qed.

(** What one event does to the stored hands. *)
Lemma step_playedCards env sid ev s :
  consistent s ->
  playedCards (step env sid ev s).1 = playedCards s \/
  playedCards (step env sid ev s).1 = [] \/
  (exists roomId cs cc,
     ev = ConfirmCards roomId cs cc /\
     ownsSeat s sid roomId /\ seatIn SPlaying s roomId /\
     playedCards (step env sid ev s).1 =
       setKey sid (mkPlayedCard sid roomId cs cc true) (playedCards s)) \/
  (ev = Disconnect /\
   playedCards (step env sid ev s).1 = deleteKey sid (playedCards s)).
Proof.
  intros Hc. unfold step.
  destruct ev as [|roomId|roomId|roomId cs cc|roomId|f t n|]; cbn [handle].
  - by left.
  - left. destruct (joinRefused (lookupKey roomId (rooms s))) eqn:Hg.
    + by rewrite on_joinRoom_refused.
    + by rewrite on_joinRoom_state.
  - destruct (ownsSeat_cases s sid roomId) as [Ho|Hn].
    + rewrite on_toggleReady_accepted by done. cbn [fst].
      rewrite checkAndStartGame_playedCards. case_decide; [by right; left|by left].
    + left. by rewrite on_toggleReady_refused.
  - destruct (notOwnerIn SPlaying sid (lookupKey roomId (rooms s))) eqn:Hg.
    + left. by rewrite on_confirmCards_refused.
    + right. right. left. exists roomId, cs, cc.
      apply notOwnerIn_false in Hg as (r & Hr & Hp & Hs).
      split; [done|]. split; [by exists r|]. split; [by exists r|].
      rewrite on_confirmCards_accepted by (apply notOwnerIn_false; by exists r).
      by rewrite checkAllPlayersConfirmed_playedCards.
  - destruct (notOwnerIn SSummary sid (lookupKey roomId (rooms s))) eqn:Hg.
    + left. by rewrite on_readyForNextGame_refused.
    + rewrite on_readyForNextGame_accepted by done.
      rewrite exec_checkAllPlayersReadyForNextGame.
      destruct (nextRoundGuard _); cbn [fst]; [|by left].
      right. left. rewrite checkAndStartGame_playedCards. by case_decide.
  - left. destruct (on_transferPoints_cases env sid f t n s Hc)
      as [(q & _ & _ & _ & _ & _ & Heq)|(e & Heq)];
      unfold step, handle in Heq; by rewrite Heq.
  - right. right. right. split; [done|].
    by destruct (on_disconnect_state sid s) as (_ & -> & _).
Qed.

Lemma handsValid_step env sid ev s :
  sid <> "" -> consistent s -> handsValid s -> handsValid (step env sid ev s).1.
Proof.
  intros Hsid Hc [Hnd Hall].
  destruct (step_playedCards env sid ev s Hc)
    as [Heq|[Heq|[(roomId & cs & cc & _ & _ & Hin & Heq)|[_ Heq]]]];
    unfold handsValid; rewrite Heq.
  - done.
  - split; [constructor|constructor].
  - split; [by apply setKey_NoDup|].
    apply Forall_setKey; [done|..].
    + repeat split; try done. simpl. by eapply seatIn_roomIds.
    + intros k' v' _ ->. repeat split; try done. simpl. by eapply seatIn_roomIds.
  - split; [by apply deleteKey_NoDup|by apply Forall_deleteKey].
Qed.

Lemma reachable_handsValid s : reachable s -> handsValid s.
Proof.
  induction 1 as [|s env sid ev Hr IH Hsid Hev].
  { split; constructor. }
  apply handsValid_step; [done|by apply reachable_consistent|done].
Qed.

Lemma reachable_settledRound : reachable settledRound.
Proof.
  apply reachable_run; [apply reachable_summaryRound|]. by repeat constructor.
Qed.

Lemma seat_roomIds s k :
  (rooms s).*1 = roomIds -> k ∈ roomIds <-> is_Some (seat s k).
Proof.
  intros Hk. rewrite <- Hk, <- not_eq_None_Some. unfold seat.
  rewrite lookupKey_None.
  destruct (decide (k ∈ (rooms s).*1)); tauto.
Qed.

(** X5.  In every state the server can reach, the registry [rooms] holds
    exactly the four seats room-1 .. room-4, in this order, and every seat
    has capacity 1, is flagged ready exactly when its status is [ready], has
    no occupant exactly when its status is [empty], and is never occupied
    by the empty socket id. *)
Theorem reachable_seats_well_formed (s : State) :
  reachable s ->
  (rooms s).*1 = roomIds /\
  (forall k, k ∈ roomIds <-> is_Some (seat s k)) /\
  (forall k r, seat s k = Some r ->
     capacity r = 1 /\
     (isReady r = true <-> status r = SReady) /\
     (player r = None <-> status r = SEmpty) /\
     player r <> Some "").
Proof.
  intros Hr. pose proof (reachable_consistent s Hr) as Hc.
  split; [apply Hc|]. split.
  - intros k. apply seat_roomIds, Hc.
  - intros k r Hk. by apply (reachable_seatsWellFormed s Hr k r).
Qed.

Lemma reachable_seats_well_formed_witness :
  reachable loneReady /\
  (rooms loneReady).*1 = roomIds /\
  (isReady (mkGameRoom (Some "alice") true 1 SReady) = true <->
   status (mkGameRoom (Some "alice") true 1 SReady) = SReady).
Proof.
  pose proof (reachable_seats_well_formed loneReady reachable_loneReady)
    as (Hkeys & _ & Hseats).
  split; [apply reachable_loneReady|]. split; [exact Hkeys|].
  apply (Hseats "room-1" (mkGameRoom (Some "alice") true 1 SReady)).
  by vm_compute.
Defined.

(** X6.  In every reachable state a socket occupies at most one seat: two
    seats with the same occupant are the same seat, the loops over the
    seats of a socket (in [joinRoom] and [disconnect]) find at most one,
    and [getRoomByPlayerId] returns the seat of a socket exactly when it
    has one. *)
Theorem reachable_one_seat_per_socket (s : State) (p : string) :
  reachable s ->
  (forall k1 k2, occupant s k1 = Some p -> occupant s k2 = Some p -> k1 = k2) /\
  length (filter (fun e => player e.2 = Some p) (rooms s)) <= 1 /\
  (forall k, getRoomByPlayerId p s = Some k <-> occupant s k = Some p) /\
  (getRoomByPlayerId p s = None <-> forall k, occupant s k <> Some p).
Proof.
  intros Hr. pose proof (reachable_consistent s Hr) as Hc.
  pose proof (reachable_oneSeatEach s Hr) as Hone.
  assert (forall k r, (k, r) ∈ filter (fun e => player e.2 = Some p) (rooms s)
            -> occupant s k = Some p) as Hocc.
  { intros k r [Hp Hin]%list_elem_of_filter. unfold occupant.
    apply (consistent_seat_entry s k r Hc) in Hin. by rewrite Hin. }
  assert (forall k, occupant s k = Some p ->
            exists r, (k, r) ∈ filter (fun e => player e.2 = Some p) (rooms s))
    as Hfound.
  { intros k Hk. unfold occupant in Hk.
    destruct (seat s k) as [r|] eqn:Hs; [|done]. exists r.
    apply list_elem_of_filter. split; [done|].
    by apply consistent_seat_entry. }
  assert (length (filter (fun e => player e.2 = Some p) (rooms s)) <= 1) as Hlen.
  { pose proof (consistent_NoDup s Hc) as Hnd.
    assert (NoDup (filter (fun e => player e.2 = Some p) (rooms s)).*1) as Hnd'.
    { eapply sublist_NoDup; [done|]. apply fmap_sublist, sublist_filter. }
    destruct (filter (fun e => player e.2 = Some p) (rooms s))
      as [|[k1 r1] [|[k2 r2] l]]; simpl; [lia|lia|exfalso].
    assert (k1 = k2) as ->.
    { apply (Hone k1 k2 p).
      - apply (Hocc k1 r1). apply elem_of_cons. by left.
      - apply (Hocc k2 r2). apply elem_of_cons. right. apply elem_of_cons.
        by left. }
    simpl in Hnd'. apply NoDup_cons in Hnd' as [Hnin _]. apply Hnin.
    apply elem_of_cons. by left. }
  split; [intros k1 k2; apply Hone|]. split; [exact Hlen|].
  unfold getRoomByPlayerId. split.
  - intros k. split.
    + destruct (filter (fun e => player e.2 = Some p) (rooms s))
        as [|[k1 r1] l] eqn:Hf; [done|]. simpl. intros [= <-].
      apply (Hocc k1 r1). apply elem_of_cons. by left.
    + intros Hk. destruct (Hfound k Hk) as [r Hin].
      destruct (filter (fun e => player e.2 = Some p) (rooms s))
        as [|[k1 r1] l] eqn:Hf; [by apply elem_of_nil in Hin|]. simpl.
      f_equal. apply (Hone k1 k p); [|done].
      apply (Hocc k1 r1). apply elem_of_cons. by left.
  - split.
    + intros Hnone k Hk. destruct (Hfound k Hk) as [r Hin].
      destruct (filter (fun e => player e.2 = Some p) (rooms s));
        [by apply elem_of_nil in Hin|done].
    + intros Hnone.
      destruct (filter (fun e => player e.2 = Some p) (rooms s))
        as [|[k1 r1] l] eqn:Hf; [done|]. exfalso.
      apply (Hnone k1), (Hocc k1 r1). apply elem_of_cons. by left.
Qed.

Lemma reachable_one_seat_per_socket_witness :
  reachable playingRound /\
  getRoomByPlayerId "bob" playingRound = Some "room-2".
Proof.
  pose proof (reachable_one_seat_per_socket playingRound "bob"
                reachable_playingRound) as (_ & _ & Hget & _).
  split; [apply reachable_playingRound|]. apply Hget. by vm_compute.
Defined.

(** X7.  No event seats or unseats another socket.  Handling an event of
    socket [sid] leaves the occupant of every seat held by another socket
    as it is and gives no seat to another socket; [sid] itself gains a seat
    only by a [joinRoom] that names this seat, and loses its seat only by
    disconnecting or by joining elsewhere. *)
Theorem step_occupancy_only_by_caller (env : Env) (s : State) (sid : string)
    (ev : Event) (k : string) :
  reachable s ->
  let s' := (step env sid ev s).1 in
  (forall p, p <> sid -> occupant s' k = Some p <-> occupant s k = Some p) /\
  (occupant s' k = Some sid ->
     occupant s k = Some sid \/ (ev = JoinRoom k /\ seatAvailable s k)) /\
  (occupant s k = Some sid ->
     occupant s' k = Some sid \/
     (occupant s' k = None /\
      (ev = Disconnect \/
       exists roomId, ev = JoinRoom roomId /\ roomId <> k /\
                      seatAvailable s roomId))).
Proof.
  intros Hr s'. pose proof (reachable_consistent s Hr) as Hc.
  unfold s'. rewrite (step_occupant env sid ev s k Hc).
  destruct ev as [|roomId|roomId|roomId cs cc|roomId|f t n|];
    try (split; [intros; tauto|split; intros; tauto]).
  - destruct (joinRefused (seat s roomId)) eqn:Hg;
      [split; [intros; tauto|split; intros; tauto]|].
    assert (seatAvailable s roomId) as Hav.
    { unfold seatAvailable. destruct (seat s roomId) as [r|] eqn:Hs; [|done].
      exists r. split; [done|]. simpl in Hg.
      apply orb_false_iff in Hg as [H1 H2].
      apply bool_decide_eq_false in H1, H2. split; [done|].
      destruct (player r); [by destruct H2|done]. }
    assert (occupant s roomId = None) as Hfree.
    { destruct Hav as (r & Hr' & _ & Hnone). unfold occupant.
      by rewrite Hr'. }
    split; [|split].
    + intros p Hp. repeat case_decide; split; congruence.
    + intros Hs. case_decide as Hk; [right; by subst|].
      case_decide; [done|by left].
    + intros Hs. case_decide as Hk; [congruence|].
      rewrite decide_True by done. right. split; [done|]. right.
        exists roomId. split; [done|]. split; [congruence|done].
  - split; [|split].
    + intros p Hp. case_decide; split; congruence.
    + intros Hs. case_decide; [done|by left].
    + intros Hs. rewrite decide_True by done. right. split; [done|by left].
Qed.

Lemma step_occupancy_only_by_caller_witness :
  reachable lobby /\
  (occupant (step demoEnv "bob" (JoinRoom "room-3") lobby).1 "room-1"
     = Some "alice" <-> occupant lobby "room-1" = Some "alice").
Proof.
  pose proof (step_occupancy_only_by_caller demoEnv lobby "bob"
                (JoinRoom "room-3") "room-1" reachable_lobby) as H.
  cbn zeta in H. destruct H as (Hother & _).
  split; [apply reachable_lobby|]. by apply (Hother "alice").
Defined.

(** X8.  In every reachable state the balance of each seat is what the
    transaction log gives when it is replayed from 0, transfer after
    transfer, with the debits, the credits and the rounding of the number
    arithmetic of the server (a balance may be negative); the balances are
    kept for the four seats and for nothing else.  As long as the logged
    amounts are integers and their total is a safe integer (at most
    2^53 - 1), no rounding occurs: the balance of each seat is the exact net
    amount of the log (what it received less what it sent) and the net
    amounts of the four seats sum to zero. *)
Theorem reachable_ledger_balanced (s : State) :
  reachable s ->
  (forall k, k ∈ roomIds ->
     playerPoints s !! k = Some (replay k (transactions s))) /\
  (forall k, k ∉ roomIds -> playerPoints s !! k = None) /\
  (Forall integerAmount (transactions s) ->
   (volume (transactions s) <= Number.MAX_SAFE_INTEGER)%Z ->
   (forall k, k ∈ roomIds ->
      playerPoints s !! k = Some (Number.ofZ (net k (transactions s)))) /\
   foldr Z.add 0%Z ((fun k => net k (transactions s)) <$> roomIds) = 0%Z).
Proof.
  intros Hr. destruct (reachable_ledgerBalanced s Hr) as [Hnet Hdom Hvalid].
  split; [done|]. split; [done|]. intros Hint Hvol. split.
  - intros k Hk. by rewrite (Hnet k Hk), replay_exact.
  - by apply net_total.
Qed.

Lemma reachable_ledger_balanced_witness :
  reachable settledRound /\
  playerPoints settledRound !! "room-1"
    = Some (replay "room-1" (transactions settledRound)) /\
  playerPoints settledRound !! "room-1" = Some (Number.ofZ (-50)) /\
  net "room-1" (transactions settledRound) = (-50)%Z /\
  foldr Z.add 0%Z ((fun k => net k (transactions settledRound)) <$> roomIds)
    = 0%Z.
Proof.
  pose proof (reachable_ledger_balanced settledRound reachable_settledRound)
    as (Hreplay & _ & Hexact).
  assert ("room-1" ∈ roomIds) as Hk by (apply elem_of_cons; by left).
  assert (Forall integerAmount (transactions settledRound)) as Hint
    by (by repeat constructor).
  assert (volume (transactions settledRound) <= Number.MAX_SAFE_INTEGER)%Z
    as Hvol by (by vm_compute).
  destruct (Hexact Hint Hvol) as [Hnet Htotal].
  split; [apply reachable_settledRound|].
  split; [exact (Hreplay "room-1" Hk)|].
  split; [exact (Hnet "room-1" Hk)|].
  split; [by vm_compute|exact Htotal].
Defined.

(** X9.  The transaction log is append-only and grows by at most one
    entry per event, and the ledger (balances and log) changes only when a
    [transferPoints] passes every guard: an amount that is not [<= 0]
    (positive, unless it is NaN), sent by the occupant of the paying seat,
    both seats occupied and in status [summary].  The event then appends its
    own transaction, stamped with the clock, and debits the paying seat,
    then credits the receiving seat, by the amount, with the rounding of
    the number arithmetic; no other balance changes. *)
Theorem ledger_changes_only_by_transfer (env : Env) (s : State) (sid : string)
    (ev : Event) :
  reachable s ->
  let s' := (step env sid ev s).1 in
  transactions s `prefix_of` transactions s' /\
  length (transactions s') <= length (transactions s) + 1 /\
  (playerPoints s' <> playerPoints s \/ transactions s' <> transactions s ->
   exists f t n,
     ev = TransferPoints f t n /\ Number.le n Number.zero = false /\
     (Number.isNaN n = false -> Number.lt Number.zero n = true) /\
     occupant s f = Some sid /\ is_Some (occupant s t) /\
     seatIn SSummary s f /\ seatIn SSummary s t /\
     transactions s' =
       transactions s ++ [mkPointTransaction f t n (now env)] /\
     playerPoints s' =
       alter (fun v => Number.add v n) t
         (alter (fun v => Number.sub v n) f (playerPoints s)) /\
     (forall k,
        playerPoints s' !! k =
          (fun b => settle k b (mkPointTransaction f t n (now env)))
            <$> playerPoints s !! k) /\
     (forall k, k <> f -> k <> t ->
        playerPoints s' !! k = playerPoints s !! k)).
Proof.
  intros Hr s'. pose proof (reachable_consistent s Hr) as Hc.
  destruct (step_ledger env sid ev s Hc)
    as [[Hp Ht]|(f & t & n & q & -> & Hn & Hf & Hq & Hsf & Hst & Heq)];
    unfold s'.
  - rewrite Hp, Ht. split; [done|]. split; [lia|]. by intros [?|?].
  - rewrite Heq. cbn [transferred transactions set_transactions
                       set_playerPoints playerPoints].
    split; [by apply prefix_app_r|]. split; [rewrite length_app; simpl; lia|].
    intros _. exists f, t, n. do 2 (split; [done|]).
    split; [by apply not_le_lt_zero|]. split; [done|]. split; [by exists q|].
    do 4 (split; [done|]). split.
    + intros k. apply lookup_transferred.
    + intros k Hkf Hkt. by rewrite !lookup_alter_ne.
Qed.

Lemma ledger_changes_only_by_transfer_witness :
  reachable summaryRound /\
  transactions summaryRound `prefix_of`
    transactions
      (step demoEnv "alice" (TransferPoints "room-1" "room-2" (Number.ofZ 50))
            summaryRound).1.
Proof.
  pose proof (ledger_changes_only_by_transfer demoEnv summaryRound "alice"
                (TransferPoints "room-1" "room-2" (Number.ofZ 50))
                reachable_summaryRound)
    as H.
  cbn zeta in H. split; [apply reachable_summaryRound|apply H].
Defined.

(** X10.  Every transaction the log of a reachable state holds has a
    positive amount and names two of the four seats (which may be the same
    seat). *)
Theorem reachable_transactions_valid (s : State) (tx : PointTransaction) :
  reachable s ->
  tx ∈ transactions s ->
  Number.lt Number.zero (amount tx) = true /\
  from tx ∈ roomIds /\ to tx ∈ roomIds.
Proof.
  intros Hr Hin. destruct (reachable_ledgerBalanced s Hr) as [_ _ Hvalid].
  by eapply Forall_forall in Hvalid.
Qed.

Lemma reachable_transactions_valid_witness :
  reachable settledRound /\
  mkPointTransaction "room-1" "room-2" (Number.ofZ 50) 1000
    ∈ transactions settledRound /\
  "room-1" ∈ roomIds.
Proof.
  assert (mkPointTransaction "room-1" "room-2" (Number.ofZ 50) 1000
            ∈ transactions settledRound) as Hin.
  { vm_compute. apply elem_of_cons. by left. }
  pose proof (reachable_transactions_valid settledRound _
                reachable_settledRound Hin) as (_ & Hfrom & _).
  split; [apply reachable_settledRound|]. split; [exact Hin|exact Hfrom].
Defined.

(** X11.  In every reachable state the registry of played hands holds at
    most one hand per socket, each filed under the id of the socket that
    sent it, marked confirmed, and naming one of the four seats; one event
    leaves the registry as it is, empties it, stores the hand its sender
    confirms from a playing seat, or deletes the hand of the socket that
    disconnects. *)
Theorem reachable_played_hands_valid (s : State) :
  reachable s ->
  NoDup (playedCards s).*1 /\
  (forall p h, lookupKey p (playedCards s) = Some h ->
     playerId h = p /\ confirmed h = true /\ roomId h ∈ roomIds /\ p <> "") /\
  (forall env sid ev,
     let s' := (step env sid ev s).1 in
     playedCards s' = playedCards s \/
     playedCards s' = [] \/
     (exists roomId cs cc,
        ev = ConfirmCards roomId cs cc /\
        ownsSeat s sid roomId /\ seatIn SPlaying s roomId /\
        playedCards s' =
          setKey sid (mkPlayedCard sid roomId cs cc true) (playedCards s)) \/
     (ev = Disconnect /\ playedCards s' = deleteKey sid (playedCards s))).
Proof.
  intros Hr. destruct (reachable_handsValid s Hr) as [Hnd Hall].
  split; [done|]. split.
  - intros p h Hh%lookupKey_Some_elem.
    eapply Forall_forall in Hall; [|exact Hh]. exact Hall.
  - intros env sid ev. apply step_playedCards. by apply reachable_consistent.
Qed.

Lemma reachable_played_hands_valid_witness :
  reachable summaryRound /\
  playerId (mkPlayedCard "bob" "room-2" fullHand None true) = "bob".
Proof.
  pose proof (reachable_played_hands_valid summaryRound reachable_summaryRound)
    as (_ & Hhands & _).
  split; [apply reachable_summaryRound|].
  apply (Hhands "bob" (mkPlayedCard "bob" "room-2" fullHand None true)).
  by vm_compute.
Defined.

(** ** What the Start transition sends *)

Lemma startPlayer_emissions env ps gc e s :
  (exec (startPlayer env ps gc e) s).2 = startEmission env ps gc e.
Proof.
  destruct e as [k r]. unfold startPlayer, startEmission.
  rewrite exec_bind_modify. cbn [fst snd]. destruct (player r) as [p|]; [|done].
  destruct (connected env p); [|done].
  by rewrite exec_bind, exec_ensurePlayerPoints, exec_emit.
Qed.

Lemma startPlayers_emissions env ps gc xs s :
  (exec (forEach xs (startPlayer env ps gc)) s).2 =
    xs ≫= startEmission env ps gc.
Proof.
  revert s. induction xs as [|x xs IH]; intros s; [done|].
  rewrite exec_forEach_cons. cbn [snd].
  by rewrite startPlayer_emissions, IH, bind_cons.
Qed.

Lemma checkAndStartGame_emissions env s :
  (exec (checkAndStartGame env) s).2 =
    if decide (startCondition s) then
      let ps := omap (fun e => player e.2) (roomsWithPlayers s) in
      (roomsWithPlayers s ≫= startEmission env ps (dealCards (rand env) ps))
        ++ [Emit ToAll (roomsUpdate (rooms (exec (checkAndStartGame env) s).1));
            Emit ToAll
              (pointsUpdate (playerPoints (exec (checkAndStartGame env) s).1))]
    else [].
Proof.
  rewrite exec_checkAndStartGame. case_decide; [|done]. cbn [fst snd].
  by rewrite startPlayers_emissions.
Qed.

(** The occupants of the occupied seats, seat by seat. *)
Lemma roomsWithPlayers_length s :
  length (omap (fun e : string * GameRoom => player e.2) (roomsWithPlayers s))
    = length (roomsWithPlayers s).
Proof.
  unfold roomsWithPlayers.
  induction (rooms s) as [|[k r] l IH]; [done|].
  destruct (player r) as [p|] eqn:Hp.
  - rewrite filter_cons_True by (simpl; congruence).
    cbn [omap list_omap snd]. rewrite Hp. cbn [length]. f_equal. apply IH.
  - rewrite filter_cons_False; [apply IH|]. simpl. by intros [].
Qed.

(** The occupants of the occupied seats, seat by seat. *)
Lemma roomsWithPlayers_occupants s i k r :
  roomsWithPlayers s !! i = Some (k, r) ->
  exists p, player r = Some p /\
    omap (fun e : string * GameRoom => player e.2) (roomsWithPlayers s) !! i
      = Some p.
Proof.
  unfold roomsWithPlayers. revert i.
  induction (rooms s) as [|[k' r'] l IH]; intros i; [done|].
  destruct (player r') as [p'|] eqn:Hp'.
  - rewrite filter_cons_True by (simpl; congruence).
    cbn [omap list_omap snd]. rewrite Hp'. destruct i as [|i].
    + intros [= -> ->]. by exists p'.
    + apply IH.
  - rewrite filter_cons_False; [apply IH|]. simpl. by intros [].
Qed.

Lemma roomsWithPlayers_NoDup s :
  consistent s -> oneSeatEach s ->
  NoDup (omap (fun e : string * GameRoom => player e.2) (roomsWithPlayers s)).
Proof.
  intros Hc Hone. apply NoDup_alt. intros i j p Hi Hj.
  assert (forall i, omap (fun e : string * GameRoom => player e.2)
                      (roomsWithPlayers s) !! i = Some p ->
            exists k r, roomsWithPlayers s !! i = Some (k, r) /\
                        occupant s k = Some p) as Hback.
  { intros n Hn.
    assert (n < length (roomsWithPlayers s)) as Hlt.
    { rewrite <- roomsWithPlayers_length. by eapply lookup_lt_Some. }
    apply lookup_lt_is_Some in Hlt as [[k r] Hkr].
    destruct (roomsWithPlayers_occupants s n k r Hkr) as (p' & Hp' & Hn').
    exists k, r. split; [done|].
    assert (p' = p) as -> by congruence.
    apply list_elem_of_lookup_2, elem_of_roomsWithPlayers in Hkr as [Hin _].
    unfold occupant. by rewrite (consistent_entry s k r Hc Hin). }
  destruct (Hback i Hi) as (ki & ri & Hki & Hoi).
  destruct (Hback j Hj) as (kj & rj & Hkj & Hoj).
  assert (ki = kj) as <- by (by eapply Hone).
  assert (NoDup (roomsWithPlayers s).*1) as Hnd.
  { eapply sublist_NoDup; [apply (consistent_NoDup s Hc)|].
    apply fmap_sublist, sublist_filter. }
  eapply NoDup_lookup; [exact Hnd|..].
  - by rewrite list_lookup_fmap, Hki.
  - by rewrite list_lookup_fmap, Hkj.
Qed.

Lemma roomsWithPlayers_le s :
  consistent s -> length (roomsWithPlayers s) <= 4.
Proof.
  intros Hc. unfold roomsWithPlayers.
  etrans; [apply length_filter|].
  rewrite <- (length_fmap fst), (consistent_keys s Hc). done.
Qed.

(** A [gameStart] sent by [checkAndStartGame]: to the occupant of the seat
    it names, with the 13 cards of the slice of its position. *)
Lemma checkAndStartGame_gameStart env s t cs cc ps k :
  consistent s -> oneSeatEach s -> (forall i, rand env i <= i) ->
  Emit t (gameStart cs cc ps k) ∈ (exec (checkAndStartGame env) s).2 ->
  exists p i,
    t = ToSocket p /\ occupant s k = Some p /\ connected env p = true /\
    ps = omap (fun e => player e.2) (roomsWithPlayers s) /\
    NoDup ps /\ 2 <= length ps <= 4 /\ ps !! i = Some p /\
    cs = Some (slice (i * 13) ((i + 1) * 13)
                 (shuffleDeck (rand env) createDeck)) /\
    cc = slice (length ps * 13) (length ps * 13 + 4)
           (shuffleDeck (rand env) createDeck) /\
    (forall hand, cs = Some hand -> length hand = 13) /\ length cc = 4.
Proof.
  intros Hc Hone Hrand. rewrite checkAndStartGame_emissions.
  case_decide as Hstart; [|by intros ?%elem_of_nil]. cbn zeta.
  set (ps0 := omap (fun e : string * GameRoom => player e.2) (roomsWithPlayers s)).
  intros [Hin|Hin]%elem_of_app; cycle 1.
  { apply elem_of_cons in Hin as [[=]|Hin].
    apply elem_of_cons in Hin as [[=]|Hin]. by apply elem_of_nil in Hin. }
  apply list_elem_of_bind in Hin as ([k' r] & Hin & Hkr).
  unfold startEmission in Hin. simpl in Hin.
  destruct (player r) as [p|] eqn:Hp; [|by apply elem_of_nil in Hin].
  destruct (connected env p) eqn:Hconn; [|by apply elem_of_nil in Hin].
  apply elem_of_cons in Hin as [[= -> -> -> -> ->]|Hin];
    [|by apply elem_of_nil in Hin].
  apply list_elem_of_lookup in Hkr as [i Hi].
  destruct (roomsWithPlayers_occupants s i k' r Hi) as (p' & Hp' & Hpi).
  assert (p' = p) as -> by congruence. fold ps0 in Hpi.
  assert (NoDup ps0) as Hnd by (by apply roomsWithPlayers_NoDup).
  assert (2 <= length ps0 <= 4) as Hlen.
  { unfold ps0. rewrite roomsWithPlayers_length. split; [apply Hstart|].
    by apply roomsWithPlayers_le. }
  assert (length (shuffleDeck (rand env) createDeck) = 56) as Hdeck
    by (by rewrite shuffleDeck_Permutation).
  assert (i < length ps0) as Hi4 by (by eapply lookup_lt_Some).
  exists p, i. split; [done|]. split.
  { apply list_elem_of_lookup_2, elem_of_roomsWithPlayers in Hi as [Hin _].
    unfold occupant. by rewrite (consistent_entry s k' r Hc Hin). }
  split; [done|]. split; [done|]. split; [done|]. split; [done|].
  split; [done|].
  assert (players (dealCards (rand env) ps0) !! p
          = Some (slice (i * 13) ((i + 1) * 13)
                    (shuffleDeck (rand env) createDeck))) as Hhand.
  { unfold dealCards, dealFrom. cbn [players].
    rewrite (dealLoop_last _ 0 ps0 ∅ i p Hpi); [done|].
    intros Hdrop. apply list_elem_of_lookup in Hdrop as [j Hj].
    rewrite lookup_drop in Hj.
    pose proof (NoDup_lookup ps0 i (S i + j) p Hnd Hpi Hj). lia. }
  split; [done|]. split; [done|]. split.
  - intros hand Hh. pose proof (eq_trans (eq_sym Hh) Hhand) as [= ->].
    rewrite slice_length_min, Hdeck. lia.
  - unfold dealCards, dealFrom. cbn [communityCards].
    rewrite slice_length_min, Hdeck. lia.
Qed.

Lemma elem_of_occupants s q :
  consistent s ->
  q ∈ omap (fun e : string * GameRoom => player e.2) (roomsWithPlayers s) <->
  exists k, occupant s k = Some q.
Proof.
  intros Hc. rewrite list_elem_of_omap. split.
  - intros ([k r] & [Hin _]%elem_of_roomsWithPlayers & Hq). simpl in Hq.
    exists k. unfold occupant. by rewrite (consistent_entry s k r Hc Hin).
  - intros [k Hk]. unfold occupant in Hk.
    destruct (seat s k) as [r|] eqn:Hr; [|done]. simpl in Hk.
    exists (k, r). split; [|done]. apply elem_of_roomsWithPlayers.
    split; [by apply lookupKey_Some_elem|congruence].
Qed.

Lemma oneSeatEach_occupants s s' :
  (forall k, occupant s' k = occupant s k) -> oneSeatEach s -> oneSeatEach s'.
Proof. intros Heq Hone k1 k2 p. rewrite !Heq. apply Hone. Qed.

(** Every [gameStart] of a step is sent by [checkAndStartGame], run on
    registries with the occupants of the state before the step. *)
Lemma step_gameStart_source env sid ev s t cs cc ps k :
  consistent s -> oneSeatEach s ->
  Emit t (gameStart cs cc ps k) ∈ (step env sid ev s).2 ->
  exists m,
    consistent m /\ oneSeatEach m /\
    (forall k, occupant m k = occupant s k) /\
    (step env sid ev s).1 = (exec (checkAndStartGame env) m).1 /\
    Emit t (gameStart cs cc ps k) ∈ (exec (checkAndStartGame env) m).2.
Proof.
  intros Hc Hone Hin.
  assert (KGameStart ∈ outboundOf ev) as Hkind.
  { pose proof (step_outbound env sid ev s) as Hall.
    eapply Forall_forall in Hall; [|exact Hin]. exact Hall. }
  unfold step in *.
  destruct ev as [|roomId|roomId|roomId cs' cc'|roomId|f t' n|];
    cbn [handle outboundOf] in *; try absurd_kind Hkind.
  - destruct (ownsSeat_cases s sid roomId) as [Ho|Hn].
    + rewrite on_toggleReady_accepted in Hin |- * by done. cbn [fst snd] in *.
      apply elem_of_cons in Hin as [[=]|Hin].
      exists (set_rooms (updateKey roomId toggleRoom) s).
      split; [by eapply consistent_toggled|].
      split; [eapply oneSeatEach_occupants; [apply occupant_toggled|done]|].
      split; [apply occupant_toggled|]. by split.
    + rewrite on_toggleReady_refused in Hin by done. by apply elem_of_nil in Hin.
  - destruct (notOwnerIn SSummary sid (lookupKey roomId (rooms s))) eqn:Hg.
    + rewrite on_readyForNextGame_refused in Hin by done.
      by apply elem_of_nil in Hin.
    + rewrite on_readyForNextGame_accepted in Hin |- * by done.
      assert (consistent (set_readyForNextGame <[sid := true]> s)) as Hc'
        by (by eapply consistent_frame).
      rewrite exec_checkAllPlayersReadyForNextGame in Hin |- *.
      destruct (nextRoundGuard _); cbn [fst snd] in *;
        [|by apply elem_of_nil in Hin].
      apply elem_of_cons in Hin as [[=]|Hin].
      assert (forall k, occupant
                (rearmed (set_readyForNextGame <[sid := true]> s)) k
                = occupant s k) as Hocc.
      { intros k'. rewrite occupant_rearmed by done. by apply occupant_frame. }
      exists (rearmed (set_readyForNextGame <[sid := true]> s)).
      split; [by apply consistent_rearmed|].
      split; [by eapply oneSeatEach_occupants|]. by split.
Qed.

(** X12.  A [gameStart] is private and complete.  Whatever event
    triggers it, the server sends it to one socket only, the occupant of
    the seat it names, which is still connected and whose seat is in
    status [playing] after the step.  It carries the list of the occupants
    of all occupied seats (between 2 and 4 sockets, none twice), the 13
    cards of the recipient, which are the slice of the shuffled deck at
    the recipient's position in that list, and the 4 community cards that
    follow the last hand. *)
Theorem gameStart_reaches_only_its_player (env : Env) (s : State)
    (sid : string) (ev : Event) (t : Target) (cs : option (list Card))
    (cc : list Card) (ps : list string) (k : string) :
  reachable s ->
  (forall i, rand env i <= i) ->
  Emit t (gameStart cs cc ps k) ∈ (step env sid ev s).2 ->
  exists p i,
    t = ToSocket p /\ connected env p = true /\
    occupant s k = Some p /\ occupant (step env sid ev s).1 k = Some p /\
    seatIn SPlaying (step env sid ev s).1 k /\
    (forall q, q ∈ ps <-> exists k', occupant s k' = Some q) /\
    NoDup ps /\ 2 <= length ps <= 4 /\ ps !! i = Some p /\
    cs = Some (slice (i * 13) ((i + 1) * 13)
                 (shuffleDeck (rand env) createDeck)) /\
    cc = slice (length ps * 13) (length ps * 13 + 4)
           (shuffleDeck (rand env) createDeck) /\
    (forall hand, cs = Some hand -> length hand = 13) /\ length cc = 4.
Proof.
  intros Hr Hrand Hin. pose proof (reachable_consistent s Hr) as Hc.
  pose proof (reachable_oneSeatEach s Hr) as Hone.
  destruct (step_gameStart_source env sid ev s t cs cc ps k Hc Hone Hin)
    as (m & Hcm & Honem & Hocc & Hstate & Hem).
  assert (startCondition m) as Hstart.
  { destruct (decide (startCondition m)) as [|Hn]; [done|].
    rewrite checkAndStartGame_silent in Hem by done.
    by apply elem_of_nil in Hem. }
  destruct (checkAndStartGame_gameStart env m t cs cc ps k Hcm Honem Hrand Hem)
    as (p & i & -> & Hp & Hconn & Hps & Hnd & Hlen & Hi & Hcs & Hcc & Hl & Hlc).
  exists p, i. split; [done|]. split; [done|].
  split; [by rewrite <- Hocc|]. split.
  { rewrite Hstate, occupant_checkAndStartGame by done. done. }
  split.
  { rewrite Hstate. unfold seatIn. rewrite seat_checkAndStartGame by done.
    rewrite decide_True by done. unfold occupant in Hp.
    destruct (seat m k) as [r|]; [|done]. simpl in *.
    exists (startRoom r). rewrite decide_True by congruence. done. }
  split.
  { intros q. rewrite Hps, elem_of_occupants by done.
    split; intros [k' Hk']; exists k'; by rewrite ?Hocc in *. }
  done.
Qed.

Lemma gameStart_reaches_only_its_player_witness :
  reachable lobby /\
  (forall i, rand demoEnv i <= i) /\
  exists p i,
    ToSocket "bob" = ToSocket p /\ connected demoEnv p = true /\
    occupant lobby "room-2" = Some p /\
    ["alice"; "bob"] !! i = Some p.
Proof.
  assert (forall i, rand demoEnv i <= i) as Hrand by (intros; simpl; lia).
  assert (Emit (ToSocket "bob")
            (gameStart
               (players (dealCards (rand demoEnv) ["alice"; "bob"]) !! "bob")
               (communityCards (dealCards (rand demoEnv) ["alice"; "bob"]))
               ["alice"; "bob"] "room-2")
          ∈ (step demoEnv "alice" (ToggleReady "room-1") lobby).2) as Hin.
  { vm_compute. apply elem_of_cons. right. apply elem_of_cons. right.
    apply elem_of_cons. by left. }
  destruct (gameStart_reaches_only_its_player demoEnv lobby "alice"
              (ToggleReady "room-1") _ _ _ _ _ reachable_lobby Hrand Hin)
    as (p & i & Ht & Hconn & Hocc & _ & _ & _ & _ & _ & Hi & _).
  split; [apply reachable_lobby|]. split; [exact Hrand|].
  exists p, i. by repeat split.
Defined.

(** ** Joining a seat *)

Lemma on_joinRoom_accepted sid roomId s :
  joinRefused (lookupKey roomId (rooms s)) = false ->
  (exec (on_joinRoom sid roomId) s).2 =
    [Emit ToAll (roomsUpdate (rooms (exec (on_joinRoom sid roomId) s).1));
     Emit ToAll (pointsUpdate (playerPoints s));
     Emit (ToSocket sid) (joinedRoom roomId)].
Proof.
  intros Hg. rewrite on_joinRoom_state by done.
  unfold on_joinRoom. rewrite exec_bind_get, Hg.
  rewrite exec_bind.
  rewrite (exec_forEach_guard (fun e => player e.2 = Some sid)).
  rewrite (exec_forEach_updateKey fst). cbn [fst snd app].
  by rewrite exec_bind_modify, exec_bind_get, !exec_bind_emit, exec_emit.
Qed.

Lemma seatAvailable_joinRefused s roomId :
  seatAvailable s roomId <-> joinRefused (lookupKey roomId (rooms s)) = false.
Proof.
  unfold joinRefused, seatAvailable, seat.
  destruct (lookupKey roomId (rooms s)) as [r|].
  - rewrite orb_false_iff, !bool_decide_eq_false. split.
    + intros (r0 & [= <-] & Hs & Hp). split; [done|]. intros H. by apply H.
    + intros [H1 H2]. exists r. split; [done|]. split; [done|].
      destruct (player r); [by destruct H2|done].
  - split; [by intros (r & ? & _)|done].
Qed.

(** X13.  In a reachable state [joinRoom] is accepted exactly when the
    seat exists and its status is [empty].  The caller then holds this
    seat, waiting and not ready; the seat it held before, if any, is reset
    to empty; every other seat, the stored hands (also the caller's own),
    the ready-for-next flags, the balances and the log are untouched; no
    game is started.  The server broadcasts the new rooms and the
    balances and sends [joinedRoom] to the caller alone. *)
Theorem joinRoom_accepted (env : Env) (s : State) (sid roomId : string) :
  reachable s ->
  let r := step env sid (JoinRoom roomId) s in
  (seatAvailable s roomId <-> seatIn SEmpty s roomId) /\
  (seatIn SEmpty s roomId ->
     seat r.1 roomId = Some (mkGameRoom (Some sid) false 1 SWaiting) /\
     (forall k, k <> roomId -> occupant s k = Some sid ->
        seat r.1 k = Some (mkGameRoom None false 1 SEmpty)) /\
     (forall k, k <> roomId -> occupant s k <> Some sid ->
        seat r.1 k = seat s k) /\
     playedCards r.1 = playedCards s /\
     readyForNextGame r.1 = readyForNextGame s /\
     playerPoints r.1 = playerPoints s /\
     transactions r.1 = transactions s /\
     r.2 = [Emit ToAll (roomsUpdate (rooms r.1));
            Emit ToAll (pointsUpdate (playerPoints s));
            Emit (ToSocket sid) (joinedRoom roomId)]).
Proof.
  intros Hr r. pose proof (reachable_consistent s Hr) as Hc.
  pose proof (reachable_seatsWellFormed s Hr) as Hw.
  assert (seatAvailable s roomId <-> seatIn SEmpty s roomId) as Hiff.
  { split.
    - intros (r0 & Hr0 & _ & Hp). exists r0. split; [done|].
      by apply (Hw roomId r0 Hr0).
    - intros (r0 & Hr0 & Hs). exists r0. split; [done|].
      split; [congruence|]. by apply (Hw roomId r0 Hr0). }
  split; [exact Hiff|]. intros Hav%Hiff.
  pose proof Hav as Hg%seatAvailable_joinRefused.
  destruct Hav as (r0 & Hr0 & _ & _).
  pose proof (seat_on_joinRoom sid roomId s) as Hseat.
  unfold r, step, handle. split; [|split; [|split]].
  - rewrite Hseat, decide_True, Hr0 by done. simpl. unfold enterRoom.
    by rewrite (proj1 (Hw roomId r0 Hr0)).
  - intros k Hk Ho. rewrite Hseat, decide_False, decide_True by done.
    unfold occupant in Ho. destruct (seat s k) as [rk|] eqn:Hrk; [|done].
    simpl. unfold vacateRoom. by rewrite (proj1 (Hw k rk Hrk)).
  - intros k Hk Ho. by rewrite Hseat, !decide_False by done.
  - rewrite on_joinRoom_accepted by done.
    by rewrite on_joinRoom_state by done.
Qed.

Lemma joinRoom_accepted_witness :
  reachable lobby /\
  seatIn SEmpty lobby "room-3" /\
  seat (step demoEnv "bob" (JoinRoom "room-3") lobby).1 "room-3"
    = Some (mkGameRoom (Some "bob") false 1 SWaiting) /\
  seat (step demoEnv "bob" (JoinRoom "room-3") lobby).1 "room-2"
    = Some (mkGameRoom None false 1 SEmpty).
Proof.
  assert (seatIn SEmpty lobby "room-3") as Hs
    by (apply seatIn_status; by vm_compute).
  pose proof (joinRoom_accepted demoEnv lobby "bob" "room-3" reachable_lobby)
    as H.
  cbn zeta in H. destruct H as (_ & H).
  destruct (H Hs) as (Hnew & Hold & _).
  split; [apply reachable_lobby|]. split; [exact Hs|]. split; [exact Hnew|].
  apply (Hold "room-2"); by vm_compute.
Defined.

(** ** Toggling the ready flag *)

Lemma readyRooms_nonempty s k r :
  seat s k = Some r -> status r = SReady -> 1 <= length (readyRooms s).
Proof.
  intros Hr Hs. apply lookupKey_Some_elem in Hr.
  assert ((k, r) ∈ readyRooms s) as Hin
    by (apply list_elem_of_filter; by split).
  destruct (readyRooms s); [by apply elem_of_nil in Hin|simpl; lia].
Qed.

(** X14.  One ready player is enough.  When the occupant of a seat that
    is not flagged ready (waiting, playing or in summary) sends
    [toggleReady] while at least 2 seats are occupied, a game starts in the
    same step, whether or not the other players are ready and even in the
    middle of a round: every occupied seat ends in status [playing] and
    not ready, every stored hand is dropped, the balances, the log and the
    ready-for-next flags are kept.  The server broadcasts the rooms with
    the caller's seat ready, sends a [gameStart] to each connected
    occupant, then broadcasts the rooms again, and the balances. *)
Theorem toggleReady_starts_game (env : Env) (s : State) (sid roomId : string)
    (r0 : GameRoom) :
  reachable s ->
  seat s roomId = Some r0 -> player r0 = Some sid -> isReady r0 = false ->
  2 <= length (roomsWithPlayers s) ->
  let t := set_rooms (updateKey roomId toggleRoom) s in
  let ps := omap (fun e => player e.2) (roomsWithPlayers t) in
  let res := step env sid (ToggleReady roomId) s in
  (forall k r, seat s k = Some r -> player r <> None ->
     seat res.1 k = Some (mkGameRoom (player r) false 1 SPlaying)) /\
  (forall k r, seat s k = Some r -> player r = None -> seat res.1 k = Some r) /\
  playedCards res.1 = [] /\
  readyForNextGame res.1 = readyForNextGame s /\
  playerPoints res.1 = playerPoints s /\
  transactions res.1 = transactions s /\
  seat t roomId = Some (mkGameRoom (Some sid) true 1 SReady) /\
  res.2 =
    Emit ToAll (roomsUpdate (rooms t))
      :: (roomsWithPlayers t ≫= startEmission env ps (dealCards (rand env) ps))
      ++ [Emit ToAll (roomsUpdate (rooms res.1));
          Emit ToAll (pointsUpdate (playerPoints s))].
Proof.
  intros Hr Hr0 Hp Hready Htwo t ps res.
  pose proof (reachable_consistent s Hr) as Hc.
  pose proof (reachable_seatsWellFormed s Hr) as Hw.
  assert (ownsSeat s sid roomId) as Hown by (by exists r0).
  assert (consistent t) as Hct by (by eapply consistent_toggled).
  assert (seat t roomId = Some (mkGameRoom (Some sid) true 1 SReady)) as Ht.
  { unfold t. rewrite seat_set_rooms_updateKey, decide_True, Hr0 by done.
    simpl. unfold toggleRoom. rewrite Hready, Hp. simpl.
    by rewrite (proj1 (Hw roomId r0 Hr0)). }
  assert (startCondition t) as Hstart.
  { split; [by eapply readyRooms_nonempty|].
    unfold t. by rewrite roomsWithPlayers_toggled. }
  assert (res = ((exec (checkAndStartGame env) t).1,
                 Emit ToAll (roomsUpdate (rooms t))
                   :: (exec (checkAndStartGame env) t).2)) as Hres.
  { unfold res, step, handle. by rewrite on_toggleReady_accepted. }
  assert (forall k r, seat s k = Some r ->
            seat res.1 k =
              Some (if decide (player r <> None)
                    then mkGameRoom (player r) false (capacity r) SPlaying
                    else r)) as Hseat.
  { intros k r Hk. rewrite Hres. cbn [fst].
    rewrite seat_checkAndStartGame, decide_True by done.
    unfold t. rewrite seat_set_rooms_updateKey, Hk.
    case_decide as Hkr; simpl; [|done].
    subst k. assert (r = r0) as -> by congruence.
    by rewrite !decide_True by (simpl; congruence). }
  destruct (checkAndStartGame_ledger env t Hct) as [Hpts Htxs].
  split; [|split; [|split; [|split; [|split; [|split; [|split]]]]]].
  - intros k r Hk Hpl. rewrite (Hseat k r Hk), decide_True by done.
    by rewrite (proj1 (Hw k r Hk)).
  - intros k r Hk Hpl. rewrite (Hseat k r Hk), decide_False; [done|].
    by intros H.
  - rewrite Hres. cbn [fst]. rewrite checkAndStartGame_playedCards.
    by rewrite decide_True.
  - rewrite Hres. cbn [fst]. rewrite exec_checkAndStartGame.
    rewrite decide_True by done. cbn [fst].
    by rewrite (proj1 (proj2 (startPlayers_frame _ _ _ _ _))).
  - rewrite Hres. cbn [fst]. by rewrite Hpts.
  - rewrite Hres. cbn [fst]. by rewrite Htxs.
  - exact Ht.
  - rewrite Hres. cbn [fst snd]. rewrite checkAndStartGame_emissions.
    rewrite decide_True by done. cbn zeta. by rewrite Hpts.
Qed.

Lemma toggleReady_starts_game_witness :
  reachable playingRound /\
  seat playingRound "room-2" = Some (mkGameRoom (Some "bob") false 1 SPlaying) /\
  2 <= length (roomsWithPlayers playingRound) /\
  playedCards
    (step demoEnv "bob" (ToggleReady "room-2")
       (step demoEnv "alice" (ConfirmCards "room-1" fullHand None)
             playingRound).1).1 = [] /\
  seat (step demoEnv "bob" (ToggleReady "room-2") playingRound).1 "room-1"
    = Some (mkGameRoom (Some "alice") false 1 SPlaying).
Proof.
  assert (seat playingRound "room-2"
          = Some (mkGameRoom (Some "bob") false 1 SPlaying)) as H1
    by (by vm_compute).
  assert (2 <= length (roomsWithPlayers playingRound)) as H2
    by (vm_compute; lia).
  assert (reachable aliceConfirmed) as Hr.
  { apply reachable_run; [apply reachable_playingRound|]. by repeat constructor. }
  assert (seat aliceConfirmed "room-2"
          = Some (mkGameRoom (Some "bob") false 1 SPlaying)) as H3
    by (by vm_compute).
  assert (2 <= length (roomsWithPlayers aliceConfirmed)) as H4
    by (vm_compute; lia).
  pose proof (toggleReady_starts_game demoEnv playingRound "bob" "room-2" _
                reachable_playingRound H1 eq_refl eq_refl H2) as Ha.
  pose proof (toggleReady_starts_game demoEnv aliceConfirmed "bob" "room-2" _
                Hr H3 eq_refl eq_refl H4) as Hb.
  cbn zeta in Ha, Hb.
  destruct Ha as (Hocc & _). destruct Hb as (_ & _ & Hplayed & _).
  split; [apply reachable_playingRound|]. split; [exact H1|].
  split; [exact H2|]. split; [exact Hplayed|].
  apply (Hocc "room-1" (mkGameRoom (Some "alice") false 1 SPlaying));
    by vm_compute.
Defined.

Section UpdateTwice.
Context {V : Type}.

Lemma updateKey_updateKey k (f g : V -> V) (o : list (string * V)) :
  updateKey k f (updateKey k g o) = updateKey k (fun v => f (g v)) o.
Proof.
  induction o as [|[k' v] o IH]; [done|]. simpl.
  destruct (decide (k' = k)) as [->|Hne]; simpl.
  - by rewrite decide_True.
  - rewrite decide_False by done. by rewrite IH.
Qed.

Lemma updateKey_fixed k (f : V -> V) (o : list (string * V)) v :
  lookupKey k o = Some v -> f v = v -> updateKey k f o = o.
Proof.
  intros Hk Hf. induction o as [|[k' v'] o IH]; [done|]. simpl in *.
  destruct (decide (k' = k)) as [->|Hne].
  - injection Hk as ->. by rewrite Hf.
  - by rewrite IH.
Qed.
End UpdateTwice.

(** X15.  With fewer than 2 occupied seats [toggleReady] never starts a
    game: it flips the ready flag of the caller's seat between [waiting]
    and [ready] and broadcasts the rooms, nothing else.  Sent twice from a
    seat that is waiting or ready, it leaves the registries exactly as
    they were. *)
Theorem toggleReady_alone_round_trip (env1 env2 : Env) (s : State)
    (sid roomId : string) (r0 : GameRoom) :
  reachable s ->
  seat s roomId = Some r0 -> player r0 = Some sid ->
  status r0 = SWaiting \/ status r0 = SReady ->
  length (roomsWithPlayers s) < 2 ->
  let t := set_rooms (updateKey roomId toggleRoom) s in
  step env1 sid (ToggleReady roomId) s = (t, [Emit ToAll (roomsUpdate (rooms t))]) /\
  seat t roomId =
    Some (mkGameRoom (Some sid) (negb (isReady r0)) 1
            (if isReady r0 then SWaiting else SReady)) /\
  step env2 sid (ToggleReady roomId) t = (s, [Emit ToAll (roomsUpdate (rooms s))]).
Proof.
  intros Hr Hr0 Hp Hst Hlt t.
  pose proof (reachable_seatsWellFormed s Hr roomId r0 Hr0)
    as (Hcap & Hready & _).
  assert (ownsSeat s sid roomId) as Hown by (by exists r0).
  assert (seat t roomId = Some (toggleRoom r0)) as Ht.
  { unfold t. by rewrite seat_set_rooms_updateKey, decide_True, Hr0. }
  assert (toggleRoom (toggleRoom r0) = r0) as Hback.
  { unfold toggleRoom. destruct r0 as [p b c st]. simpl in *.
    rewrite negb_involutive. f_equal.
    destruct b; simpl; destruct Hst as [-> | ->]; try done.
    - by destruct Hready as [-> _].
    - destruct Hready as [_ Hready]. by specialize (Hready eq_refl). }
  assert (set_rooms (updateKey roomId toggleRoom) t = s) as Hs.
  { unfold t, set_rooms. destruct s as [rs pc fl pts txs]. simpl in *. f_equal.
    rewrite updateKey_updateKey. by eapply updateKey_fixed. }
  split; [|split].
  - unfold step, handle. rewrite on_toggleReady_accepted by done. cbn zeta.
    fold t. rewrite checkAndStartGame_idle; [done|].
    intros [_ Htwo]. unfold t in Htwo.
    rewrite roomsWithPlayers_toggled in Htwo. lia.
  - rewrite Ht. unfold toggleRoom. rewrite Hp, Hcap. by destruct (isReady r0).
  - unfold step, handle. rewrite on_toggleReady_accepted by (by exists (toggleRoom r0)).
    cbn zeta. rewrite Hs. rewrite checkAndStartGame_idle; [done|].
    intros [_ Htwo]. lia.
Qed.

Lemma toggleReady_alone_round_trip_witness :
  reachable loneReady /\
  length (roomsWithPlayers loneReady) < 2 /\
  step demoEnv "alice" (ToggleReady "room-1")
    (set_rooms (updateKey "room-1" toggleRoom) loneReady)
  = (loneReady, [Emit ToAll (roomsUpdate (rooms loneReady))]).
Proof.
  assert (length (roomsWithPlayers loneReady) < 2) as H1 by (vm_compute; lia).
  assert (seat loneReady "room-1"
          = Some (mkGameRoom (Some "alice") true 1 SReady)) as H2
    by (by vm_compute).
  pose proof (toggleReady_alone_round_trip demoEnv demoEnv loneReady "alice"
                "room-1" _ reachable_loneReady H2 eq_refl
                (or_intror eq_refl) H1) as H.
  cbn zeta in H. destruct H as (_ & _ & Hback).
  split; [apply reachable_loneReady|]. split; [exact H1|exact Hback].
Defined.

(** ** Confirming a hand *)

Lemma elem_of_occupiedIn_seat st s k p :
  consistent s ->
  (k, p) ∈ occupiedIn st s <-> seatIn st s k /\ occupant s k = Some p.
Proof.
  intros Hc. rewrite elem_of_occupiedIn. unfold seatIn, occupant. split.
  - intros (r & Hin & Hs & Hp). apply (consistent_entry s k r Hc) in Hin.
    rewrite Hin. split; [by exists r|done].
  - intros [(r & Hr & Hs) Hp]. rewrite Hr in Hp. exists r.
    split; [by apply lookupKey_Some_elem|done].
Qed.

(** The Summarize condition, as it stands when a hand has just been
    stored for [sid]. *)
Lemma summarizeGuard_confirm s sid h :
  consistent s -> handsValid s -> confirmed h = true ->
  summarizeGuard (set_playedCards (setKey sid h) s) = true <->
  (forall k p, seatIn SPlaying s k -> occupant s k = Some p -> p <> sid ->
     is_Some (lookupKey p (playedCards s))) /\
  2 <= length (filter (fun e => status e.2 = SPlaying) (rooms s)).
Proof.
  intros Hc [_ Hvalid] Hh.
  assert (consistent (set_playedCards (setKey sid h) s)) as Hcm
    by (by eapply consistent_frame).
  rewrite summarizeCondition_guard. unfold summarizeCondition.
  rewrite (occupiedIn_length SPlaying _ Hcm) by done.
  cbn [rooms set_playedCards].
  assert (forall p, isConfirmed (set_playedCards (setKey sid h) s) p = true <->
            p = sid \/ is_Some (lookupKey p (playedCards s))) as Hconf.
  { intros p. unfold isConfirmed. cbn [playedCards set_playedCards].
    rewrite lookupKey_setKey. case_decide as Hp.
    - split; [by left|done].
    - destruct (lookupKey p (playedCards s)) as [h'|] eqn:Hh'.
      + apply lookupKey_Some_elem in Hh'.
        eapply Forall_forall in Hvalid; [|exact Hh'].
        destruct Hvalid as (_ & Hconfirmed & _). simpl in Hconfirmed.
        rewrite Hconfirmed. split; [by right|done].
      + split; [done|]. by intros [?|[? [=]]]. }
  split; intros [Hall Hlen]; (split; [|done]).
  - intros k p Hs Ho Hne.
    destruct (proj1 (Hconf p)) as [?|?]; [|done..].
    apply (Hall (k, p)). apply (elem_of_occupiedIn_seat SPlaying _ k p Hcm).
    by split.
  - intros [k p] [Hs Ho]%(elem_of_occupiedIn_seat SPlaying _ k p Hcm).
    apply Hconf. destruct (decide (p = sid)) as [|Hne]; [by left|right].
    by apply (Hall k p).
Qed.

(** X16.  The confirmation that completes a round.  When the occupant of
    a playing seat confirms, the round is summarized in the same step
    exactly when every other playing seat already has a stored hand and at
    least 2 seats are playing.  Then every playing seat moves to status
    [summary], the ready-for-next flag of each of their occupants is reset
    to false, the stored hands are kept, and the server broadcasts one
    [cardsSummary] with every stored hand, the caller's included, followed
    by the rooms.  Otherwise the hand is stored and nothing is sent. *)
Theorem confirmCards_completes_round (env : Env) (s : State)
    (sid roomId : string) (cs : Positions) (cc : option Card) :
  reachable s ->
  ownsSeat s sid roomId -> seatIn SPlaying s roomId ->
  let h := mkPlayedCard sid roomId cs cc true in
  let m := set_playedCards (setKey sid h) s in
  let res := step env sid (ConfirmCards roomId cs cc) s in
  let complete :=
    (forall k p, seatIn SPlaying s k -> occupant s k = Some p -> p <> sid ->
       is_Some (lookupKey p (playedCards s))) /\
    2 <= length (filter (fun e => status e.2 = SPlaying) (rooms s)) in
  (complete ->
     (forall k r, seat s k = Some r -> status r = SPlaying ->
        seat res.1 k = Some (mkGameRoom (player r) false 1 SSummary)) /\
     (forall k r, seat s k = Some r -> status r <> SPlaying ->
        seat res.1 k = Some r) /\
     playedCards res.1 = playedCards m /\
     (forall k p, seatIn SPlaying s k -> occupant s k = Some p ->
        readyForNextGame res.1 !! p = Some false) /\
     playerPoints res.1 = playerPoints s /\
     transactions res.1 = transactions s /\
     res.2 = [Emit ToAll (cardsSummary (summaryOf <$> (playedCards m).*2));
              Emit ToAll (roomsUpdate (rooms res.1))]) /\
  (~ complete -> res = (m, [])).
Proof.
  intros Hr Hown Hplaying h m res complete.
  pose proof (reachable_consistent s Hr) as Hc.
  pose proof (reachable_seatsWellFormed s Hr) as Hw.
  pose proof (reachable_handsValid s Hr) as Hv.
  assert (consistent m) as Hcm by (by eapply consistent_frame).
  assert (res = exec checkAllPlayersConfirmed m) as Hres.
  { unfold res, step, handle. rewrite on_confirmCards_accepted; [done|].
    apply notOwnerIn_false. destruct Hown as (r & Hr0 & Hp).
    destruct Hplaying as (r' & Hr' & Hs). exists r.
    split; [done|]. split; [done|]. congruence. }
  pose proof (summarizeGuard_confirm s sid h Hc Hv eq_refl) as Hguard.
  fold m in Hguard. fold complete in Hguard.
  split.
  - intros Hcomplete. apply Hguard in Hcomplete.
    assert (forall k r, seat s k = Some r ->
              seat res.1 k =
                Some (if decide (status r = SPlaying) then summarizeRoom r
                      else r)) as Hseat.
    { intros k r Hk. rewrite Hres, seat_checkAllPlayersConfirmed by done.
      rewrite Hcomplete. unfold seat in *. cbn [rooms m set_playedCards].
      by rewrite Hk. }
    rewrite Hres, exec_checkAllPlayersConfirmed, Hcomplete in *.
    cbn [fst snd] in *.
    split; [|split; [|split; [|split; [|split; [|split]]]]]; try done.
    + intros k r Hk Hs. rewrite (Hseat k r Hk), decide_True by done.
      unfold summarizeRoom. destruct (Hw k r Hk) as (-> & Hready & _).
      f_equal. f_equal. destruct (isReady r); [|done].
      destruct Hready as [Hready _]. specialize (Hready eq_refl). congruence.
    + intros k r Hk Hs. by rewrite (Hseat k r Hk), decide_False.
    + intros k p Hs Ho. cbn [readyForNextGame set_readyForNextGame set_rooms].
      rewrite lookup_foldl_insert, decide_True; [done|].
      apply list_elem_of_fmap. exists (k, p). split; [done|].
      apply (elem_of_occupiedIn_seat SPlaying m k p Hcm). by split.
  - intros Hn. rewrite Hres, exec_checkAllPlayersConfirmed.
    destruct (summarizeGuard m); [|done]. destruct Hn. by apply Hguard.
Qed.

Lemma confirmCards_completes_round_witness :
  reachable aliceConfirmed /\
  ownsSeat aliceConfirmed "bob" "room-2" /\
  seatIn SPlaying aliceConfirmed "room-2" /\
  seat (step demoEnv "bob" (ConfirmCards "room-2" fullHand None)
             aliceConfirmed).1 "room-1"
    = Some (mkGameRoom (Some "alice") false 1 SSummary) /\
  step demoEnv "alice" (ConfirmCards "room-1" shortHand None) playingRound
    = (set_playedCards
         (setKey "alice" (mkPlayedCard "alice" "room-1" shortHand None true))
         playingRound, []).
Proof.
  assert (reachable aliceConfirmed) as Hr.
  { apply reachable_run; [apply reachable_playingRound|]. by repeat constructor. }
  assert (ownsSeat aliceConfirmed "bob" "room-2") as H1
    by (apply ownsSeat_occupant; by vm_compute).
  assert (seatIn SPlaying aliceConfirmed "room-2") as H2
    by (apply seatIn_status; by vm_compute).
  assert (ownsSeat playingRound "alice" "room-1") as H3
    by (apply ownsSeat_occupant; by vm_compute).
  assert (seatIn SPlaying playingRound "room-1") as H4
    by (apply seatIn_status; by vm_compute).
  pose proof (confirmCards_completes_round demoEnv aliceConfirmed "bob"
                "room-2" fullHand None Hr H1 H2) as Ha.
  pose proof (confirmCards_completes_round demoEnv playingRound "alice"
                "room-1" shortHand None reachable_playingRound H3 H4) as Hb.
  cbn zeta in Ha, Hb. destruct Ha as [Ha _]. destruct Hb as [_ Hb].
  split; [exact Hr|]. split; [exact H1|]. split; [exact H2|]. split.
  - assert ((forall k p, seatIn SPlaying aliceConfirmed k ->
               occupant aliceConfirmed k = Some p -> p <> "bob" ->
               is_Some (lookupKey p (playedCards aliceConfirmed))) /\
            2 <= length (filter (fun e => status e.2 = SPlaying)
                           (rooms aliceConfirmed))) as Hcomplete.
    { split; [|vm_compute; lia]. intros k p _ Hocc Hne.
      unfold occupant, seat in Hocc.
      change (rooms aliceConfirmed) with (rooms playingRound) in Hocc.
      rewrite rooms_playingRound in Hocc. simpl in Hocc.
      repeat case_decide; simpl in Hocc; try discriminate Hocc;
        injection Hocc as <-; first [done|eexists; by vm_compute]. }
    destruct (Ha Hcomplete) as (Hseat & _).
    apply (Hseat "room-1" (mkGameRoom (Some "alice") false 1 SPlaying));
      by vm_compute.
  - apply Hb. intros [Hall _].
    assert (is_Some (lookupKey "bob" (playedCards playingRound))) as [h Hh].
    { apply (Hall "room-2" "bob"); [apply seatIn_status| |]; by vm_compute. }
    vm_compute in Hh. discriminate Hh.
Defined.

(** ** Asking for the next game *)

Lemma checkAndStartGame_flags env s :
  readyForNextGame (exec (checkAndStartGame env) s).1 = readyForNextGame s.
Proof.
  rewrite exec_checkAndStartGame. case_decide; [|done]. cbn [fst].
  by rewrite (proj1 (proj2 (startPlayers_frame _ _ _ _ _))).
Qed.

Lemma length_filter_mono {A} (P Q : A -> Prop) `{!forall x, Decision (P x)}
    `{!forall x, Decision (Q x)} (l : list A) :
  (forall x, x ∈ l -> P x -> Q x) ->
  length (filter P l) <= length (filter Q l).
Proof.
  induction l as [|x l IH]; intros HPQ; [done|].
  assert (length (filter P l) <= length (filter Q l)) as Hle.
  { apply IH. intros y Hy. apply HPQ. by right. }
  rewrite !filter_cons. destruct (decide (P x)) as [HP|HP].
  - rewrite decide_True by (apply HPQ; [by left|done]). simpl. lia.
  - destruct (decide (Q x)); simpl; lia.
Qed.

Lemma startCondition_rearmed s :
  consistent s ->
  2 <= length (filter (fun e => status e.2 = SSummary) (rooms s)) ->
  startCondition (rearmed s).
Proof.
  intros Hc Htwo. split.
  - destruct (filter (fun e => status e.2 = SSummary) (rooms s))
      as [|[k r] l] eqn:Hf; [simpl in Htwo; lia|].
    assert ((k, r) ∈ filter (fun e => status e.2 = SSummary) (rooms s)) as Hin
      by (rewrite Hf; by left).
    apply list_elem_of_filter in Hin as [Hs Hin]. simpl in Hs.
    apply (consistent_entry s k r Hc) in Hin.
    apply (readyRooms_nonempty (rearmed s) k (rearmRoom r)); [|done].
    rewrite seat_rearmed, Hin by done. simpl. by rewrite decide_True.
  - rewrite roomsWithPlayers_rearmed. etrans; [exact Htwo|].
    apply length_filter_mono. intros [k r] Hin Hs. simpl in *.
    apply (consistent_entry s k r Hc) in Hin.
    destruct (consistent_seats s Hc k r Hin) as [Hiff _].
    intros Hp. apply Hiff in Hp. congruence.
Qed.

(** The Next-round condition, as it stands when the flag of [sid] has just
    been set. *)
Lemma nextRoundGuard_ready s sid roomId :
  consistent s -> ownsSeat s sid roomId -> seatIn SSummary s roomId ->
  nextRoundGuard (set_readyForNextGame <[sid := true]> s) = true <->
  (forall k p, seatIn SSummary s k -> occupant s k = Some p -> p <> sid ->
     readyForNextGame s !! p = Some true) /\
  2 <= length (filter (fun e => status e.2 = SSummary) (rooms s)).
Proof.
  intros Hc Hown Hsum.
  assert (consistent (set_readyForNextGame <[sid := true]> s)) as Hcm
    by (by eapply consistent_frame).
  rewrite nextRoundCondition_guard. unfold nextRoundCondition.
  rewrite (occupiedIn_length SSummary _ Hcm) by done.
  cbn [rooms set_readyForNextGame].
  assert (forall p,
            isReadyForNext (set_readyForNextGame <[sid := true]> s) p = true <->
            p = sid \/ readyForNextGame s !! p = Some true) as Hflag.
  { intros p. unfold isReadyForNext. cbn [readyForNextGame set_readyForNextGame].
    destruct (decide (p = sid)) as [->|Hne].
    - rewrite lookup_insert_eq. split; [by left|done].
    - rewrite lookup_insert_ne by done.
      destruct (readyForNextGame s !! p) as [[]|]; simpl;
        split; try done; try (by right); by intros [?|[=]]. }
  split.
  - intros [Hlen Hall]. split; [|done]. intros k p Hs Ho Hne.
    destruct (proj1 (Hflag p)) as [?|?]; [|done..].
    apply (Hall (k, p)).
    apply (elem_of_occupiedIn_seat SSummary _ k p Hcm). by split.
  - intros [Hall Hlen]. split; [done|].
    intros [k p] [Hs Ho]%(elem_of_occupiedIn_seat SSummary _ k p Hcm).
    apply Hflag. destruct (decide (p = sid)) as [|Hne]; [by left|right].
    by apply (Hall k p).
Qed.

(** X17.  The next game waits for everybody.  When the occupant of a seat
    in status [summary] sends [readyForNextGame], its flag is set; the next
    game starts in the same step exactly when the occupant of every other
    seat in status [summary] has its flag set already and at least 2 seats
    are in status [summary].  Until then nothing else changes and nothing is
    sent.  When it starts, every occupied seat (also one that joined during
    the summary) ends in status [playing], the stored hands are dropped,
    every flag is false, the balances and the log are kept, and the server
    broadcasts the re-armed rooms, sends each connected occupant its
    [gameStart], and broadcasts the rooms and the balances. *)
Theorem readyForNextGame_waits_for_all (env : Env) (s : State)
    (sid roomId : string) :
  reachable s ->
  ownsSeat s sid roomId -> seatIn SSummary s roomId ->
  let m := set_readyForNextGame <[sid := true]> s in
  let ps := omap (fun e => player e.2) (roomsWithPlayers (rearmed m)) in
  let res := step env sid (ReadyForNextGame roomId) s in
  let allReady :=
    (forall k p, seatIn SSummary s k -> occupant s k = Some p -> p <> sid ->
       readyForNextGame s !! p = Some true) /\
    2 <= length (filter (fun e => status e.2 = SSummary) (rooms s)) in
  (~ allReady -> res = (m, [])) /\
  (allReady ->
     (forall k r, seat s k = Some r -> player r <> None ->
        seat res.1 k = Some (mkGameRoom (player r) false 1 SPlaying)) /\
     (forall k r, seat s k = Some r -> player r = None ->
        seat res.1 k = Some r) /\
     playedCards res.1 = [] /\
     (forall p b, readyForNextGame res.1 !! p = Some b -> b = false) /\
     playerPoints res.1 = playerPoints s /\
     transactions res.1 = transactions s /\
     res.2 =
       Emit ToAll (roomsUpdate (rooms (rearmed m)))
         :: (roomsWithPlayers (rearmed m)
               ≫= startEmission env ps (dealCards (rand env) ps))
         ++ [Emit ToAll (roomsUpdate (rooms res.1));
             Emit ToAll (pointsUpdate (playerPoints s))]).
Proof.
  intros Hr Hown Hsum m ps res allReady.
  pose proof (reachable_consistent s Hr) as Hc.
  pose proof (reachable_seatsWellFormed s Hr) as Hw.
  assert (consistent m) as Hcm by (by eapply consistent_frame).
  assert (consistent (rearmed m)) as Hcr by (by apply consistent_rearmed).
  assert (res = exec (checkAllPlayersReadyForNextGame env) m) as Hres.
  { unfold res, step, handle. rewrite on_readyForNextGame_accepted; [done|].
    apply notOwnerIn_false. destruct Hown as (r & Hr0 & Hp).
    destruct Hsum as (r' & Hr' & Hs). exists r.
    split; [done|]. split; [done|]. congruence. }
  pose proof (nextRoundGuard_ready s sid roomId Hc Hown Hsum) as Hguard.
  fold m in Hguard. fold allReady in Hguard.
  rewrite exec_checkAllPlayersReadyForNextGame in Hres.
  split.
  { intros Hn. rewrite Hres. destruct (nextRoundGuard m); [|done].
    destruct Hn. by apply Hguard. }
  intros Hall. pose proof Hall as [_ Htwo]. apply Hguard in Hall.
  rewrite Hall in Hres.
  assert (startCondition (rearmed m)) as Hstart
    by (by apply startCondition_rearmed).
  assert (forall k r, seat s k = Some r ->
            seat res.1 k =
              Some (if decide (player r <> None)
                    then mkGameRoom (player r) false (capacity r) SPlaying
                    else r)) as Hseat.
  { intros k r Hk. rewrite Hres. cbn [fst].
    rewrite seat_checkAndStartGame, decide_True by done.
    rewrite seat_rearmed by done.
    change (seat m k) with (seat s k). rewrite Hk. simpl.
    destruct (decide (status r = SSummary)) as [Hs|Hs]; simpl; [|done].
    destruct (decide (player r <> None)) as [Hp|Hp]; [done|].
    destruct (consistent_seats s Hc k r Hk) as [Hiff _].
    destruct (player r); [by destruct Hp|].
    destruct Hiff as [Hiff _]. specialize (Hiff eq_refl). congruence. }
  destruct (checkAndStartGame_ledger env (rearmed m) Hcr) as [Hpts Htxs].
  split; [|split; [|split; [|split; [|split; [|split]]]]].
  - intros k r Hk Hpl. rewrite (Hseat k r Hk), decide_True by done.
    by rewrite (proj1 (Hw k r Hk)).
  - intros k r Hk Hpl. rewrite (Hseat k r Hk), decide_False; [done|].
    by intros H.
  - rewrite Hres. cbn [fst]. rewrite checkAndStartGame_playedCards.
    by rewrite decide_True.
  - intros p b. rewrite Hres. cbn [fst].
    rewrite checkAndStartGame_flags, rearmed_flags.
    destruct (readyForNextGame m !! p); simpl; congruence.
  - rewrite Hres. cbn [fst]. by rewrite Hpts.
  - rewrite Hres. cbn [fst]. by rewrite Htxs.
  - rewrite Hres. cbn [fst snd]. rewrite checkAndStartGame_emissions.
    rewrite decide_True by done. cbn zeta. by rewrite Hpts.
Qed.

Lemma readyForNextGame_waits_for_all_witness :
  reachable summaryRound /\
  ownsSeat summaryRound "alice" "room-1" /\
  seatIn SSummary summaryRound "room-1" /\
  step demoEnv "alice" (ReadyForNextGame "room-1") summaryRound
    = (set_readyForNextGame <["alice" := true]> summaryRound, []).
Proof.
  assert (ownsSeat summaryRound "alice" "room-1") as H1
    by (apply ownsSeat_occupant; by vm_compute).
  assert (seatIn SSummary summaryRound "room-1") as H2
    by (apply seatIn_status; by vm_compute).
  pose proof (readyForNextGame_waits_for_all demoEnv summaryRound "alice"
                "room-1" reachable_summaryRound H1 H2) as H.
  cbn zeta in H. destruct H as [Hwait _].
  split; [apply reachable_summaryRound|]. split; [exact H1|].
  split; [exact H2|]. apply Hwait. intros [Hall _].
  assert (readyForNextGame summaryRound !! "bob" = Some true) as Hbob.
  { apply (Hall "room-2" "bob"); [apply seatIn_status| |]; by vm_compute. }
  vm_compute in Hbob. discriminate Hbob.
Defined.

(** ** Disconnecting *)

(** The seats that the loops of [joinRoom] and [disconnect] find for a
    socket: none, or one. *)
Lemma seats_of_cases s p :
  consistent s -> oneSeatEach s ->
  (filter (fun e => player e.2 = Some p) (rooms s) = [] /\
   forall k, occupant s k <> Some p) \/
  (exists k r, filter (fun e => player e.2 = Some p) (rooms s) = [(k, r)] /\
               seat s k = Some r /\ player r = Some p).
Proof.
  intros Hc Hone.
  assert (forall k r, (k, r) ∈ filter (fun e => player e.2 = Some p) (rooms s)
            -> seat s k = Some r /\ player r = Some p) as Hocc.
  { intros k r [Hp Hin]%list_elem_of_filter.
    by apply (consistent_seat_entry s k r Hc) in Hin. }
  assert (NoDup (filter (fun e => player e.2 = Some p) (rooms s)).*1) as Hnd.
  { eapply sublist_NoDup; [apply (consistent_NoDup s Hc)|].
    apply fmap_sublist, sublist_filter. }
  destruct (filter (fun e => player e.2 = Some p) (rooms s))
    as [|[k1 r1] [|[k2 r2] l]] eqn:Hf.
  - left. split; [done|]. intros k Hk. unfold occupant in Hk.
    destruct (seat s k) as [r|] eqn:Hr; [|done]. simpl in Hk.
    assert ((k, r) ∈ filter (fun e => player e.2 = Some p) (rooms s)) as Hin.
    { apply list_elem_of_filter. split; [done|]. by apply consistent_seat_entry. }
    rewrite Hf in Hin. by apply elem_of_nil in Hin.
  - right. exists k1, r1. split; [done|]. apply Hocc. by left.
  - exfalso. destruct (Hocc k1 r1) as [H1 Hp1]; [by left|].
    destruct (Hocc k2 r2) as [H2 Hp2]; [right; by left|].
    assert (k1 = k2) as ->.
    { apply (Hone k1 k2 p); unfold occupant; by rewrite ?H1, ?H2. }
    simpl in Hnd. apply NoDup_cons in Hnd as [Hnin _]. apply Hnin. by left.
Qed.

Lemma on_disconnect_emissions sid s :
  (exec (on_disconnect sid) s).2 =
    (exec (forEach (filter (fun e => player e.2 = Some sid) (rooms s))
             (fun e => modify (set_rooms (updateKey e.1 vacateRoom)) ;;
                       s ← get; emit ToAll (roomsUpdate (rooms s))))
          (set_readyForNextGame (delete sid)
             (set_playedCards (deleteKey sid) s))).2.
Proof.
  unfold on_disconnect.
  rewrite exec_bind_modify, exec_bind_modify, exec_bind_get.
  by rewrite (exec_forEach_guard (fun e => player e.2 = Some sid)).
Qed.

(** X18.  A disconnection touches the seat of the socket only.  In a
    reachable state every seat held by another socket, or by nobody, is
    left exactly as it was, whatever its status: no round is started,
    summarized or abandoned for the players that remain.  If the socket
    held no seat, the rooms are unchanged and nothing is sent; if it held a
    seat, the seat is reset to empty and the rooms are broadcast exactly
    once. *)
Theorem disconnect_broadcasts_once (env : Env) (s : State) (sid : string) :
  reachable s ->
  let res := step env sid Disconnect s in
  (forall k, occupant s k <> Some sid -> seat res.1 k = seat s k) /\
  ((forall k, occupant s k <> Some sid) ->
     rooms res.1 = rooms s /\ res.2 = []) /\
  (forall k, occupant s k = Some sid ->
     seat res.1 k = Some (mkGameRoom None false 1 SEmpty) /\
     res.2 = [Emit ToAll (roomsUpdate (rooms res.1))]).
Proof.
  intros Hr res. pose proof (reachable_consistent s Hr) as Hc.
  pose proof (reachable_oneSeatEach s Hr) as Hone.
  pose proof (reachable_seatsWellFormed s Hr) as Hw.
  destruct (on_disconnect_state sid s) as (Hrooms & _). cbn zeta in Hrooms.
  pose proof (on_disconnect_emissions sid s) as Hout.
  unfold res, step, handle. split; [|split].
  - intros k Hk. by rewrite seat_on_disconnect, decide_False by done.
  - intros Hnone.
    destruct (seats_of_cases s sid Hc Hone) as [[Hf _]|(k & r & _ & Hk & Hp)].
    + rewrite Hrooms, Hout, Hf. done.
    + destruct (Hnone k). unfold occupant. by rewrite Hk.
  - intros k Hk. split.
    + rewrite seat_on_disconnect, decide_True by done.
      unfold occupant in Hk. destruct (seat s k) as [r|] eqn:Hs; [|done].
      simpl. unfold vacateRoom. by rewrite (proj1 (Hw k r Hs)).
    + destruct (seats_of_cases s sid Hc Hone)
        as [[_ Hnone]|(k' & r & Hf & Hk' & Hp)]; [by destruct (Hnone k)|].
      rewrite Hrooms, Hout, Hf. rewrite exec_forEach_cons.
      rewrite exec_leaveRoom. by cbn.
Qed.

Lemma disconnect_broadcasts_once_witness :
  reachable playingRound /\
  seat (step demoEnv "bob" Disconnect playingRound).1 "room-1"
    = seat playingRound "room-1" /\
  (step demoEnv "bob" Disconnect playingRound).2
    = [Emit ToAll
         (roomsUpdate (rooms (step demoEnv "bob" Disconnect playingRound).1))].
Proof.
  pose proof (disconnect_broadcasts_once demoEnv playingRound "bob"
                reachable_playingRound) as H.
  cbn zeta in H. destruct H as (Hother & _ & Hown).
  split; [apply reachable_playingRound|]. split.
  - apply Hother. by vm_compute.
  - apply (Hown "room-2"). by vm_compute.
Defined.

(** ** Who receives what *)

Lemma checkAndStartGame_targets env s :
  Forall (fun e =>
            match message e with
            | gameStart _ _ _ _ => exists p, target e = ToSocket p
            | roomsUpdate _ | pointsUpdate _ => target e = ToAll
            | _ => False
            end) (exec (checkAndStartGame env) s).2.
Proof.
  rewrite checkAndStartGame_emissions. case_decide; [|constructor]. cbn zeta.
  apply Forall_app. split; [|by repeat constructor].
  apply Forall_forall. intros e ([k r] & He & _)%list_elem_of_bind.
  unfold startEmission in He. simpl in He.
  destruct (player r) as [p|]; [|by apply elem_of_nil in He].
  destruct (connected env p); [|by apply elem_of_nil in He].
  apply elem_of_cons in He as [->|He]; [|by apply elem_of_nil in He].
  simpl. by exists p.
Qed.

Lemma checkAndStartGame_addressed env sid ev s :
  (forall k, k ∈ [KRoomsUpdate; KGameStart; KPointsUpdate] -> k ∈ outboundOf ev) ->
  ev <> Connection ->
  Forall (addressed sid ev) (exec (checkAndStartGame env) s).2.
Proof.
  intros Hkinds Hev.
  eapply Forall_impl; [apply checkAndStartGame_targets|].
  intros [t m] Ht. unfold addressed. simpl in *.
  destruct m; try done;
    (split;
     [apply Hkinds; rewrite !elem_of_cons; auto|]);
    try done; destruct ev; try done; by destruct Hev.
Qed.

(** X19.  Every event the server emits while it handles an inbound event
    is one that this inbound event can cause, and is addressed by a fixed
    rule: [error] and [joinedRoom] go to the caller alone, a [gameStart] to
    one socket alone, [cardsSummary] to everybody, and the registries
    ([roomsUpdate], [pointsUpdate], [transactionsUpdate]) to everybody,
    except on connection, where they go to the new socket alone. *)
Theorem every_emission_addressed (env : Env) (s : State) (sid : string)
    (ev : Event) :
  Forall (addressed sid ev) (step env sid ev s).2.
Proof.
  unfold step. destruct ev as [|roomId|roomId|roomId cs cc|roomId|f t n|];
    cbn [handle].
  - unfold on_connection.
    rewrite exec_bind_get, !exec_bind_emit, exec_emit. cbn [snd].
    repeat constructor; simpl; set_solver.
  - destruct (joinRefused (lookupKey roomId (rooms s))) eqn:Hg.
    + rewrite on_joinRoom_refused by done.
      repeat constructor; simpl; set_solver.
    + rewrite on_joinRoom_accepted by done.
      repeat constructor; simpl; set_solver.
  - unfold on_toggleReady. rewrite exec_bind_get.
    destruct (lookupKey roomId (rooms s)); [|constructor].
    destruct (decide _); [constructor|].
    rewrite exec_bind_modify, exec_bind_get, exec_bind_emit. cbn [snd].
    constructor; [split; simpl; [set_solver|done]|].
    by apply checkAndStartGame_addressed.
  - unfold on_confirmCards. rewrite exec_bind_get.
    destruct (notOwnerIn _ _ _); [constructor|].
    rewrite exec_bind_modify, exec_checkAllPlayersConfirmed.
    destruct (summarizeGuard _); [|constructor]. cbn [snd].
    repeat constructor; simpl; set_solver.
  - unfold on_readyForNextGame. rewrite exec_bind_get.
    destruct (notOwnerIn _ _ _); [constructor|].
    rewrite exec_bind_modify, exec_checkAllPlayersReadyForNextGame.
    destruct (nextRoundGuard _); [|constructor]. cbn [snd].
    constructor; [split; simpl; [set_solver|done]|].
    by apply checkAndStartGame_addressed.
  - unfold on_transferPoints.
    destruct (Number.le n Number.zero); [repeat constructor; simpl; set_solver|].
    rewrite exec_bind_get.
    destruct (_ || _); [repeat constructor; simpl; set_solver|].
    destruct (_ || _); [repeat constructor; simpl; set_solver|].
    destruct (decide _); [repeat constructor; simpl; set_solver|].
    rewrite exec_bind, exec_ensurePlayerPoints. cbn [fst snd app].
    rewrite exec_bind, exec_ensurePlayerPoints. cbn [fst snd app].
    rewrite !exec_bind_modify, exec_bind_get, exec_bind_emit, exec_emit.
    cbn [snd]. repeat constructor; simpl; set_solver.
  - rewrite on_disconnect_emissions.
    apply forEach_outputs. intros x s'. rewrite exec_leaveRoom. cbn [snd].
    repeat constructor; simpl; set_solver.
Qed.

(** ** The life of a seat *)

Lemma startCondition_occupied s :
  startCondition s -> 2 <= length (roomsWithPlayers s).
Proof. by intros [_ ?]. Qed.

Lemma seat_started env s m k r r' :
  consistent m ->
  (forall k, occupant m k = occupant s k) ->
  length (roomsWithPlayers m) = length (roomsWithPlayers s) ->
  seat m k = Some r ->
  seat (exec (checkAndStartGame env) m).1 k = Some r' ->
  r' = r \/
  (status r' = SPlaying /\ is_Some (occupant s k) /\
   2 <= length (roomsWithPlayers s) /\ startCondition m).
Proof.
  intros Hc Hocc Hlen Hr. rewrite seat_checkAndStartGame, Hr by done.
  case_decide as Hstart; [|intros [= <-]; by left]. simpl.
  case_decide as Hp; intros [= <-]; [right|by left].
  split; [done|]. split.
  - rewrite <- Hocc. unfold occupant. rewrite Hr. simpl.
    by destruct (player r).
  - split; [|done]. rewrite <- Hlen. by apply startCondition_occupied.
Qed.

(** X26.  The life of a seat.  In one step of a reachable state the
    status of a seat stays as it is or makes one of these moves: to [empty]
    when its occupant disconnects or joins another seat; from [empty] to
    [waiting] when a socket joins it; to [ready] when its occupant toggles
    a seat that is not ready while fewer than 2 seats are occupied; from
    [ready] to [waiting] when its occupant toggles again; to [playing] when
    a [toggleReady] or a [readyForNextGame] starts a game with at least 2
    occupied seats, this one among them; from [playing] to [summary] on a
    [confirmCards]. *)
Theorem seat_lifecycle (env : Env) (s : State) (sid : string) (ev : Event)
    (k : string) (r r' : GameRoom) :
  reachable s ->
  seat s k = Some r ->
  seat (step env sid ev s).1 k = Some r' ->
  seatMove s sid ev k (status r) (status r').
Proof.
  intros Hr Hk. pose proof (reachable_consistent s Hr) as Hc.
  pose proof (reachable_seatsWellFormed s Hr) as Hw.
  unfold step.
  destruct ev as [|roomId|roomId|roomId cs cc|roomId|f t n|]; cbn [handle].
  - unfold on_connection.
    rewrite exec_bind_get, !exec_bind_emit, exec_emit. cbn [fst].
    rewrite Hk. intros [= <-]. constructor.
  - destruct (joinRefused (lookupKey roomId (rooms s))) eqn:Hg.
    { rewrite on_joinRoom_refused by done. cbn [fst]. rewrite Hk.
      intros [= <-]. constructor. }
    rewrite seat_on_joinRoom, Hk by done.
    case_decide as Hroom; [|case_decide as Hocc]; intros [= <-]; simpl.
    + subst k. unfold joinRefused in Hg. fold (seat s roomId) in Hg.
      rewrite Hk in Hg. apply orb_false_iff in Hg as [_ Hp].
      apply bool_decide_eq_false in Hp.
      assert (player r = None) as Hnone
        by (destruct (player r); [by destruct Hp|done]).
      apply (Hw roomId r Hk) in Hnone. rewrite Hnone. by apply move_join.
    + apply move_leave; [done|]. right. by exists roomId.
    + constructor.
  - destruct (ownsSeat_cases s sid roomId) as [Ho|Hn]; cycle 1.
    { rewrite on_toggleReady_refused by done. cbn [fst]. rewrite Hk.
      intros [= <-]. constructor. }
    rewrite on_toggleReady_accepted by done. cbn [fst].
    set (m := set_rooms (updateKey roomId toggleRoom) s).
    assert (consistent m) as Hcm by (by eapply consistent_toggled).
    destruct Ho as (r0 & Hr0 & Hp0).
    assert (seat m k = Some (if decide (k = roomId) then toggleRoom r else r))
      as Hm.
    { unfold m. rewrite seat_set_rooms_updateKey, Hk. by case_decide. }
    intros Hfinal.
    destruct (seat_started env s m k _ r' Hcm (occupant_toggled roomId s)
                (roomsWithPlayers_toggled roomId s) Hm Hfinal)
      as [->|(Hs & Hocc & Htwo & _)].
    + case_decide as Hroom; [|constructor]. subst k.
      assert (r0 = r) as -> by congruence.
      assert (~ startCondition m) as Hidle.
      { intros Hstart. revert Hfinal.
        rewrite seat_checkAndStartGame, Hm, decide_True by done. simpl.
        rewrite decide_True by (simpl; congruence).
        intros [= Heq]. unfold toggleRoom in Heq. simpl in Heq.
        by destruct (negb (isReady r)). }
      assert (occupant s roomId = Some sid) as Hsid
        by (unfold occupant; by rewrite Hk).
      destruct (Hw roomId r Hk) as (_ & Hready & _).
      unfold toggleRoom. simpl. destruct (isReady r) eqn:Hi; simpl.
      * rewrite (proj1 Hready eq_refl). by apply move_unready.
      * apply move_ready; [done|done| |].
        -- intros Hs. apply Hready in Hs. congruence.
        -- destruct (decide (2 <= length (roomsWithPlayers s))) as [Htwo|];
             [|lia].
           destruct Hidle. split.
           ++ apply (readyRooms_nonempty m roomId (toggleRoom r)); [done|].
              unfold toggleRoom. simpl. by rewrite Hi.
           ++ unfold m. by rewrite roomsWithPlayers_toggled.
    + rewrite Hs. apply move_start; [done|done|]. exists roomId. by left.
  - destruct (notOwnerIn SPlaying sid (lookupKey roomId (rooms s))) eqn:Hg.
    { rewrite on_confirmCards_refused by done. cbn [fst]. rewrite Hk.
      intros [= <-]. constructor. }
    rewrite on_confirmCards_accepted by done.
    rewrite seat_checkAllPlayersConfirmed by (by eapply consistent_frame).
    change (seat (set_playedCards _ s) k) with (seat s k). rewrite Hk.
    destruct (summarizeGuard _); [|intros [= <-]; constructor]. simpl.
    case_decide as Hs; intros [= <-]; [|constructor].
    rewrite Hs. simpl. apply move_summarize. by exists roomId, cs, cc.
  - destruct (notOwnerIn SSummary sid (lookupKey roomId (rooms s))) eqn:Hg.
    { rewrite on_readyForNextGame_refused by done. cbn [fst]. rewrite Hk.
      intros [= <-]. constructor. }
    rewrite on_readyForNextGame_accepted by done.
    set (m0 := set_readyForNextGame <[sid := true]> s).
    assert (consistent m0) as Hc0 by (by eapply consistent_frame).
    rewrite exec_checkAllPlayersReadyForNextGame.
    destruct (nextRoundGuard m0) eqn:Hguard; cbn [fst];
      [|change (seat m0 k) with (seat s k); rewrite Hk; intros [= <-];
        constructor].
    assert (consistent (rearmed m0)) as Hcr by (by apply consistent_rearmed).
    assert (forall k, occupant (rearmed m0) k = occupant s k) as Hocc.
    { intros k'. rewrite occupant_rearmed by done. by apply occupant_frame. }
    assert (seat (rearmed m0) k
            = Some (if decide (status r = SSummary) then rearmRoom r else r))
      as Hm.
    { rewrite seat_rearmed by done. change (seat m0 k) with (seat s k).
      by rewrite Hk. }
    assert (startCondition (rearmed m0)) as Hstart.
    { apply startCondition_rearmed; [done|].
      apply nextRoundCondition_guard in Hguard as [Htwo _].
      by rewrite occupiedIn_length in Htwo. }
    intros Hfinal.
    assert (length (roomsWithPlayers (rearmed m0))
            = length (roomsWithPlayers s)) as Hlen
      by (by rewrite roomsWithPlayers_rearmed).
    destruct (seat_started env s (rearmed m0) k _ r' Hcr Hocc Hlen Hm Hfinal)
      as [->|(Hs & Ho & Htwo & _)].
    + case_decide as Hsum; [|constructor]. exfalso. revert Hfinal.
      rewrite seat_checkAndStartGame, Hm, decide_True by done. simpl.
      destruct (consistent_seats s Hc k r Hk) as [Hiff _].
      assert (player r <> None) as Hp
        by (intros Hp; apply Hiff in Hp; congruence).
      rewrite decide_True by done.
      by intros [= Heq].
    + rewrite Hs. apply move_start; [done|done|]. exists roomId. by right.
  - unfold seat. rewrite on_transferPoints_rooms. fold (seat s k). rewrite Hk.
    intros [= <-]. constructor.
  - rewrite seat_on_disconnect, Hk by done.
    case_decide as Hocc; intros [= <-]; [|constructor]. simpl.
    apply move_leave; [done|by left].
Qed.

Lemma seat_lifecycle_witness :
  reachable playingRound /\
  seatMove playingRound "bob" Disconnect "room-2" SPlaying SEmpty.
Proof.
  split; [apply reachable_playingRound|].
  apply (seat_lifecycle demoEnv playingRound "bob" Disconnect "room-2"
           (mkGameRoom (Some "bob") false 1 SPlaying)
           (mkGameRoom None false 1 SEmpty) reachable_playingRound);
    by vm_compute.
Defined.

(** ** What the clients are told *)

Section Broadcasts.
Context {A : Type} (proj : Message -> option A).

Lemma lastBroadcast_app out1 out2 :
  lastBroadcast proj (out1 ++ out2) =
    match lastBroadcast proj out2 with
    | Some x => Some x
    | None => lastBroadcast proj out1
    end.
Proof.
  unfold lastBroadcast. rewrite omap_app.
  destruct (omap _ out2) as [|x l] using rev_ind.
  - by rewrite app_nil_r.
  - by rewrite app_assoc, !last_snoc.
Qed.

Lemma lastBroadcast_cons e out :
  lastBroadcast proj (e :: out) =
    match lastBroadcast proj out with
    | Some x => Some x
    | None => lastBroadcast proj [e]
    end.
Proof. apply (lastBroadcast_app [e] out). Qed.

Lemma lastBroadcast_starts env ps gc xs :
  lastBroadcast proj (xs ≫= startEmission env ps gc) = None.
Proof.
  induction xs as [|[k r] xs IH]; [done|].
  rewrite bind_cons, lastBroadcast_app, IH.
  unfold startEmission. simpl. destruct (player r) as [p|]; [|done].
  by destruct (connected env p).
Qed.

Lemma told_silent before : told proj before before [].
Proof. right. by split. Qed.
End Broadcasts.

(** The broadcasts of [checkAndStartGame]. *)
Lemma checkAndStartGame_told env s :
  consistent s ->
  let res := exec (checkAndStartGame env) s in
  (lastBroadcast roomsOf res.2 = Some (rooms res.1) \/
   (res.2 = [] /\ res.1 = s)) /\
  told pointsOf (playerPoints s) (playerPoints res.1) res.2 /\
  told transactionsOf (transactions s) (transactions res.1) res.2.
Proof.
  intros Hc res. destruct (checkAndStartGame_ledger env s Hc) as [Hp Ht].
  unfold res. rewrite checkAndStartGame_emissions.
  case_decide as Hstart; cbn zeta.
  - split; [left|split; [left|right]].
    + by rewrite lastBroadcast_app.
    + by rewrite lastBroadcast_app.
    + split; [|done]. by rewrite lastBroadcast_app, lastBroadcast_starts.
  - rewrite checkAndStartGame_idle by done.
    split; [by right|]. split; apply told_silent.
Qed.

(** X27.  Nobody is left with stale registries.  In every step of a
    reachable state, for each of the three registries that the clients
    display (the rooms, the balances, the transaction log): either the
    last event of its name sent to everybody in the step carries its value
    at the end of the step, or no such event is sent and the registry has
    not changed. *)
Theorem broadcasts_carry_final_state (env : Env) (s : State) (sid : string)
    (ev : Event) :
  reachable s ->
  let res := step env sid ev s in
  told roomsOf (rooms s) (rooms res.1) res.2 /\
  told pointsOf (playerPoints s) (playerPoints res.1) res.2 /\
  told transactionsOf (transactions s) (transactions res.1) res.2.
Proof.
  intros Hr res. pose proof (reachable_consistent s Hr) as Hc.
  pose proof (reachable_oneSeatEach s Hr) as Hone.
  unfold res, step.
  destruct ev as [|roomId|roomId|roomId cs cc|roomId|f t n|]; cbn [handle].
  - unfold on_connection.
    rewrite exec_bind_get, !exec_bind_emit, exec_emit. cbn [fst snd].
    split; [|split]; right; by split.
  - destruct (joinRefused (lookupKey roomId (rooms s))) eqn:Hg.
    + rewrite on_joinRoom_refused by done. split; [|split]; right; by split.
    + rewrite on_joinRoom_accepted by done.
      rewrite on_joinRoom_state by done.
      split; [by left|]. split; [by left|right; by split].
  - destruct (ownsSeat_cases s sid roomId) as [Ho|Hn]; cycle 1.
    { rewrite on_toggleReady_refused by done. split; [|split]; apply told_silent. }
    rewrite on_toggleReady_accepted by done. cbn zeta. cbn [fst snd].
    set (m := set_rooms (updateKey roomId toggleRoom) s).
    assert (consistent m) as Hcm by (by eapply consistent_toggled).
    destruct (checkAndStartGame_told env m Hcm) as (Hrooms & Hpts & Htxs).
    cbn zeta in Hrooms, Hpts, Htxs.
    split; [|split].
    + left. rewrite lastBroadcast_cons.
      destruct Hrooms as [->|[-> ->]]; done.
    + destruct Hpts as [Hl|[Hl Heq]]; [left|right];
        rewrite lastBroadcast_cons, Hl; [done|by split].
    + destruct Htxs as [Hl|[Hl Heq]]; [left|right];
        rewrite lastBroadcast_cons, Hl; [done|by split].
  - destruct (notOwnerIn SPlaying sid (lookupKey roomId (rooms s))) eqn:Hg.
    { rewrite on_confirmCards_refused by done.
      split; [|split]; apply told_silent. }
    rewrite on_confirmCards_accepted by done.
    rewrite exec_checkAllPlayersConfirmed.
    destruct (summarizeGuard _); cbn [fst snd];
      [|split; [|split]; apply told_silent].
    split; [by left|]. split; right; by split.
  - destruct (notOwnerIn SSummary sid (lookupKey roomId (rooms s))) eqn:Hg.
    { rewrite on_readyForNextGame_refused by done.
      split; [|split]; apply told_silent. }
    rewrite on_readyForNextGame_accepted by done.
    set (m0 := set_readyForNextGame <[sid := true]> s).
    assert (consistent m0) as Hc0 by (by eapply consistent_frame).
    rewrite exec_checkAllPlayersReadyForNextGame.
    destruct (nextRoundGuard m0); cbn [fst snd];
      [|split; [|split]; apply told_silent].
    assert (consistent (rearmed m0)) as Hcr by (by apply consistent_rearmed).
    destruct (checkAndStartGame_told env (rearmed m0) Hcr)
      as (Hrooms & Hpts & Htxs).
    cbn zeta in Hrooms, Hpts, Htxs.
    split; [|split].
    + left. rewrite lastBroadcast_cons.
      destruct Hrooms as [->|[-> ->]]; done.
    + destruct Hpts as [Hl|[Hl Heq]]; [left|right];
        rewrite lastBroadcast_cons, Hl; [done|by split].
    + destruct Htxs as [Hl|[Hl Heq]]; [left|right];
        rewrite lastBroadcast_cons, Hl; [done|by split].
  - destruct (on_transferPoints_cases env sid f t n s Hc)
      as [(q & _ & _ & _ & _ & _ & Heq)|(e & Heq)];
      unfold step, handle in Heq; rewrite Heq; cbn [fst snd].
    + split; [right; by split|]. split; by left.
    + split; [|split]; right; by split.
  - destruct (on_disconnect_state sid s) as (Hrooms & _ & _ & Hp & Ht).
    cbn zeta in Hrooms, Hp, Ht.
    pose proof (on_disconnect_emissions sid s) as Hout.
    destruct (seats_of_cases s sid Hc Hone) as [[Hf _]|(k & r & Hf & _)];
      rewrite Hf in Hrooms, Hout.
    + rewrite exec_forEach_nil in Hout. cbn [snd] in Hout.
      rewrite fmap_nil in Hrooms. cbn [foldl] in Hrooms.
      rewrite Hout, Hrooms, Hp, Ht. split; [|split]; apply told_silent.
    + rewrite exec_forEach_cons, exec_leaveRoom, exec_forEach_nil in Hout.
      cbn [fst snd app] in Hout.
      rewrite fmap_cons, fmap_nil in Hrooms. cbn [foldl fst] in Hrooms.
      rewrite Hout, Hrooms, Hp, Ht. split; [by left|]. split; right; by split.
Qed.

Lemma broadcasts_carry_final_state_witness :
  reachable lobby /\
  lastBroadcast roomsOf (step demoEnv "alice" (ToggleReady "room-1") lobby).2
    = Some (rooms playingRound).
Proof.
  pose proof (broadcasts_carry_final_state demoEnv lobby "alice"
                (ToggleReady "room-1") reachable_lobby) as H.
  cbn zeta in H. destruct H as ([Hlast|[Hnone _]] & _).
  - split; [apply reachable_lobby|exact Hlast].
  - vm_compute in Hnone. discriminate Hnone.
Defined.

(** ** The board of a player *)

Section ClientFacts.
Import Client.

Lemma scanRow_head positions row slot n :
  scanRow positions row slot n =
    head (filter (freeSlot positions) (pair row <$> seq slot n)).
Proof.
  revert slot. induction n as [|n IH]; intros slot; [done|].
  cbn [scanRow seq]. rewrite fmap_cons, filter_cons. unfold freeSlot at 1.
  cbn [fst snd]. case_decide as Hc.
  - by rewrite Hc.
  - destruct (cardAt positions (slotKey row slot)); [apply IH|done].
Qed.

Lemma head_app_or {A} (l1 l2 : list A) :
  head (l1 ++ l2) = match head l1 with Some x => Some x | None => head l2 end.
Proof. by destruct l1. Qed.

Lemma findNextEmptySlot_head positions :
  findNextEmptySlot positions = head (filter (freeSlot positions) allSlots).
Proof.
  unfold findNextEmptySlot. rewrite !scanRow_head.
  change allSlots
    with ((pair 0 <$> seq 0 3) ++ (pair 1 <$> seq 0 5) ++ (pair 2 <$> seq 0 5)).
  by rewrite !filter_app, !head_app_or.
Qed.


Lemma length_filter_full {A} (P : A -> Prop) `{!forall x, Decision (P x)}
    (l : list A) :
  length (filter P l) = length l <-> Forall P l.
Proof.
  induction l as [|x l IH]; [by split|].
  rewrite filter_cons. pose proof (length_filter P l) as Hle.
  destruct (decide (P x)) as [HP|HP]; simpl.
  - rewrite Forall_cons. split.
    + intros [= Hl]. split; [done|]. by apply IH.
    + intros [_ Hl]. f_equal. by apply IH.
  - split; [lia|]. by intros [? _]%Forall_cons.
Qed.

Lemma Forall_values {V} (P : V -> Prop) (o : list (string * V)) :
  NoDup o.*1 ->
  Forall P o.*2 <->
  forall k, k ∈ o.*1 -> exists v, lookupKey k o = Some v /\ P v.
Proof.
  intros Hnd. rewrite Forall_forall. split.
  - intros Hall k Hk. destruct (lookupKey k o) as [v|] eqn:Hv.
    + exists v. split; [done|]. apply Hall, list_elem_of_fmap.
      exists (k, v). split; [done|]. by apply lookupKey_Some_elem.
    + by apply lookupKey_None in Hv.
  - intros Hall v ([k v'] & -> & Hin)%list_elem_of_fmap. simpl.
    destruct (Hall k) as (v & Hv & HP).
    { apply list_elem_of_fmap. by exists (k, v'). }
    rewrite (elem_lookupKey k v' o Hnd Hin) in Hv. by injection Hv as ->.
Qed.

Lemma slotKeys_allSlots :
  (fun p : nat * nat => slotKey p.1 p.2) <$> allSlots = emptyPositions.*1.
Proof. by vm_compute. Qed.

Lemma wellKeyed_NoDup positions : wellKeyed positions -> NoDup positions.*1.
Proof.
  unfold wellKeyed. intros ->. apply (bool_decide_unpack _). by vm_compute.
Qed.

(** On a board with the 13 slot keys, the board is complete exactly when
    every slot holds a card. *)
Lemma isGameComplete_all positions :
  wellKeyed positions ->
  isGameComplete positions = true <->
  forall p, p ∈ allSlots -> is_Some (cardAt positions (slotKey p.1 p.2)).
Proof.
  intros Hk. pose proof (wellKeyed_NoDup positions Hk) as Hnd.
  unfold isGameComplete. rewrite bool_decide_eq_true.
  assert (length positions.*2 = 13) as Hlen.
  { rewrite length_fmap, <- (length_fmap fst), Hk. done. }
  rewrite <- Hlen, length_filter_full, (Forall_values _ _ Hnd).
  unfold wellKeyed in Hk. rewrite Hk, <- slotKeys_allSlots. split.
  - intros Hall p Hp. destruct (Hall (slotKey p.1 p.2)) as (v & Hv & Hsome).
    { apply list_elem_of_fmap. by exists p. }
    unfold cardAt. by rewrite Hv.
  - intros Hall k (p & -> & Hp)%list_elem_of_fmap.
    specialize (Hall p Hp). unfold cardAt in Hall.
    destruct (lookupKey (slotKey p.1 p.2) positions) as [v|]; [|by destruct Hall].
    by exists v.
Qed.

Lemma findNextEmptySlot_None positions :
  findNextEmptySlot positions = None <->
  forall p, p ∈ allSlots -> is_Some (cardAt positions (slotKey p.1 p.2)).
Proof.
  rewrite findNextEmptySlot_head. split.
  - intros Hnone p Hp.
    destruct (cardAt positions (slotKey p.1 p.2)) eqn:Hc; [done|].
    assert (p ∈ filter (freeSlot positions) allSlots) as Hin
      by (by apply list_elem_of_filter).
    destruct (filter (freeSlot positions) allSlots);
      [by apply elem_of_nil in Hin|done].
  - intros Hall.
    destruct (filter (freeSlot positions) allSlots) as [|p l] eqn:Hf; [done|].
    assert (p ∈ filter (freeSlot positions) allSlots) as Hin
      by (rewrite Hf; by left).
    apply list_elem_of_filter in Hin as [Hfree Hin].
    specialize (Hall p Hin). unfold freeSlot in Hfree. rewrite Hfree in Hall.
    by destruct Hall.
Qed.

(** X20.  [findNextEmptySlot] returns the first free slot of the board
    in reading order (top row left to right, then the middle row, then the
    bottom row): the slot it returns is one of the 13, is free, and every
    slot before it holds a card.  It returns null exactly when all 13
    slots hold a card, which on a board with the 13 slot keys is exactly
    when the board counts as complete. *)
Theorem findNextEmptySlot_first_free
    (positions : list (string * option PositionedCard)) :
  (forall row slot, findNextEmptySlot positions = Some (row, slot) ->
     cardAt positions (slotKey row slot) = None /\
     exists before after,
       allSlots = before ++ (row, slot) :: after /\
       forall p, p ∈ before -> is_Some (cardAt positions (slotKey p.1 p.2))) /\
  (findNextEmptySlot positions = None <->
   forall p, p ∈ allSlots -> is_Some (cardAt positions (slotKey p.1 p.2))) /\
  (wellKeyed positions ->
   (findNextEmptySlot positions = None <-> isGameComplete positions = true)).
Proof.
  split; [|split].
  - intros row slot Hnext. rewrite findNextEmptySlot_head in Hnext.
    pose proof Hnext as (before & after & Hsplit & Hbefore)%head_filter_Some.
    split.
    + apply head_Some_elem_of, list_elem_of_filter in Hnext as [Hfree _].
      exact Hfree.
    + exists before, after. split; [done|]. intros p Hp.
      eapply Forall_forall in Hbefore; [|exact Hp]. unfold freeSlot in Hbefore.
      by destruct (cardAt positions (slotKey p.1 p.2)).
  - apply findNextEmptySlot_None.
  - intros Hk. by rewrite findNextEmptySlot_None, isGameComplete_all.
Qed.

Lemma findNextEmptySlot_first_free_witness :
  wellKeyed emptyPositions /\
  findNextEmptySlot emptyPositions = Some (0, 0) /\
  cardAt emptyPositions (slotKey 0 0) = None /\
  (findNextEmptySlot emptyPositions = None <->
   isGameComplete emptyPositions = true).
Proof.
  assert (wellKeyed emptyPositions) as Hk by done.
  pose proof (findNextEmptySlot_first_free emptyPositions)
    as (Hsome & _ & Hcomplete).
  split; [exact Hk|]. split; [by vm_compute|].
  split; [apply (Hsome 0 0); by vm_compute|exact (Hcomplete Hk)].
Defined.

Lemma rowCards_filled positions (ps : list (nat * nat)) :
  (forall p, p ∈ ps -> is_Some (cardAt positions (slotKey p.1 p.2))) ->
  Forall2 (sentFor positions) ps
          (rowCards positions ((fun p => slotKey p.1 p.2) <$> ps)).
Proof.
  unfold rowCards. induction ps as [|p ps IH]; intros Hall; [constructor|].
  rewrite fmap_cons. cbn [omap list_omap].
  destruct (Hall p) as [c Hc]; [by left|]. rewrite Hc. rewrite fmap_cons.
  constructor.
  - by exists c.
  - apply IH. intros q Hq. apply Hall. by right.
Qed.

(** X21.  [handleReady] sends a hand only from a complete board.  On a
    board with the 13 slot keys: if a slot is free it only shows the alert
    and changes nothing; otherwise it marks the board confirmed and, when
    the player has a current room and a socket, sends exactly one
    [confirmCards] for that room, with the selected community card and with
    rows of exactly 3, 5 and 5 cards: slot by slot, in reading order, the
    suit and value of the card that fills the slot. *)
Theorem handleReady_sends_complete_hand (socket : bool)
    (currentRoom : option string) (b : Board) :
  wellKeyed (positions b) ->
  let res := handleReady socket currentRoom b in
  (isGameComplete (positions b) = false ->
     res = (b, [alert "Please place all 13 cards before submitting!"])) /\
  (isGameComplete (positions b) = true ->
     res.1 = mkBoard (positions b) (boardCards b) true
                     (selectedCommunityCard b) /\
     forall e, e ∈ res.2 ->
       exists room cs,
         currentRoom = Some room /\ room <> "" /\ socket = true /\
         res.2 = [e] /\
         e = send (ConfirmCards room cs (selectedCommunityCard b)) /\
         length (row0 cs) = 3 /\ length (row1 cs) = 5 /\
         length (row2 cs) = 5 /\
         Forall2 (sentFor (positions b)) allSlots
                 (row0 cs ++ row1 cs ++ row2 cs)) /\
  (forall room, isGameComplete (positions b) = true -> socket = true ->
     currentRoom = Some room -> room <> "" ->
     exists cs, res.2 = [send (ConfirmCards room cs (selectedCommunityCard b))]).
Proof.
  intros Hk res. unfold res, handleReady. split; [|split].
  - by intros ->.
  - intros Hcomplete. rewrite Hcomplete. cbn [negb].
    pose proof (proj1 (isGameComplete_all (positions b) Hk) Hcomplete) as Hall.
    assert (forall ps, ps ⊆ allSlots ->
              Forall2 (sentFor (positions b)) ps
                (rowCards (positions b) ((fun p => slotKey p.1 p.2) <$> ps)))
      as Hrow.
    { intros ps Hps. apply rowCards_filled. intros p Hp. by apply Hall, Hps. }
    assert (forall l1 l2 : list (nat * nat), l1 ⊆ l1 ++ l2) as Hl
      by (intros l1 l2 x Hx; apply elem_of_app; by left).
    assert (forall l1 l2 : list (nat * nat), l2 ⊆ l1 ++ l2) as Hr
      by (intros l1 l2 x Hx; apply elem_of_app; by right).
    pose proof (Hrow [(0, 0); (0, 1); (0, 2)]
                  (Hl _ [(1, 0); (1, 1); (1, 2); (1, 3); (1, 4);
                         (2, 0); (2, 1); (2, 2); (2, 3); (2, 4)])) as H0.
    pose proof (Hrow [(1, 0); (1, 1); (1, 2); (1, 3); (1, 4)]
                  (fun x Hx => Hr [(0, 0); (0, 1); (0, 2)] _ x
                     (Hl _ [(2, 0); (2, 1); (2, 2); (2, 3); (2, 4)] x Hx)))
      as H1.
    pose proof (Hrow [(2, 0); (2, 1); (2, 2); (2, 3); (2, 4)]
                  (fun x Hx => Hr [(0, 0); (0, 1); (0, 2)] _ x
                     (Hr [(1, 0); (1, 1); (1, 2); (1, 3); (1, 4)] _ x Hx)))
      as H2.
    change ((fun p : nat * nat => slotKey p.1 p.2) <$> [(0, 0); (0, 1); (0, 2)])
      with ["0-0"; "0-1"; "0-2"] in H0.
    change ((fun p : nat * nat => slotKey p.1 p.2)
              <$> [(1, 0); (1, 1); (1, 2); (1, 3); (1, 4)])
      with ["1-0"; "1-1"; "1-2"; "1-3"; "1-4"] in H1.
    change ((fun p : nat * nat => slotKey p.1 p.2)
              <$> [(2, 0); (2, 1); (2, 2); (2, 3); (2, 4)])
      with ["2-0"; "2-1"; "2-2"; "2-3"; "2-4"] in H2.
    destruct currentRoom as [room|]; [|split; [done|by intros e ?%elem_of_nil]].
    case_bool_decide as Hroom; [split; [done|by intros e ?%elem_of_nil]|].
    split; [done|]. cbn [snd]. unfold confirmCards.
    destruct socket; cbn [andb]; [|by intros e ?%elem_of_nil].
    rewrite bool_decide_eq_true_2 by done.
    intros e ->%list_elem_of_singleton.
    eexists room, _. split; [done|]. split; [done|]. split; [done|].
    split; [done|]. split; [done|]. cbn [row0 row1 row2].
    split; [by rewrite <- (Forall2_length _ _ _ H0)|].
    split; [by rewrite <- (Forall2_length _ _ _ H1)|].
    split; [by rewrite <- (Forall2_length _ _ _ H2)|].
    change allSlots with ([(0, 0); (0, 1); (0, 2)]
                          ++ [(1, 0); (1, 1); (1, 2); (1, 3); (1, 4)]
                          ++ [(2, 0); (2, 1); (2, 2); (2, 3); (2, 4)]).
    by repeat apply Forall2_app.
  - intros room -> -> -> Hroom. cbn [negb].
    rewrite bool_decide_eq_false_2 by done. cbn [snd]. unfold confirmCards.
    cbn [andb]. rewrite bool_decide_eq_true_2 by done. by eexists.
Qed.

Section SetKeyFacts.
Context {V : Type}.
Implicit Types (o : list (string * V)).

Lemma setKey_setKey k (v w : V) o : setKey k v (setKey k w o) = setKey k v o.
Proof.
  induction o as [|[k' v'] o IH]; simpl.
  - by rewrite decide_True.
  - destruct (decide (k' = k)) as [->|Hne]; simpl.
    + by rewrite decide_True.
    + rewrite decide_False by done. by rewrite IH.
Qed.

Lemma setKey_same k (v : V) o : lookupKey k o = Some v -> setKey k v o = o.
Proof.
  induction o as [|[k' v'] o IH]; simpl; [done|].
  destruct (decide (k' = k)) as [->|Hne].
  - by intros [= ->].
  - intros Hk. by rewrite IH.
Qed.
End SetKeyFacts.

Lemma slotKey_allSlots_key positions p :
  wellKeyed positions -> p ∈ allSlots -> slotKey p.1 p.2 ∈ positions.*1.
Proof.
  intros Hk Hp. unfold wellKeyed in Hk.
  rewrite Hk, <- slotKeys_allSlots. apply list_elem_of_fmap. by exists p.
Qed.

Lemma cardAt_setKey positions k v key :
  cardAt (setKey k v positions) key =
    if decide (key = k) then v else cardAt positions key.
Proof. unfold cardAt. rewrite lookupKey_setKey. by case_decide. Qed.

Lemma wellKeyed_setKey positions k v :
  wellKeyed positions -> k ∈ positions.*1 -> wellKeyed (setKey k v positions).
Proof.
  unfold wellKeyed. intros Hk Hin. by rewrite setKey_keys, decide_True.
Qed.

Lemma findNextEmptySlot_allSlots positions p :
  findNextEmptySlot positions = Some p ->
  p ∈ allSlots /\ cardAt positions (slotKey p.1 p.2) = None.
Proof.
  rewrite findNextEmptySlot_head.
  intros [Hfree Hin]%head_Some_elem_of%list_elem_of_filter. by split.
Qed.

Lemma head_filter_placed (card : PositionedCard) nextSlot
    (l : list PositionedCard) :
  head (filter (fun c => id c = id card)
          ((fun c => if decide (id c = id card) then place nextSlot c else c)
             <$> l))
  = place nextSlot <$> head (filter (fun c => id c = id card) l).
Proof.
  induction l as [|c l IH]; [done|]. rewrite fmap_cons, !filter_cons.
  destruct (decide (id c = id card)) as [Hc|Hc].
  - by rewrite decide_True by done.
  - by rewrite decide_False by done.
Qed.

(** X22.  [handleCardClick] puts the clicked card into the first free
    slot, and does not look at whether the card is placed already: the
    slot gets the card of the hand with the clicked id, marked placed at
    this slot, every other slot keeps its content, and a slot that already
    showed this card still shows it.  The same card can so fill several
    slots of the board. *)
Theorem handleCardClick_places_again (card c0 : PositionedCard) (b : Board)
    (row slot : nat) :
  confirmed b = false ->
  wellKeyed (positions b) ->
  findNextEmptySlot (positions b) = Some (row, slot) ->
  head (filter (fun c => id c = id card) (boardCards b)) = Some c0 ->
  let b' := handleCardClick card b in
  cardAt (positions b') (slotKey row slot) = Some (place (row, slot) c0) /\
  (forall key, key <> slotKey row slot ->
     cardAt (positions b') key = cardAt (positions b) key) /\
  (forall key c1, cardAt (positions b) key = Some c1 -> id c1 = id card ->
     key <> slotKey row slot /\ cardAt (positions b') key = Some c1 /\
     id (place (row, slot) c0) = id c1) /\
  wellKeyed (positions b').
Proof.
  intros Hconf Hk Hnext Hc0 b'.
  destruct (findNextEmptySlot_allSlots _ _ Hnext) as [Hin Hfree].
  simpl in Hfree.
  assert (positions b' =
            setKey (slotKey row slot) (Some (place (row, slot) c0))
                   (positions b)) as Hpos.
  { unfold b', handleCardClick. rewrite Hconf, Hnext. cbn [positions fst snd].
    by rewrite head_filter_placed, Hc0. }
  assert (id c0 = id card) as Hid.
  { apply head_Some_elem_of, list_elem_of_filter in Hc0 as [Hid _]. exact Hid. }
  rewrite Hpos. split; [|split; [|split]].
  - by rewrite cardAt_setKey, decide_True.
  - intros key Hkey. by rewrite cardAt_setKey, decide_False.
  - intros key c1 Hc1 Hid1.
    assert (key <> slotKey row slot) as Hne by (intros ->; congruence).
    split; [done|]. split; [by rewrite cardAt_setKey, decide_False|].
    simpl. congruence.
  - apply wellKeyed_setKey; [done|].
    by apply (slotKey_allSlots_key (positions b) (row, slot)).
Qed.

(** X23.  Taking a card back.  Clicking a card of the hand that is not
    placed and then clicking the slot it went to leaves the board exactly
    as it was: positions, hand, confirmation and selected community
    card. *)
Theorem click_then_take_back (card : PositionedCard) (b : Board)
    (row slot : nat) :
  confirmed b = false ->
  wellKeyed (positions b) ->
  findNextEmptySlot (positions b) = Some (row, slot) ->
  (forall c, c ∈ boardCards b -> id c = id card ->
     isPlaced c = false /\ position c = None) ->
  handleSlotClick row slot (handleCardClick card b) = b.
Proof.
  intros Hconf Hk Hnext Hfresh.
  destruct (findNextEmptySlot_allSlots _ _ Hnext) as [Hin Hfree].
  simpl in Hfree.
  assert (lookupKey (slotKey row slot) (positions b) = Some None) as Hnull.
  { pose proof (slotKey_allSlots_key (positions b) (row, slot) Hk Hin) as Hkey.
    simpl in Hkey. unfold cardAt in Hfree.
    destruct (lookupKey (slotKey row slot) (positions b)) as [[c|]|] eqn:Hl;
      [done|done|]. by apply lookupKey_None in Hl. }
  unfold handleCardClick. rewrite Hconf, Hnext. cbn [fst snd].
  rewrite head_filter_placed. unfold handleSlotClick. cbn [confirmed positions
    boardCards selectedCommunityCard].
  rewrite cardAt_setKey, decide_True by done.
  destruct (head (filter (fun c => id c = id card) (boardCards b)))
    as [c0|] eqn:Hc0; cbn [fmap option_fmap option_map].
  - assert (id c0 = id card) as Hid.
    { apply head_Some_elem_of, list_elem_of_filter in Hc0 as [Hid _].
      exact Hid. }
    rewrite setKey_setKey, (setKey_same _ _ _ Hnull).
    destruct b as [pos cards conf sel]. cbn in *. subst conf. f_equal.
    rewrite <- list_fmap_compose. rewrite <- (list_fmap_id cards) at 2.
    apply list_fmap_ext. intros i c Hc%list_elem_of_lookup_2. simpl.
    destruct (decide (id c = id card)) as [Hcid|Hcid].
    + rewrite decide_True by (simpl; congruence).
      destruct (Hfresh c Hc Hcid) as [Hp Hn]. destruct c. simpl in *.
      unfold unplace. simpl. by rewrite Hp, Hn.
    + rewrite decide_False by congruence. done.
  - rewrite (setKey_same _ _ _ Hnull).
    destruct b as [pos cards conf sel]. cbn in *. subst conf. f_equal.
    rewrite <- (list_fmap_id cards) at 2.
    apply list_fmap_ext. intros i c Hc%list_elem_of_lookup_2.
    rewrite decide_False; [done|]. intros Hcid.
    assert (c ∈ filter (fun c => id c = id card) cards) as Hf
      by (by apply list_elem_of_filter).
    destruct (filter (fun c => id c = id card) cards);
      [by apply elem_of_nil in Hf|done].
Qed.

Lemma handleReady_sends_complete_hand_witness :
  wellKeyed (positions fullBoard) /\
  isGameComplete (positions fullBoard) = true /\
  (exists cs,
     (handleReady true (Some "room-1") fullBoard).2
       = [send (ConfirmCards "room-1" cs None)]) /\
  wellKeyed (positions demoBoard) /\
  handleReady true (Some "room-1") demoBoard
    = (demoBoard, [alert "Please place all 13 cards before submitting!"]).
Proof.
  assert (wellKeyed (positions fullBoard)) as H1 by (by vm_compute).
  assert (isGameComplete (positions fullBoard) = true) as H2 by (by vm_compute).
  assert (wellKeyed (positions demoBoard)) as H3 by (by vm_compute).
  pose proof (handleReady_sends_complete_hand true (Some "room-1") fullBoard H1)
    as Ha.
  pose proof (handleReady_sends_complete_hand true (Some "room-1") demoBoard H3)
    as Hb.
  cbn zeta in Ha, Hb. destruct Ha as (_ & _ & Ha). destruct Hb as (Hb & _).
  split; [exact H1|]. split; [exact H2|].
  split; [apply (Ha "room-1" H2 eq_refl eq_refl); done|].
  split; [exact H3|]. apply Hb. by vm_compute.
Defined.

Lemma handleCardClick_places_again_witness :
  confirmed clickedOnce = false /\
  wellKeyed (positions clickedOnce) /\
  findNextEmptySlot (positions clickedOnce) = Some (0, 1) /\
  cardAt (positions clickedOnce) "0-0"
    = Some (mkPositionedCard hearts "3" "hearts-3-0" true (Some (0, 0))) /\
  cardAt
    (positions
       (handleCardClick (mkPositionedCard hearts "3" "hearts-3-0" false None)
          clickedOnce)) "0-1"
    = Some (mkPositionedCard hearts "3" "hearts-3-0" true (Some (0, 1))) /\
  cardAt
    (positions
       (handleCardClick (mkPositionedCard hearts "3" "hearts-3-0" false None)
          clickedOnce)) "0-0"
    = Some (mkPositionedCard hearts "3" "hearts-3-0" true (Some (0, 0))).
Proof.
  assert (confirmed clickedOnce = false) as H1 by (by vm_compute).
  assert (wellKeyed (positions clickedOnce)) as H2 by (by vm_compute).
  assert (findNextEmptySlot (positions clickedOnce) = Some (0, 1)) as H3
    by (by vm_compute).
  assert (head (filter (fun c => id c = "hearts-3-0") (boardCards clickedOnce))
          = Some (mkPositionedCard hearts "3" "hearts-3-0" true (Some (0, 0))))
    as H4 by (by vm_compute).
  assert (cardAt (positions clickedOnce) "0-0"
          = Some (mkPositionedCard hearts "3" "hearts-3-0" true (Some (0, 0))))
    as H5 by (by vm_compute).
  pose proof (handleCardClick_places_again
                (mkPositionedCard hearts "3" "hearts-3-0" false None) _
                clickedOnce 0 1 H1 H2 H3 H4) as H.
  cbn zeta in H. destruct H as (Hnew & _ & Hold & _).
  split; [exact H1|]. split; [exact H2|]. split; [exact H3|].
  split; [exact H5|]. split; [exact Hnew|].
  apply (Hold "0-0" _ H5 eq_refl).
Defined.

Lemma click_then_take_back_witness :
  confirmed demoBoard = false /\
  wellKeyed (positions demoBoard) /\
  findNextEmptySlot (positions demoBoard) = Some (0, 0) /\
  handleSlotClick 0 0
    (handleCardClick (mkPositionedCard hearts "3" "hearts-3-0" false None)
       demoBoard) = demoBoard.
Proof.
  assert (confirmed demoBoard = false) as H1 by (by vm_compute).
  assert (wellKeyed (positions demoBoard)) as H2 by (by vm_compute).
  assert (findNextEmptySlot (positions demoBoard) = Some (0, 0)) as H3
    by (by vm_compute).
  assert (forall c, c ∈ boardCards demoBoard -> id c = "hearts-3-0" ->
            isPlaced c = false /\ position c = None) as H4.
  { assert (Forall (fun c => isPlaced c = false /\ position c = None)
              (boardCards demoBoard)) as Hall
      by (vm_compute; repeat constructor).
    intros c Hc _. by eapply Forall_forall in Hall. }
  split; [exact H1|]. split; [exact H2|]. split; [exact H3|].
  apply (click_then_take_back
           (mkPositionedCard hearts "3" "hearts-3-0" false None) demoBoard 0 0
           H1 H2 H3 H4).
Defined.

(** ** The summary panel *)






Lemma settle_irrelevant k b tx :
  ~ (from tx = k \/ to tx = k) -> settle k b tx = b.
Proof.
  intros Hrel. unfold settle. rewrite !decide_False; [done|..];
    intros Heq; apply Hrel; tauto.
Qed.

Lemma replay_relevant k txs :
  replay k (getRoomTransactions k txs) = replay k txs.
Proof.
  unfold replay, getRoomTransactions. generalize Number.zero.
  induction txs as [|tx txs IH]; intros b; [done|].
  rewrite filter_cons. case_decide as Hrel; simpl; [apply IH|].
  by rewrite IH, settle_irrelevant.
Qed.

Lemma net_relevant k txs : net k (getRoomTransactions k txs) = net k txs.
Proof.
  unfold getRoomTransactions. induction txs as [|tx txs IH]; [done|].
  rewrite filter_cons. case_decide as Hrel; simpl; rewrite IH; [done|].
  unfold delta. rewrite !decide_False; [lia|..]; intros Heq; apply Hrel; tauto.
Qed.

(** X25.  The history shown under a seat accounts for its balance.  In
    every reachable state, the balance of a seat is what the transactions
    that [getRoomTransactions] selects for it give when they are replayed
    from 0 with the number arithmetic of the server; these are the logged
    transactions to or from the seat, in the order of the log.  As long as
    the logged amounts are integers and their total is a safe integer, the
    balance is the exact net amount (what came in less what went out) of
    the selected transactions. *)
Theorem getRoomTransactions_explains_balance (s : State) (k : string) :
  reachable s ->
  k ∈ roomIds ->
  playerPoints s !! k
    = Some (replay k (getRoomTransactions k (transactions s))) /\
  (Forall integerAmount (transactions s) ->
   (volume (transactions s) <= Number.MAX_SAFE_INTEGER)%Z ->
   playerPoints s !! k
     = Some (Number.ofZ (net k (getRoomTransactions k (transactions s))))) /\
  getRoomTransactions k (transactions s) `sublist_of` transactions s /\
  (forall tx, tx ∈ transactions s -> from tx = k \/ to tx = k ->
     tx ∈ getRoomTransactions k (transactions s)).
Proof.
  intros Hr Hk. destruct (reachable_ledgerBalanced s Hr) as [Hnet _ _].
  split; [by rewrite replay_relevant, (Hnet k Hk)|].
  split; [intros Hint Hvol; by rewrite net_relevant, (Hnet k Hk), replay_exact|].
  split; [apply sublist_filter|].
  intros tx Hin Hrel. by apply list_elem_of_filter.
Qed.

Lemma getRoomTransactions_explains_balance_witness :
  reachable settledRound /\
  "room-2" ∈ roomIds /\
  playerPoints settledRound !! "room-2"
    = Some (replay "room-2"
              (getRoomTransactions "room-2" (transactions settledRound)))
  /\ playerPoints settledRound !! "room-2" = Some (Number.ofZ 50).
Proof.
  assert ("room-2" ∈ roomIds) as Hk
    by (apply elem_of_cons; right; apply elem_of_cons; by left).
  pose proof (getRoomTransactions_explains_balance settledRound "room-2"
                reachable_settledRound Hk) as (Hbal & _).
  split; [apply reachable_settledRound|]. split; [exact Hk|].
  split; [exact Hbal|by vm_compute].
Defined.

End ClientFacts.
